(** * SUDS maintenance app: activity display order and reorder handlers

    A shallow embedding of the display-order resolver
    ([getDisplayActivities] with its inner [addActivityAndDependents]) and of
    the reorder and dependency-save handlers ([handleMoveSudsType],
    [handleMoveCategory], [handleMoveActivityColumn],
    [handleSaveDependencies]) of the application source, followed by the
    properties established about them.

    JavaScript values are modelled as follows.
    - Document ids, category names and activity names are [string]s.
    - Numbers that the code uses as array indices or sort keys are [Z]
      ([indexOf] and [findIndex] answer [-1] for a missing element).
    - [Set] is [gset string], [Map] is [gmap string _].  The own keys of a
      plain object used as a map are a [gmap string _] as well; a lookup also
      answers for the members inherited from [Object.prototype].
    - A field that may be [undefined] is an [option].
    - A call that may throw returns a [Completion]; an asynchronous handler is
      a [Script] of its effects, run against a persistence layer. *)

From Stdlib Require Import Ascii.
From stdpp Require Import base gmap sets list strings numbers sorting.

Open Scope Z_scope.

(** ** Data model *)

(** A document of the [maintenanceActivities] collection, as the snapshot
    listener materialises it ([{ id: doc.id, ...doc.data() }]).  Only the fields
    the resolver and the dependency handler read are kept; [status], [comment],
    [frequency] and the validation fields are carried along by the source
    without being inspected. *)
Record MaintenanceActivity := mkActivity {
  id : string;
  sudsTypeId : string;
  category : string;
  activityName : string;
  applies : bool;
  dependentActivities : option (list string)
}.

#[global] Instance MaintenanceActivity_eq_dec : EqDecision MaintenanceActivity.
Proof. solve_decision. Defined.

(** An element of [displayedOrder]: the activity spread into a fresh object
    together with its [isDependent] flag. *)
Record DisplayActivity := mkDisplay {
  activity : MaintenanceActivity;
  isDependent : bool
}.

#[global] Instance DisplayActivity_eq_dec : EqDecision DisplayActivity.
Proof. solve_decision. Defined.

(** ** Array helpers *)

(** [Array.prototype.indexOf]: position of the first element strictly equal to
    [x], or [-1]. *)
Fixpoint indexOfFrom (l : list string) (x : string) (i : Z) : Z :=
  match l with
  | [] => -1
  | y :: l' => if decide (y = x) then i else indexOfFrom l' x (i + 1)
  end.

Definition indexOf (l : list string) (x : string) : Z := indexOfFrom l x 0.

(** [Array.prototype.sort] with a comparator that always answers.  The
    language standard makes the sort stable: an element moves in front of
    another one only when the comparator answers a negative number for the pair
    taken in the other order.  Insertion from the right realises exactly
    that. *)
Fixpoint sortInsert {A} (cmp : A → A → Z) (x : A) (l : list A) : list A :=
  match l with
  | [] => [x]
  | y :: l' => if decide (cmp x y ≤ 0) then x :: y :: l' else y :: sortInsert cmp x l'
  end.

Definition jsSort {A} (cmp : A → A → Z) (l : list A) : list A :=
  foldr (sortInsert cmp) [] l.

(** ** Completions

    A call returns a value or throws.  The one exception that the modelled
    code raises itself is the [TypeError] of calling an array method
    ([indexOf], [forEach]) on a value that has none. *)
Inductive Completion (A : Type) : Type :=
| Normal (value : A)
| TypeError.
Arguments Normal {A} value.
Arguments TypeError {A}.

#[global] Instance Completion_ret : MRet Completion := @Normal.
#[global] Instance Completion_bind : MBind Completion :=
  λ A B f c, match c with Normal a => f a | TypeError => TypeError end.
#[global] Instance Completion_fmap : FMap Completion :=
  λ A B f c, match c with Normal a => Normal (f a) | TypeError => TypeError end.

(** ** Plain objects used as maps

    [definedActivityNames] is a plain object: besides its own keys it answers
    for the members it inherits from [Object.prototype], each of them a
    function or an object (truthy, and without array methods). *)
Definition objectPrototypeNames : list string :=
  ["constructor"; "hasOwnProperty"; "isPrototypeOf"; "propertyIsEnumerable";
   "toLocaleString"; "toString"; "valueOf"; "__proto__";
   "__defineGetter__"; "__defineSetter__"; "__lookupGetter__"; "__lookupSetter__"]%string.

(** [definedActivityNames[c] || []]: the array stored under the own key [c];
    the empty array when [c] is no key at all; [None] for the inherited member
    when [c] names one and is no own key. *)
Definition namesFor (definedActivityNames : gmap string (list string)) (c : string)
  : option (list string) :=
  match definedActivityNames !! c with
  | Some names => Some names
  | None => if decide (c ∈ objectPrototypeNames) then None else Some []
  end.

(** [names.indexOf(x)] on the value of such a lookup: [indexOf] is not a
    function of an inherited member. *)
Definition indexOfIn (names : option (list string)) (x : string) : Completion Z :=
  match names with
  | Some l => Normal (indexOf l x)
  | None => TypeError
  end.

(** [Array.prototype.sort] with a comparator that may throw: the exception of
    a comparison ends the sort.  The standard leaves the sequence of comparator
    calls to the implementation; they are those of the insertion here.  An
    array of fewer than two elements is never compared.  With the comparator
    of the resolver the sort throws exactly when two elements of the array make
    the comparator throw ([sortActivitiesThrowing_TypeError] below): the
    comparator then throws for one of them and every element that has its
    category index, so no sequence of comparisons orders the two. *)
Fixpoint sortInsertThrowing {A} (cmp : A → A → Completion Z) (x : A) (l : list A)
  : Completion (list A) :=
  match l with
  | [] => Normal [x]
  | y :: l' =>
      c ← cmp x y;
      if decide (c ≤ 0) then Normal (x :: y :: l')
      else (y ::.) <$> sortInsertThrowing cmp x l'
  end.

Definition jsSortThrowing {A} (cmp : A → A → Completion Z) (l : list A) : Completion (list A) :=
  foldr (λ x sorted, sorted ≫= sortInsertThrowing cmp x) (Normal []) l.

(** [forEach] with a callback that threads a state, may throw and may fail to
    return ([None]). *)
Fixpoint forEachThrowing {A S} (f : A → S → option (Completion S)) (l : list A) (s : S)
  : option (Completion S) :=
  match l with
  | [] => Some (Normal s)
  | x :: l' =>
      match f x s with
      | Some (Normal s') => forEachThrowing f l' s'
      | Some TypeError => Some TypeError
      | None => None
      end
  end.

(** ** The display-order resolver *)

(** The mutable locals of [getDisplayActivities] that the recursive helper
    closes over. *)
Record ResolverState := mkState {
  processedActivityIds : gset string;
  displayedOrder : list DisplayActivity
}.

(** [new Map(sudsActivities.map(act => [act.id, act]))]: a later entry with
    the same key replaces an earlier one. *)
Definition buildActivityMap (sudsActivities : list MaintenanceActivity)
  : gmap string MaintenanceActivity :=
  foldl (λ m act, <[id act := act]> m) ∅ sudsActivities.

(** The two statements that follow the early return of
    [addActivityAndDependents]. *)
Definition pushActivity (act : MaintenanceActivity) (dep : bool) (st : ResolverState)
  : ResolverState :=
  {| processedActivityIds := {[id act]} ∪ processedActivityIds st;
     displayedOrder := displayedOrder st ++ [mkDisplay act dep] |}.

(** [allMaintenanceActivities.filter(act => act.sudsTypeId === sudsId && act.applies)] *)
Definition sudsActivitiesOf (sudsId : string) (allMaintenanceActivities : list MaintenanceActivity)
  : list MaintenanceActivity :=
  filter (λ act, sudsTypeId act = sudsId ∧ applies act = true) allMaintenanceActivities.

(** The set filled by the nested [forEach] over every [dependentActivities]. *)
Definition allDependentIds (sudsActivities : list MaintenanceActivity) : gset string :=
  foldl (λ s act, foldl (λ s' depId, {[depId]} ∪ s') s (default [] (dependentActivities act)))
    ∅ sudsActivities.

Definition initialState : ResolverState :=
  {| processedActivityIds := ∅; displayedOrder := [] |}.

Section Resolver.

(** [categories]: the ordered category names; [definedActivityNames]: the
    object mapping a category to its ordered activity names. *)
Variable categories : list string.
Variable definedActivityNames : gmap string (list string).

(** The comparator handed to both [sort] calls of [getDisplayActivities].
    Both lookups are made before the first [indexOf]. *)
Definition compareActivities (a b : MaintenanceActivity) : Completion Z :=
  let categoryAIndex := indexOf categories (category a) in
  let categoryBIndex := indexOf categories (category b) in
  if decide (categoryAIndex ≠ categoryBIndex) then Normal (categoryAIndex - categoryBIndex)
  else
    let activityNamesForCategoryA := namesFor definedActivityNames (category a) in
    let activityNamesForCategoryB := namesFor definedActivityNames (category b) in
    activityIndexA ← indexOfIn activityNamesForCategoryA (activityName a);
    activityIndexB ← indexOfIn activityNamesForCategoryB (activityName b);
    Normal (activityIndexA - activityIndexB).

Section Walk.

Variable activityMap : gmap string MaintenanceActivity.

(** [(activity.dependentActivities || []).map(depId => activityMap.get(depId))
    .filter(Boolean).sort(...)] *)
Definition sortedDependents (act : MaintenanceActivity)
  : Completion (list MaintenanceActivity) :=
  jsSortThrowing compareActivities
    (omap (λ depId, activityMap !! depId) (default [] (dependentActivities act))).

(** [addActivityAndDependents].  The argument [dep] is the [isDependent]
    field of the object passed in: absent ([false]) for a root, [true] for
    the spread copies made in the [forEach] over the dependents.  The
    recursion of the source is not structural; [fuel] bounds its depth and
    [None] means the bound was reached. *)
Fixpoint addActivityAndDependents (fuel : nat) (act : MaintenanceActivity) (dep : bool)
    (st : ResolverState) : option (Completion ResolverState) :=
  match fuel with
  | O => None
  | S fuel' =>
      if decide (id act ∈ processedActivityIds st) then Some (Normal st)
      else
        match sortedDependents act with
        | Normal dependents =>
            forEachThrowing (λ depAct, addActivityAndDependents fuel' depAct true)
              dependents (pushActivity act dep st)
        | TypeError => Some TypeError
        end
  end.

End Walk.

(** [topLevelActivities] after its [sort]. *)
Definition topLevelActivities (sudsActivities : list MaintenanceActivity)
  : Completion (list MaintenanceActivity) :=
  jsSortThrowing compareActivities
    (filter (λ act, id act ∉ allDependentIds sudsActivities) sudsActivities).

(** [getDisplayActivities] with an explicit recursion bound. *)
Definition getDisplayActivitiesFuel (fuel : nat) (sudsId : string)
    (allMaintenanceActivities : list MaintenanceActivity)
  : option (Completion (list DisplayActivity)) :=
  let sudsActivities := sudsActivitiesOf sudsId allMaintenanceActivities in
  let activityMap := buildActivityMap sudsActivities in
  match topLevelActivities sudsActivities with
  | Normal roots =>
      fmap (M:=Completion) displayedOrder <$>
        forEachThrowing (λ act, addActivityAndDependents activityMap fuel act false)
          roots initialState
  | TypeError => Some TypeError
  end.

(** [getDisplayActivities]: the bound is one more than the number of records
    handed in, which the walk never exhausts
    ([getDisplayActivitiesFuel_result] below); the [default] branch is
    therefore never taken. *)
Definition getDisplayActivities (sudsId : string)
    (allMaintenanceActivities : list MaintenanceActivity) : Completion (list DisplayActivity) :=
  default (Normal [])
    (getDisplayActivitiesFuel (S (length allMaintenanceActivities)) sudsId
       allMaintenanceActivities).

End Resolver.

(** ** JavaScript arrays with holes

    The reorder handlers copy an array and exchange two of its entries with a
    destructuring assignment.  An entry read outside the array is [undefined],
    so the copy is modelled as a list of optional elements ([None] is
    [undefined]). *)

(** [arr[i]] *)
Definition jsGet {A} (arr : list (option A)) (i : Z) : option A :=
  if decide (0 ≤ i) then mjoin (arr !! Z.to_nat i) else None.

(** [arr[i] = v].  A negative [i] names an ordinary property and leaves the
    elements and the length alone; an [i] past the end extends the array with
    holes. *)
Definition jsSet {A} (arr : list (option A)) (i : Z) (v : option A) : list (option A) :=
  if decide (i < 0) then arr
  else if decide (i < Z.of_nat (length arr)) then <[Z.to_nat i := v]> arr
  else arr ++ replicate (Z.to_nat i - length arr) None ++ [v].

(** [[arr[p], arr[q]] = [arr[q], arr[p]]]: the right-hand side is read first,
    then [arr[p]] and [arr[q]] are assigned in that order. *)
Definition swapEntries {A} (arr : list (option A)) (p q : Z) : list (option A) :=
  let first := jsGet arr q in
  let second := jsGet arr p in
  jsSet (jsSet arr p first) q second.

(** ** Installation types and their reorder handler *)

Module SudsType.
Record t := mk {
  id : string;
  name : string;
  order : option Z
}.
End SudsType.

#[global] Instance SudsType_eq_dec : EqDecision SudsType.t.
Proof. solve_decision. Defined.

(** [currentSudsTypes.findIndex(s => s.id === sudsId)] *)
Fixpoint findIndexFrom (l : list SudsType.t) (sudsId : string) (i : Z) : Z :=
  match l with
  | [] => -1
  | s :: l' => if decide (SudsType.id s = sudsId) then i else findIndexFrom l' sudsId (i + 1)
  end.

Definition findIndex (l : list SudsType.t) (sudsId : string) : Z := findIndexFrom l sudsId 0.

(** What a handler has decided when it reaches its write: it returned before
    ([NoWrite]), it threw before ([Throws]), or it hands a request to the
    persistence layer ([Issue]). *)
Inductive Planned (W : Type) : Type :=
| NoWrite
| Throws
| Issue (request : W).
Arguments NoWrite {W}.
Arguments Throws {W}.
Arguments Issue {W} request.

(** One [batch.update(doc(db, ".../sudsTypes", suds.id), { order: index })]. *)
Record OrderUpdate := mkOrderUpdate {
  updatedSudsId : string;
  newOrder : Z
}.

#[global] Instance OrderUpdate_eq_dec : EqDecision OrderUpdate.
Proof. solve_decision. Defined.

(** [newSudsTypesOrder] of [handleMoveSudsType] after the swap; [None] when
    the handler returns before the batch is created. *)
Definition newSudsTypesOrder (sudsId direction : string) (currentSudsTypes : list SudsType.t)
  : option (list (option SudsType.t)) :=
  let currentIndex := findIndex currentSudsTypes sudsId in
  if decide (currentIndex = -1) then None
  else
    let newSudsTypesOrder := Some <$> currentSudsTypes in
    if decide (direction = "up"%string ∧ currentIndex > 0) then
      Some (swapEntries newSudsTypesOrder (currentIndex - 1) currentIndex)
    else if decide (direction = "down"%string ∧
                    currentIndex < Z.of_nat (length newSudsTypesOrder) - 1) then
      Some (swapEntries newSudsTypesOrder (currentIndex + 1) currentIndex)
    else None.

(** The [forEach] that fills the batch: an update for every element whose
    [order] differs from its index or is missing.  Reading [order] off an
    [undefined] element throws. *)
Fixpoint orderUpdatesFrom (index : Z) (arr : list (option SudsType.t))
  : option (list OrderUpdate) :=
  match arr with
  | [] => Some []
  | None :: _ => None
  | Some suds :: rest =>
      match orderUpdatesFrom (index + 1) rest with
      | None => None
      | Some updates =>
          if decide (SudsType.order suds ≠ Some index ∨ SudsType.order suds = None)
          then Some (mkOrderUpdate (SudsType.id suds) index :: updates)
          else Some updates
      end
  end.

(** [handleMoveSudsType] up to the point where the batch is committed. *)
Definition moveSudsTypeBatch (sudsId direction : string) (currentSudsTypes : list SudsType.t)
  : Planned (list OrderUpdate) :=
  match newSudsTypesOrder sudsId direction currentSudsTypes with
  | None => NoWrite
  | Some arr =>
      match orderUpdatesFrom 0 arr with
      | None => Throws
      | Some batch => Issue batch
      end
  end.

(** ** Categories, activity columns and their reorder handlers *)

(** [handleMoveCategory] up to its [setDoc]: the array written to the
    [maintenanceCategories] document. *)
Definition moveCategoryWrite (categories : list string) (categoryToMove direction : string)
  : Planned (list (option string)) :=
  let currentIndex := indexOf categories categoryToMove in
  let newCategories := Some <$> categories in
  if decide (direction = "up"%string ∧ currentIndex > 0) then
    Issue (swapEntries newCategories (currentIndex - 1) currentIndex)
  else if decide (direction = "down"%string ∧
                  currentIndex < Z.of_nat (length newCategories) - 1) then
    Issue (swapEntries newCategories (currentIndex + 1) currentIndex)
  else NoWrite.

(** [handleMoveActivityColumn] up to its [setDoc]: the object written to the
    [definedActivityNames] document.  [indexOf] is called on
    [currentDefinedActivityNames[category] || []] and throws on an inherited
    member. *)
Definition moveActivityColumnWrite (category activityName direction : string)
    (currentDefinedActivityNames : gmap string (list string))
  : Planned (gmap string (list (option string))) :=
  match namesFor currentDefinedActivityNames category with
  | None => Throws
  | Some currentCategoryActivities =>
      let currentIndex := indexOf currentCategoryActivities activityName in
      let newActivities := Some <$> currentCategoryActivities in
      let updatedDefinedActivities (swapped : list (option string)) :=
        <[category := swapped]>
          ((λ names : list string, Some <$> names) <$> currentDefinedActivityNames) in
      if decide (direction = "left"%string ∧ currentIndex > 0) then
        Issue (updatedDefinedActivities
                 (swapEntries newActivities (currentIndex - 1) currentIndex))
      else if decide (direction = "right"%string ∧
                      currentIndex < Z.of_nat (length newActivities) - 1) then
        Issue (updatedDefinedActivities
                 (swapEntries newActivities (currentIndex + 1) currentIndex))
      else NoWrite
  end.

(** ** Saving dependencies *)

(** [currentActivityForDependencies]: the cell whose dependencies are being
    edited; [id] is [undefined] when no record exists for the cell yet. *)
Module DependencyTarget.
Record t := mk {
  sudsId : string;
  activityName : string;
  category : string;
  id : option string
}.
End DependencyTarget.

(** The writes [handleSaveDependencies] puts in its batch.  [lastUpdatedBy],
    [timestamp] and the empty contract and validation fields of the source are
    left out. *)
Inductive ActivityWrite :=
(** [batch.update(primaryActivityRef, { dependentActivities: selectedDependencies, ... })] *)
| UpdateDependentActivities (docId : string) (dependents : list string)
(** [batch.update(depRef, { applies: true, ... })] *)
| UpdateApplies (docId : string)
(** [batch.set(doc(collection(db, ".../maintenanceActivities")), { ..., applies: true, ... })]:
    the document id is generated by the store. *)
| CreateActivity (newSudsTypeId newCategory newActivityName : string) (dependents : list string).

#[global] Instance ActivityWrite_eq_dec : EqDecision ActivityWrite.
Proof. solve_decision. Defined.

(** [String.prototype.split] with a one-character separator. *)
Fixpoint split (separator : ascii) (s : string) : list string :=
  match s with
  | EmptyString => [EmptyString]
  | String c s' =>
      if decide (c = separator) then EmptyString :: split separator s'
      else
        match split separator s' with
        | part :: parts => String c part :: parts
        | [] => [String c EmptyString]
        end
  end.

(** [maintenanceActivities.find(act => act.id === depId)] *)
Definition findActivity (maintenanceActivities : list MaintenanceActivity) (depId : string)
  : option MaintenanceActivity :=
  head (filter (λ act, id act = depId) maintenanceActivities).

(** The body of the [for (const depId of selectedDependencies)] loop. *)
Definition dependentWrites (maintenanceActivities : list MaintenanceActivity) (depId : string)
  : list ActivityWrite :=
  match findActivity maintenanceActivities depId with
  | Some dependentActivity =>
      if applies dependentActivity then [] else [UpdateApplies depId]
  | None =>
      match split "-"%char depId with
      | [depSudsId; depCategory; depActivityName] =>
          [CreateActivity depSudsId depCategory depActivityName []]
      | _ => []
      end
  end.

(** [id ? doc(db, ".../maintenanceActivities", id) : null]: the id when it is
    truthy, that is, neither [undefined] nor the empty string. *)
Definition primaryActivityRef (target : DependencyTarget.t) : option string :=
  match DependencyTarget.id target with
  | Some primaryId => if decide (primaryId = ""%string) then None else Some primaryId
  | None => None
  end.

(** The batch of [handleSaveDependencies]. *)
Definition saveDependenciesBatch (target : DependencyTarget.t)
    (selectedDependencies : list string) (maintenanceActivities : list MaintenanceActivity)
  : list ActivityWrite :=
  let primary :=
    match primaryActivityRef target with
    | Some primaryId => UpdateDependentActivities primaryId selectedDependencies
    | None =>
        CreateActivity (DependencyTarget.sudsId target) (DependencyTarget.category target)
          (DependencyTarget.activityName target) selectedDependencies
    end in
  primary :: flat_map (dependentWrites maintenanceActivities) selectedDependencies.

(** ** Handlers against a persistence layer *)

(** What a handler hands to the persistence layer in one call. *)
Inductive WriteRequest :=
| SudsTypeBatch (updates : list OrderUpdate)
| SetCategories (newCategories : list (option string))
| SetDefinedActivityNames (updatedDefinedActivities : gmap string (list (option string)))
| ActivityBatch (writes : list ActivityWrite).

(** The settled promise of a write, with the stored documents afterwards. *)
Inductive Reply (Store : Type) :=
| Acknowledged (store : Store)
| Rejected (message : string) (store : Store).
Arguments Acknowledged {Store} store.
Arguments Rejected {Store} message store.

(** The component state the handlers read. *)
Record Memory := mkMemory {
  sudsTypesState : list SudsType.t;
  categoriesState : list string;
  definedActivityNamesState : gmap string (list string);
  maintenanceActivitiesState : list MaintenanceActivity;
  currentActivityForDependencies : option DependencyTarget.t;
  selectedDependencies : list string;
  showDependenciesModal : bool
}.

(** Everything a handler can observe or change: the stored documents, the
    component state and the messages handed to [showCustomModal] so far. *)
Record World (Store : Type) := mkWorld {
  persisted : Store;
  memory : Memory;
  modalMessages : list string
}.
Arguments mkWorld {Store} persisted memory modalMessages.
Arguments persisted {Store} w.
Arguments memory {Store} w.
Arguments modalMessages {Store} w.


(** The role names of the second version of the application. *)
Definition ROLES_MASTER : string := "Master".
Definition ROLES_SUDS_SPECIALIST : string := "Especialista en SUDS".
Definition ROLES_CONTRACT_MANAGER : string := "Responsable de contrato".
Definition ROLES_READER : string := "Lector".

(** What an asynchronous handler does once its arguments are read, in the
    order in which it does it: calls of state setters and of
    [showCustomModal], an exception that escapes the handler, and an awaited
    write together with what follows its acknowledgment and what follows its
    rejection (the [catch] block, which is handed [error.message]). *)
Inductive Script :=
| Return
| Throw
| SetState (update : Memory → Memory) (next : Script)
| ShowCustomModal (message : string) (next : Script)
| Await (request : WriteRequest) (onAcknowledged : Script) (onRejected : string → Script).

(** [canEdit] of the definition tab in the second version. *)
Definition canEdit (userRole : string) : bool :=
  bool_decide (userRole = ROLES_MASTER) || bool_decide (userRole = ROLES_SUDS_SPECIALIST).

(** [handleMoveSudsType], first version.  An exception raised while the batch
    is filled escapes the handler before anything is written. *)
Definition handleMoveSudsTypeScript (sudsId direction : string)
    (currentSudsTypes : list SudsType.t) : Script :=
  match moveSudsTypeBatch sudsId direction currentSudsTypes with
  | NoWrite => Return
  | Throws => Throw
  | Issue batch =>
      Await (SudsTypeBatch batch) Return
        (λ message, ShowCustomModal ("Error al mover el tipo de SUDS: " +:+ message) Return)
  end.



(** The three state setters called after a successful dependency save. *)
Definition closeDependenciesModal (m : Memory) : Memory :=
  mkMemory (sudsTypesState m) (categoriesState m) (definedActivityNamesState m)
    (maintenanceActivitiesState m) None [] false.

(** [handleSaveDependencies], first version; it reads
    [currentActivityForDependencies], [selectedDependencies] and
    [maintenanceActivities] from the component state [m]. *)
Definition handleSaveDependenciesScript (m : Memory) : Script :=
  match currentActivityForDependencies m with
  | None => Return
  | Some target =>
      Await
        (ActivityBatch
           (saveDependenciesBatch target (selectedDependencies m)
              (maintenanceActivitiesState m)))
        (ShowCustomModal "Dependencias de actividad guardadas con éxito."
           (SetState closeDependenciesModal Return))
        (λ message, ShowCustomModal ("Error al guardar las dependencias: " +:+ message) Return)
  end.

Section Handlers.

(** The persistence layer is not part of the application source: it is a
    parameter.  [commit request store] is the settled promise of
    [batch.commit()] or [setDoc(...)]. *)
Variable Store : Type.
Variable commit : WriteRequest → Store → Reply Store.

Definition showCustomModal (message : string) (w : World Store) : World Store :=
  mkWorld (persisted w) (memory w) (modalMessages w ++ [message]).

(** The world after a script has run to its end. *)
Fixpoint run (script : Script) (w : World Store) : World Store :=
  match script with
  | Return => w
  | Throw => w
  | SetState update next =>
      run next (mkWorld (persisted w) (update (memory w)) (modalMessages w))
  | ShowCustomModal message next => run next (showCustomModal message w)
  | Await request onAcknowledged onRejected =>
      match commit request (persisted w) with
      | Acknowledged store => run onAcknowledged (mkWorld store (memory w) (modalMessages w))
      | Rejected message store =>
          run (onRejected message) (mkWorld store (memory w) (modalMessages w))
      end
  end.

Definition handleMoveSudsType (sudsId direction : string) (currentSudsTypes : list SudsType.t)
    (w : World Store) : World Store :=
  run (handleMoveSudsTypeScript sudsId direction currentSudsTypes) w.



Definition handleSaveDependencies (w : World Store) : World Store :=
  run (handleSaveDependenciesScript (memory w)) w.

(** The second version of the application puts a role check in front of each
    handler and is otherwise the same. *)
Definition handleMoveSudsTypeGated (userRole : string) (sudsId direction : string)
    (currentSudsTypes : list SudsType.t) (w : World Store) : World Store :=
  if decide (userRole = ROLES_READER) then w
  else handleMoveSudsType sudsId direction currentSudsTypes w.



Definition handleSaveDependenciesGated (userRole : string) (w : World Store) : World Store :=
  if canEdit userRole then handleSaveDependencies w else w.

End Handlers.

(** ** A simulated persistence layer

    A small document store to run the handlers against: a batch is applied as
    a whole or not at all, an update of a document that does not exist fails
    its batch, and a value holding [undefined] is refused.  [newDocId] stands
    for the store's generator of document ids. *)

Record Documents := mkDocuments {
  sudsTypesDocs : gmap string SudsType.t;
  maintenanceCategoriesDoc : list string;
  definedActivityNamesDoc : gmap string (list string);
  maintenanceActivitiesDocs : gmap string MaintenanceActivity
}.

Definition applyOrderUpdate (docs : gmap string SudsType.t) (u : OrderUpdate)
  : option (gmap string SudsType.t) :=
  match docs !! updatedSudsId u with
  | Some suds =>
      Some (<[updatedSudsId u :=
                SudsType.mk (SudsType.id suds) (SudsType.name suds) (Some (newOrder u))]> docs)
  | None => None
  end.

Definition applyActivityWrite (newDocId : gmap string MaintenanceActivity → string)
    (docs : gmap string MaintenanceActivity) (write : ActivityWrite)
  : option (gmap string MaintenanceActivity) :=
  match write with
  | UpdateDependentActivities docId dependents =>
      match docs !! docId with
      | Some act =>
          Some (<[docId := mkActivity (id act) (sudsTypeId act) (category act)
                             (activityName act) (applies act) (Some dependents)]> docs)
      | None => None
      end
  | UpdateApplies docId =>
      match docs !! docId with
      | Some act =>
          Some (<[docId := mkActivity (id act) (sudsTypeId act) (category act)
                             (activityName act) true (dependentActivities act)]> docs)
      | None => None
      end
  | CreateActivity newSudsTypeId newCategory newActivityName dependents =>
      Some (<[newDocId docs :=
                mkActivity (newDocId docs) newSudsTypeId newCategory newActivityName true
                  (Some dependents)]> docs)
  end.

(** All writes of a batch in order, or nothing. *)
Fixpoint applyAll {D W} (apply : D → W → option D) (docs : D) (writes : list W) : option D :=
  match writes with
  | [] => Some docs
  | write :: rest =>
      match apply docs write with
      | Some docs' => applyAll apply docs' rest
      | None => None
      end
  end.

(** An array without holes, or nothing. *)
Definition withoutHoles {A} (arr : list (option A)) : option (list A) := mapM (λ x, x) arr.

Definition simulatedCommit (newDocId : gmap string MaintenanceActivity → string)
    (request : WriteRequest) (docs : Documents) : Reply Documents :=
  match request with
  | SudsTypeBatch updates =>
      match applyAll applyOrderUpdate (sudsTypesDocs docs) updates with
      | Some sudsTypes' =>
          Acknowledged
            (mkDocuments sudsTypes' (maintenanceCategoriesDoc docs)
               (definedActivityNamesDoc docs) (maintenanceActivitiesDocs docs))
      | None => Rejected "No document to update" docs
      end
  | SetCategories newCategories =>
      match withoutHoles newCategories with
      | Some categories' =>
          Acknowledged
            (mkDocuments (sudsTypesDocs docs) categories'
               (definedActivityNamesDoc docs) (maintenanceActivitiesDocs docs))
      | None => Rejected "Unsupported field value: undefined" docs
      end
  | SetDefinedActivityNames updatedDefinedActivities =>
      if decide (map_Forall (λ _ names, None ∉ names) updatedDefinedActivities) then
        Acknowledged
          (mkDocuments (sudsTypesDocs docs) (maintenanceCategoriesDoc docs)
             ((λ names, default [] (withoutHoles names)) <$> updatedDefinedActivities)
             (maintenanceActivitiesDocs docs))
      else Rejected "Unsupported field value: undefined" docs
  | ActivityBatch writes =>
      match applyAll (applyActivityWrite newDocId) (maintenanceActivitiesDocs docs) writes with
      | Some activities' =>
          Acknowledged
            (mkDocuments (sudsTypesDocs docs) (maintenanceCategoriesDoc docs)
               (definedActivityNamesDoc docs) activities')
      | None => Rejected "No document to update" docs
      end
  end.

(** ** The catalogue of cells and the dependency dialogue *)

(** An element of [allActivitiesFlat]. *)
Module FlatActivity.
Record t := mk {
  id : string;
  sudsId : string;
  sudsName : string;
  category : string;
  activityName : string
}.
End FlatActivity.

(** The template literal that names a cell: the installation type's id, the
    category and the activity name, joined by hyphens. *)
Definition catalogueId (sudsId category activityName : string) : string :=
  sudsId +:+ "-" +:+ category +:+ "-" +:+ activityName.

(** [forEach] with a callback that pushes elements and may throw; what was
    pushed before an exception is lost with the call. *)
Fixpoint forEachPush {A B} (f : A → Completion (list B)) (l : list A) : Completion (list B) :=
  match l with
  | [] => Normal []
  | x :: l' =>
      pushed ← f x;
      rest ← forEachPush f l';
      Normal (pushed ++ rest)
  end.

(** [generateAllActivitiesFlat]: three nested [forEach] loops that push one
    element per installation type, category of [categories] and activity name
    defined for that category.  The innermost [forEach] is called on
    [definedActivityNames[category] || []]. *)
Definition generateAllActivitiesFlat (sudsTypes : list SudsType.t) (categories : list string)
    (definedActivityNames : gmap string (list string)) : Completion (list FlatActivity.t) :=
  forEachPush (λ suds,
    forEachPush (λ category,
      match namesFor definedActivityNames category with
      | Some names =>
          Normal ((λ activityName,
                     FlatActivity.mk (catalogueId (SudsType.id suds) category activityName)
                       (SudsType.id suds) (SudsType.name suds) category activityName)
                  <$> names)
      | None => TypeError
      end) categories) sudsTypes.

(** The updater that [handleToggleDependency] hands to
    [setSelectedDependencies] (the location-type toggles of the other tabs use
    the same expression). *)
Definition toggleDependency (dependentActivityId : string) (prev : list string) : list string :=
  if decide (dependentActivityId ∈ prev)
  then filter (λ id', id' ≠ dependentActivityId) prev
  else prev ++ [dependentActivityId].

(** [maintenanceActivities.find] on the three fields that name a cell. *)
Definition findCell (maintenanceActivities : list MaintenanceActivity)
    (sudsId activityName' category' : string) : option MaintenanceActivity :=
  head (filter (λ act, sudsTypeId act = sudsId ∧ activityName act = activityName' ∧
                       category act = category') maintenanceActivities).

(** [handleOpenDependenciesModal], first version. *)
Definition handleOpenDependenciesModal (sudsId activityName' category' : string) (m : Memory)
  : Memory :=
  let activity := findCell (maintenanceActivitiesState m) sudsId activityName' category' in
  mkMemory (sudsTypesState m) (categoriesState m) (definedActivityNamesState m)
    (maintenanceActivitiesState m)
    (Some (DependencyTarget.mk sudsId activityName' category' (id <$> activity)))
    (default [] (activity ≫= dependentActivities))
    true.

(** [handleToggleDependency], first version. *)
Definition handleToggleDependency (dependentActivityId : string) (m : Memory) : Memory :=
  mkMemory (sudsTypesState m) (categoriesState m) (definedActivityNamesState m)
    (maintenanceActivitiesState m) (currentActivityForDependencies m)
    (toggleDependency dependentActivityId (selectedDependencies m))
    (showDependenciesModal m).

(** The second version returns from both handlers at once when [canEdit] is
    false. *)
Definition handleOpenDependenciesModalGated (userRole : string)
    (sudsId activityName' category' : string) (m : Memory) : Memory :=
  if canEdit userRole then handleOpenDependenciesModal sudsId activityName' category' m
  else m.

Definition handleToggleDependencyGated (userRole : string) (dependentActivityId : string)
    (m : Memory) : Memory :=
  if canEdit userRole then handleToggleDependency dependentActivityId m else m.

(** ** The installation-type listener *)

(** The [map] of the snapshot callback: a type without [order] gets its
    position in the fetched sequence. *)
Fixpoint assignOrdersFrom (index : Z) (fetchedSudsTypes : list SudsType.t) : list SudsType.t :=
  match fetchedSudsTypes with
  | [] => []
  | suds :: rest =>
      (match SudsType.order suds with
       | None => SudsType.mk (SudsType.id suds) (SudsType.name suds) (Some index)
       | Some _ => suds
       end) :: assignOrdersFrom (index + 1) rest
  end.

(** [(a, b) => (a.order || 0) - (b.order || 0)] *)
Definition compareOrder (a b : SudsType.t) : Z :=
  default 0 (SudsType.order a) - default 0 (SudsType.order b).

(** The value the snapshot callback hands to [setSudsTypes]. *)
Definition sudsTypesFromSnapshot (fetchedSudsTypes : list SudsType.t) : list SudsType.t :=
  jsSort compareOrder (assignOrdersFrom 0 fetchedSudsTypes).

(** The number of hyphens in a string. *)
Fixpoint hyphens (s : string) : nat :=
  match s with
  | EmptyString => 0%nat
  | String c s' => ((if decide (c = "-"%char) then 1 else 0) + hyphens s')%nat
  end.

(** * Vocabulary of the properties *)

(** ** The resolver where every comparison answers

    What the resolver computes when no comparison throws: the lookup
    [definedNames] answers the own array or the empty one, the comparator
    [compareActivitiesValue] answers a number for every pair, and the walk
    only runs out of fuel or returns.  The lemmas of the third part relate it
    to the functions of the source. *)

(** [forEach] with a callback that threads a state and may fail to return. *)
Fixpoint forEachM {A S} (f : A → S → option S) (l : list A) (s : S) : option S :=
  match l with
  | [] => Some s
  | x :: l' =>
      match f x s with
      | Some s' => forEachM f l' s'
      | None => None
      end
  end.

Section ResolverValue.

Variable categories : list string.
Variable definedActivityNames : gmap string (list string).

(** The names defined for a category: the array under its own key, or none. *)
Definition definedNames (c : string) : list string :=
  default [] (definedActivityNames !! c).

Definition compareActivitiesValue (a b : MaintenanceActivity) : Z :=
  let categoryAIndex := indexOf categories (category a) in
  let categoryBIndex := indexOf categories (category b) in
  if decide (categoryAIndex ≠ categoryBIndex) then categoryAIndex - categoryBIndex
  else
    let activityIndexA := indexOf (definedNames (category a)) (activityName a) in
    let activityIndexB := indexOf (definedNames (category b)) (activityName b) in
    activityIndexA - activityIndexB.

Section WalkValue.

Variable activityMap : gmap string MaintenanceActivity.

Definition sortedDependentsValue (act : MaintenanceActivity) : list MaintenanceActivity :=
  jsSort compareActivitiesValue
    (omap (λ depId, activityMap !! depId) (default [] (dependentActivities act))).

Fixpoint addActivityAndDependentsValue (fuel : nat) (act : MaintenanceActivity) (dep : bool)
    (st : ResolverState) : option ResolverState :=
  match fuel with
  | O => None
  | S fuel' =>
      if decide (id act ∈ processedActivityIds st) then Some st
      else
        forEachM (λ depAct, addActivityAndDependentsValue fuel' depAct true)
          (sortedDependentsValue act) (pushActivity act dep st)
  end.

End WalkValue.

Definition topLevelActivitiesValue (sudsActivities : list MaintenanceActivity)
  : list MaintenanceActivity :=
  jsSort compareActivitiesValue
    (filter (λ act, id act ∉ allDependentIds sudsActivities) sudsActivities).

Definition getDisplayActivitiesFuelValue (fuel : nat) (sudsId : string)
    (allMaintenanceActivities : list MaintenanceActivity) : option (list DisplayActivity) :=
  let sudsActivities := sudsActivitiesOf sudsId allMaintenanceActivities in
  let activityMap := buildActivityMap sudsActivities in
  displayedOrder <$>
    forEachM (λ act, addActivityAndDependentsValue activityMap fuel act false)
      (topLevelActivitiesValue sudsActivities) initialState.

Definition getDisplayActivitiesValue (sudsId : string)
    (allMaintenanceActivities : list MaintenanceActivity) : list DisplayActivity :=
  default []
    (getDisplayActivitiesFuelValue (S (length allMaintenanceActivities)) sudsId
       allMaintenanceActivities).

End ResolverValue.

(** The catalogue where every lookup answers an array. *)
Definition generateAllActivitiesFlatValue (sudsTypes : list SudsType.t) (categories : list string)
    (definedActivityNames : gmap string (list string)) : list FlatActivity.t :=
  sudsTypes ≫= λ suds,
    categories ≫= λ category,
      (λ activityName,
         FlatActivity.mk (catalogueId (SudsType.id suds) category activityName)
           (SudsType.id suds) (SudsType.name suds) category activityName)
      <$> default [] (definedActivityNames !! category).

(** How a run of a function of the source and a run of its counterpart with
    the same fuel correspond: they run out of fuel together, and what the
    first returns the second computes. *)
Definition Corresponds (outcome : option (Completion ResolverState))
    (value : option ResolverState) : Prop :=
  match outcome with
  | None => value = None
  | Some (Normal st) => value = Some st
  | Some TypeError => True
  end.

(** ** The walk as a relation

    [Visit a dep P delta]: a call of [addActivityAndDependents] on [a], with
    flag [dep], entered while [processedActivityIds] is [P], appends [delta] to
    [displayedOrder].  [VisitAll] is the same for a [forEach] over a list. *)

Definition displayId (e : DisplayActivity) : string := id (activity e).

Definition idsOf (delta : list DisplayActivity) : gset string :=
  list_to_set (displayId <$> delta).

Section WalkRelation.

Variable categories : list string.
Variable definedActivityNames : gmap string (list string).
Variable activityMap : gmap string MaintenanceActivity.

Local Abbreviation deps := (sortedDependentsValue categories definedActivityNames activityMap).

Inductive Visit : MaintenanceActivity → bool → gset string → list DisplayActivity → Prop :=
| visit_skip a dep P :
    id a ∈ P → Visit a dep P []
| visit_push a dep P delta :
    id a ∉ P →
    VisitAll true (deps a) ({[id a]} ∪ P) delta →
    Visit a dep P (mkDisplay a dep :: delta)
with VisitAll : bool → list MaintenanceActivity → gset string → list DisplayActivity → Prop :=
| visit_nil dep P : VisitAll dep [] P []
| visit_cons dep x xs P d1 d2 :
    Visit x dep P d1 →
    VisitAll dep xs (P ∪ idsOf d1) d2 →
    VisitAll dep (x :: xs) P (d1 ++ d2).

Scheme Visit_mut := Induction for Visit Sort Prop
with VisitAll_mut := Induction for VisitAll Sort Prop.
Combined Scheme Visit_VisitAll_ind from Visit_mut, VisitAll_mut.

Definition extendState (st : ResolverState) (delta : list DisplayActivity) : ResolverState :=
  {| processedActivityIds := processedActivityIds st ∪ idsOf delta;
     displayedOrder := displayedOrder st ++ delta |}.

(** Where each appended entry comes from: it is the visited record itself
    (one of the listed records, for a [forEach]), or it carries the
    dependent flag and is a resolved dependent of another appended entry. *)
Definition claimedWithin (delta : list DisplayActivity) (e : DisplayActivity) : Prop :=
  isDependent e = true ∧ ∃ e', e' ∈ delta ∧ activity e ∈ deps (activity e').

(** The ids of [activityMap] that are not processed yet, counted. *)
Definition unprocessed (st : ResolverState) : nat :=
  size (dom activityMap ∖ processedActivityIds st).

End WalkRelation.

(** ** The comparator's sort key *)

Section SortKey.

Variable categories : list string.
Variable definedActivityNames : gmap string (list string).

(** The two numbers the comparator computes for one record. *)
Definition sortKey (a : MaintenanceActivity) : Z * Z :=
  (indexOf categories (category a),
   indexOf (definedNames definedActivityNames (category a)) (activityName a)).

Definition keyLe (k1 k2 : Z * Z) : Prop :=
  k1.1 < k2.1 ∨ (k1.1 = k2.1 ∧ k1.2 ≤ k2.2).

Definition keyLt (k1 k2 : Z * Z) : Prop :=
  k1.1 < k2.1 ∨ (k1.1 = k2.1 ∧ k1.2 < k2.2).

End SortKey.

(** ** Lookups that answer an array *)

(** The lookup of the category in [definedActivityNames] answers an array:
    the category is an own key, or it names no member of
    [Object.prototype]. *)
Definition LooksUpArray (definedActivityNames : gmap string (list string)) (c : string) : Prop :=
  is_Some (namesFor definedActivityNames c).

(** A record of the list whose category looks up an inherited member has the
    category index of another record of the list: the comparison of the two
    throws, and no sort can place them without it. *)
Definition ComparisonThrows (categories : list string)
    (definedActivityNames : gmap string (list string)) (l : list MaintenanceActivity) : Prop :=
  ∃ a, a ∈ l ∧ namesFor definedActivityNames (category a) = None ∧
       (2 ≤ length (filter (λ b, indexOf categories (category b)
                                 = indexOf categories (category a)) l))%nat.

(** The same for the category of every record of a list: no comparison of two
    of them throws. *)
Definition CategoriesLookUpArrays (definedActivityNames : gmap string (list string))
    (l : list MaintenanceActivity) : Prop :=
  ∀ r, r ∈ l → LooksUpArray definedActivityNames (category r).

(** ** Which records are displayed *)

(** The records the walk can reach: the top-level ones (listed by no record of
    [sudsActivities]) and, from a reachable record, the records of
    [sudsActivities] whose id it lists. *)
Inductive Reachable (sudsActivities : list MaintenanceActivity) : MaintenanceActivity → Prop :=
| reach_root r :
    r ∈ sudsActivities → id r ∉ allDependentIds sudsActivities → Reachable sudsActivities r
| reach_dependent r r' :
    Reachable sudsActivities r → r' ∈ sudsActivities →
    id r' ∈ default [] (dependentActivities r) → Reachable sudsActivities r'.

(** The number of entries of a result that display the record [r]. *)
Definition timesDisplayed (r : MaintenanceActivity) (out : list DisplayActivity) : nat :=
  length (filter (λ e, activity e = r) out).

(** Completeness as the specification words it: every applicable record of the
    installation type is displayed exactly once, and no record with
    [applies = false] is displayed. *)
Definition DisplaysEveryApplicableOnce (categories : list string)
    (definedActivityNames : gmap string (list string)) (sudsId : string)
    (allMaintenanceActivities : list MaintenanceActivity) : Prop :=
  ∃ shown,
    getDisplayActivities categories definedActivityNames sudsId allMaintenanceActivities
    = Normal shown ∧
    (∀ r, r ∈ allMaintenanceActivities → sudsTypeId r = sudsId → applies r = true →
          timesDisplayed r shown = 1%nat) ∧
    (∀ e, e ∈ shown → applies (activity e) = true).


(** [X] is displayed as a top-level entry and [Y] as a dependent right after
    it. *)
Definition DisplayedAdjacent (out : list DisplayActivity) (X Y : MaintenanceActivity) : Prop :=
  ∃ i : nat, out !! i = Some (mkDisplay X false) ∧ out !! S i = Some (mkDisplay Y true).

(** The placement the specification gives to records whose category is not
    listed: behind every record whose category is listed. *)
Definition UnlistedCategoriesSortLast (categories : list string)
    (definedActivityNames : gmap string (list string)) (l : list MaintenanceActivity) : Prop :=
  ∃ sorted,
    jsSortThrowing (compareActivities categories definedActivityNames) l = Normal sorted ∧
    ∀ (i j : nat) a b,
      sorted !! i = Some a → sorted !! j = Some b →
      category a ∉ categories → category b ∈ categories → (j < i)%nat.




(** The condition the specification puts on the stored records: every id in
    the [dependentActivities] of the record stored under [savedId] is the id of
    a stored record with [applies = true]. *)
Definition DependentsAllApply (docs : gmap string MaintenanceActivity) (savedId : string) : Prop :=
  ∀ saved dependents depId,
    docs !! savedId = Some saved → dependentActivities saved = Some dependents →
    depId ∈ dependents →
    ∃ act, docs !! depId = Some act ∧ applies act = true.

(** The updates that [orderUpdatesFrom] collects when no element is
    [undefined]: one for every element whose [order] is not its index. *)
Fixpoint misplaced (index : Z) (l : list SudsType.t) : list OrderUpdate :=
  match l with
  | [] => []
  | suds :: rest =>
      (if decide (SudsType.order suds ≠ Some index ∨ SudsType.order suds = None)
       then [mkOrderUpdate (SudsType.id suds) index] else [])
      ++ misplaced (index + 1) rest
  end.

(** ** Sample data

    The categories and definition order of the specification's examples, and a
    few records of installation type [s1]. *)

Definition sampleCategories : list string := ["Cleaning"; "Vegetation"]%string.

Definition sampleDefinedActivityNames : gmap string (list string) :=
  <["Cleaning" := ["Sweep"; "Inspect"]%string]> (<["Vegetation" := ["Prune"]%string]> ∅).

Definition sweepAlone : MaintenanceActivity :=
  mkActivity "sweep" "s1" "Cleaning" "Sweep" true None.
Definition inspectAlone : MaintenanceActivity :=
  mkActivity "inspect" "s1" "Cleaning" "Inspect" true None.
Definition pruneAlone : MaintenanceActivity :=
  mkActivity "prune" "s1" "Vegetation" "Prune" true None.

(** Sweep lists Inspect as its only dependent. *)
Definition sweepWithInspect : MaintenanceActivity :=
  mkActivity "sweep" "s1" "Cleaning" "Sweep" true (Some ["inspect"]%string).


(** The same Sweep record after it was switched to [applies = false]. *)
Definition sweepSwitchedOff : MaintenanceActivity :=
  mkActivity "sweep" "s1" "Cleaning" "Sweep" false (Some ["inspect"]%string).

(** Two records that list each other. *)
Definition sweepInCycle : MaintenanceActivity :=
  mkActivity "sweep" "s1" "Cleaning" "Sweep" true (Some ["inspect"]%string).
Definition inspectInCycle : MaintenanceActivity :=
  mkActivity "inspect" "s1" "Cleaning" "Inspect" true (Some ["sweep"]%string).

(** A top-level record above the two records that list each other. *)
Definition pruneAboveCycle : MaintenanceActivity :=
  mkActivity "prune" "s1" "Vegetation" "Prune" true (Some ["sweep"]%string).

(** A record whose category is not in [sampleCategories]. *)
Definition unlistedCategory : MaintenanceActivity :=
  mkActivity "misc" "s1" "Misc" "Sweep" true None.

(** A record of a listed category whose name is not in the definition order. *)
Definition unlistedName : MaintenanceActivity :=
  mkActivity "rake" "s1" "Cleaning" "Rake" true None.

(** Two records whose category names a member of [Object.prototype]; the
    sample definitions have no such key. *)
Definition constructorSweep : MaintenanceActivity :=
  mkActivity "c1" "s1" "constructor" "Sweep" true None.
Definition constructorInspect : MaintenanceActivity :=
  mkActivity "c2" "s1" "constructor" "Inspect" true None.



(** ** Sample installation types and stored documents *)

Definition typeA : SudsType.t := SudsType.mk "a" "A" (Some 0).
Definition typeB : SudsType.t := SudsType.mk "b" "B" (Some 1).
Definition typeC : SudsType.t := SudsType.mk "c" "C" (Some 2).


Definition sampleDocuments : Documents :=
  mkDocuments (<["a"%string := typeA]> (<["b"%string := typeB]> (<["c"%string := typeC]> ∅)))
    sampleCategories sampleDefinedActivityNames ∅.

Definition sampleMemory : Memory :=
  mkMemory [typeA; typeB; typeC] sampleCategories sampleDefinedActivityNames [] None [] false.

Definition sampleWorld : World Documents := mkWorld sampleDocuments sampleMemory [].


Definition sampleNewDocId (docs : gmap string MaintenanceActivity) : string := "generated".

(** The dependency dialogue open on the stored Sweep record, with one box
    ticked: the cell of installation type [s1], category [Pre-treatment],
    activity [Rake], for which no record exists.  Its catalogue id has four
    parts once split at the hyphens. *)
Definition danglingWorld : World Documents :=
  mkWorld
    (mkDocuments ∅ sampleCategories sampleDefinedActivityNames
       (<["sweep"%string := sweepAlone]> ∅))
    (mkMemory [] sampleCategories sampleDefinedActivityNames [sweepAlone]
       (Some (DependencyTarget.mk "s1" "Sweep" "Cleaning" (Some "sweep"%string)))
       ["s1-Pre-treatment-Rake"%string] true)
    [].

(** An Inspect record that is switched off. *)
Definition inspectSwitchedOff : MaintenanceActivity :=
  mkActivity "inspect" "s1" "Cleaning" "Inspect" false None.


(** A record of another installation type that lists Inspect. *)
Definition foreignSweep : MaintenanceActivity :=
  mkActivity "other" "s2" "Cleaning" "Sweep" true (Some ["inspect"]%string).

(** The object written when Sweep is moved right in the sample definitions. *)
Definition sweepMovedRight : gmap string (list (option string)) :=
  <["Cleaning"%string := [Some "Inspect"%string; Some "Sweep"%string]]>
    (<["Vegetation"%string := [Some "Prune"%string]]> ∅).

(** The dialogue after a run of ticks and unticks, oldest first. *)
Definition toggleAll (dependentActivityIds : list string) (m : Memory) : Memory :=
  foldl (λ m' dependentActivityId, handleToggleDependency dependentActivityId m')
    m dependentActivityIds.

(** The same with the handler of the second version. *)
Definition toggleAllGated (userRole : string) (dependentActivityIds : list string)
    (m : Memory) : Memory :=
  foldl (λ m' dependentActivityId,
           handleToggleDependencyGated userRole dependentActivityId m')
    m dependentActivityIds.

(** In the component state [after] the dependency dialogue is open on the cell
    ([sudsId], [activityName'], [category']); the records in memory are those
    of [m]; and the edited cell carries the id of a record of [m] with the
    cell's three fields, or no id when [m] holds no such record. *)
Definition DialogueOpenOn (sudsId activityName' category' : string) (m after : Memory)
  : Prop :=
  ∃ target,
    currentActivityForDependencies after = Some target ∧
    DependencyTarget.sudsId target = sudsId ∧
    DependencyTarget.activityName target = activityName' ∧
    DependencyTarget.category target = category' ∧
    showDependenciesModal after = true ∧
    maintenanceActivitiesState after = maintenanceActivitiesState m ∧
    match DependencyTarget.id target with
    | Some primaryId =>
        ∃ act, act ∈ maintenanceActivitiesState m ∧ id act = primaryId ∧
               sudsTypeId act = sudsId ∧ activityName act = activityName' ∧
               category act = category'
    | None =>
        ∀ act, act ∈ maintenanceActivitiesState m →
               ¬ (sudsTypeId act = sudsId ∧ activityName act = activityName' ∧
                  category act = category')
    end.

(** * Lemmas and theorems

    The first sections are about the resolver where every comparison answers;
    the section on the resolver of the source carries them over to
    [getDisplayActivities] and the functions it is made of. *)

(** ** Soundness of the relation *)

Section WalkSoundness.

Variable categories : list string.
Variable definedActivityNames : gmap string (list string).
Variable activityMap : gmap string MaintenanceActivity.

Local Abbreviation deps := (sortedDependentsValue categories definedActivityNames activityMap).
Local Abbreviation add := (addActivityAndDependentsValue categories definedActivityNames activityMap).
Local Abbreviation visit := (Visit categories definedActivityNames activityMap).
Local Abbreviation visitAll := (VisitAll categories definedActivityNames activityMap).

Lemma idsOf_app d1 d2 : idsOf (d1 ++ d2) = idsOf d1 ∪ idsOf d2.
Proof. unfold idsOf. rewrite fmap_app. apply list_to_set_app_L. Qed.

Lemma idsOf_cons e d : idsOf (e :: d) = {[displayId e]} ∪ idsOf d.
Proof. reflexivity. Qed.

Lemma elem_of_idsOf i d : i ∈ idsOf d ↔ ∃ e, e ∈ d ∧ displayId e = i.
Proof.
  unfold idsOf. rewrite elem_of_list_to_set, list_elem_of_fmap. naive_solver.
Qed.

Lemma extendState_nil st : extendState st [] = st.
Proof.
  destruct st as [P o]. unfold extendState, idsOf. simpl.
  f_equal; [set_solver | apply app_nil_r].
Qed.

Lemma extendState_app st d1 d2 :
  extendState (extendState st d1) d2 = extendState st (d1 ++ d2).
Proof.
  unfold extendState. simpl. rewrite idsOf_app, app_assoc. f_equal. set_solver.
Qed.

Lemma pushActivity_extend a dep st delta :
  extendState (pushActivity a dep st) delta = extendState st (mkDisplay a dep :: delta).
Proof.
  unfold extendState, pushActivity. simpl. rewrite idsOf_cons, <- app_assoc. simpl.
  f_equal. unfold displayId. simpl. set_solver.
Qed.

(** A [forEach] whose callback is described by [Visit] is described by
    [VisitAll]. *)
Lemma forEachM_sound dep (f : MaintenanceActivity → ResolverState → option ResolverState) :
  (∀ a st st', f a st = Some st' →
     ∃ delta, visit a dep (processedActivityIds st) delta ∧ st' = extendState st delta) →
  ∀ l st st', forEachM f l st = Some st' →
    ∃ delta, visitAll dep l (processedActivityIds st) delta ∧ st' = extendState st delta.
Proof.
  intros Hf l. induction l as [|x xs IH]; intros st st' Hrun; simpl in Hrun.
  - inversion Hrun; subst. exists []. split; [constructor | by rewrite extendState_nil].
  - destruct (f x st) as [st1|] eqn:Hx; [|discriminate].
    destruct (Hf _ _ _ Hx) as (d1 & Hv1 & ->).
    destruct (IH _ _ Hrun) as (d2 & Hv2 & ->).
    exists (d1 ++ d2). split; [|apply extendState_app].
    econstructor; eauto.
Qed.

(** Every returning call of [addActivityAndDependents] is a [Visit]. *)
Lemma addActivityAndDependentsValue_sound fuel :
  ∀ a dep st st', add fuel a dep st = Some st' →
    ∃ delta, visit a dep (processedActivityIds st) delta ∧ st' = extendState st delta.
Proof.
  induction fuel as [|fuel IH]; intros a dep st st' Hrun; simpl in Hrun; [discriminate|].
  destruct (decide (id a ∈ processedActivityIds st)) as [Hin|Hnin].
  - inversion Hrun; subst. exists []. split; [by constructor | by rewrite extendState_nil].
  - apply (forEachM_sound true _ (λ a st st', IH a true st st')) in Hrun.
    destruct Hrun as (delta & Hv & ->).
    exists (mkDisplay a dep :: delta). split; [|apply pushActivity_extend].
    by constructor.
Qed.

End WalkSoundness.

(** ** Facts about [indexOf] and [jsSort] *)

Lemma indexOfFrom_absent l x i : x ∉ l → indexOfFrom l x i = -1.
Proof.
  revert i. induction l as [|y l IH]; intros i Hx; simpl; [done|].
  apply not_elem_of_cons in Hx as [Hne Hx].
  destruct (decide (y = x)); [congruence | by apply IH].
Qed.

Lemma indexOfFrom_present l x i : x ∈ l → i ≤ indexOfFrom l x i < i + Z.of_nat (length l).
Proof.
  revert i. induction l as [|y l IH]; intros i Hx; [by apply elem_of_nil in Hx|].
  simpl. destruct (decide (y = x)) as [->|Hne]; [lia|].
  apply elem_of_cons in Hx as [->|Hx]; [done|].
  specialize (IH (i + 1) Hx). lia.
Qed.

Lemma indexOf_absent l x : x ∉ l → indexOf l x = -1.
Proof. apply indexOfFrom_absent. Qed.

Lemma indexOf_present l x : x ∈ l → 0 ≤ indexOf l x < Z.of_nat (length l).
Proof. intros Hx. apply (indexOfFrom_present l x 0) in Hx. unfold indexOf. lia. Qed.

Lemma indexOf_lower l x : -1 ≤ indexOf l x.
Proof.
  destruct (decide (x ∈ l)) as [Hx|Hx].
  - apply indexOf_present in Hx. lia.
  - rewrite indexOf_absent by done. lia.
Qed.

Lemma indexOfFrom_lookup l x i :
  x ∈ l → l !! Z.to_nat (indexOfFrom l x i - i) = Some x.
Proof.
  revert i. induction l as [|y l IH]; intros i Hx; [by apply elem_of_nil in Hx|].
  simpl. destruct (decide (y = x)) as [->|Hne].
  - by replace (i - i) with 0 by lia.
  - apply elem_of_cons in Hx as [->|Hx]; [done|].
    pose proof (indexOfFrom_present l x (i + 1) Hx) as Hb.
    replace (Z.to_nat (indexOfFrom l x (i + 1) - i))
      with (S (Z.to_nat (indexOfFrom l x (i + 1) - (i + 1)))) by lia.
    simpl. by apply IH.
Qed.

Lemma indexOf_lookup l x : x ∈ l → l !! Z.to_nat (indexOf l x) = Some x.
Proof.
  intros Hx. pose proof (indexOfFrom_lookup l x 0 Hx) as H.
  unfold indexOf. by replace (indexOfFrom l x 0 - 0) with (indexOfFrom l x 0) in H by lia.
Qed.

Section SortFacts.

Context {A : Type} (cmp : A → A → Z).

Lemma sortInsert_Permutation x l : sortInsert cmp x l ≡ₚ x :: l.
Proof.
  induction l as [|y l IH]; simpl; [done|].
  destruct (decide (cmp x y ≤ 0)); [done|].
  rewrite IH. apply Permutation_swap.
Qed.

Lemma jsSort_Permutation l : jsSort cmp l ≡ₚ l.
Proof.
  induction l as [|x l IH]; simpl; [done|].
  fold (jsSort cmp l). by rewrite sortInsert_Permutation, IH.
Qed.

Lemma elem_of_jsSort x l : x ∈ jsSort cmp l ↔ x ∈ l.
Proof. by rewrite jsSort_Permutation. Qed.

Lemma length_jsSort l : length (jsSort cmp l) = length l.
Proof. by rewrite jsSort_Permutation. Qed.

Lemma jsSort_singleton x : jsSort cmp [x] = [x].
Proof. reflexivity. Qed.

(** Stability: elements that the comparator does not tell apart keep their
    relative order. *)
Lemma sortInsert_filter (P : A → Prop) `{∀ x, Decision (P x)} x l :
  (∀ y, P x → P y → cmp x y ≤ 0) →
  filter P (sortInsert cmp x l) = filter P (x :: l).
Proof.
  intros Heq. induction l as [|y l IH]; simpl; [done|].
  destruct (decide (cmp x y ≤ 0)) as [Hle|Hgt]; [done|].
  rewrite filter_cons, IH, !filter_cons.
  destruct (decide (P y)) as [Hy|Hy]; [|done].
  destruct (decide (P x)) as [Hx|Hx]; [|done].
  by specialize (Heq y Hx Hy).
Qed.

Lemma jsSort_stable (P : A → Prop) `{∀ x, Decision (P x)} l :
  (∀ x y, P x → P y → cmp x y ≤ 0) →
  filter P (jsSort cmp l) = filter P l.
Proof.
  intros Heq. induction l as [|x l IH]; simpl; [done|].
  fold (jsSort cmp l). rewrite sortInsert_filter by eauto.
  by rewrite !filter_cons, IH.
Qed.

(** With a comparator whose sign is a total preorder the result is sorted. *)
Hypothesis cmp_total : ∀ x y, cmp x y ≤ 0 ∨ cmp y x ≤ 0.
Hypothesis cmp_trans : ∀ x y z, cmp x y ≤ 0 → cmp y z ≤ 0 → cmp x z ≤ 0.

Lemma sortInsert_sorted x l :
  StronglySorted (λ a b, cmp a b ≤ 0) l →
  StronglySorted (λ a b, cmp a b ≤ 0) (sortInsert cmp x l).
Proof.
  induction 1 as [|y l Hs IH Hall]; simpl.
  - repeat constructor.
  - destruct (decide (cmp x y ≤ 0)) as [Hle|Hgt].
    + constructor; [by constructor|].
      constructor; [done|].
      eapply Forall_impl; [exact Hall|]. intros z Hz. by eapply cmp_trans.
    + constructor; [done|].
      rewrite sortInsert_Permutation. constructor; [|done].
      destruct (cmp_total x y); [lia | done].
Qed.

Lemma jsSort_sorted l : StronglySorted (λ a b, cmp a b ≤ 0) (jsSort cmp l).
Proof.
  induction l as [|x l IH]; simpl; [constructor|].
  by apply sortInsert_sorted.
Qed.

(** In a sorted list a strictly smaller element stands at a smaller index. *)
Lemma sorted_lookup_lt l (i j : nat) a b :
  StronglySorted (λ a b, cmp a b ≤ 0) l →
  l !! i = Some a → l !! j = Some b → cmp b a > 0 → (i < j)%nat.
Proof.
  intros Hs. revert i j. induction Hs as [|y l Hs IH Hall]; intros i j Hi Hj Hlt.
  - by rewrite lookup_nil in Hi.
  - destruct i as [|i], j as [|j]; simpl in *.
    + inversion Hi; inversion Hj; subst.
      destruct (cmp_total b b); lia.
    + lia.
    + inversion Hj; subst. rewrite Forall_forall in Hall.
      assert (cmp b a ≤ 0); [|lia].
      apply Hall. by eapply list_elem_of_lookup_2.
    + specialize (IH i j Hi Hj Hlt). lia.
Qed.

End SortFacts.

(** ** The comparator as a lexicographic order on a pair of indices *)

Section ComparatorFacts.

Variable categories : list string.
Variable definedActivityNames : gmap string (list string).

Local Abbreviation cmpAct := (compareActivitiesValue categories definedActivityNames).
Local Abbreviation keyOf := (sortKey categories definedActivityNames).

Lemma compareActivitiesValue_le a b : cmpAct a b ≤ 0 ↔ keyLe (keyOf a) (keyOf b).
Proof.
  unfold compareActivitiesValue, keyLe, sortKey. simpl.
  destruct (decide (_ ≠ _)); lia.
Qed.

Lemma compareActivitiesValue_lt a b : cmpAct a b < 0 ↔ keyLt (keyOf a) (keyOf b).
Proof.
  unfold compareActivitiesValue, keyLt, sortKey. simpl.
  destruct (decide (_ ≠ _)); lia.
Qed.

Lemma compareActivitiesValue_same_key a b : keyOf a = keyOf b → cmpAct a b = 0.
Proof.
  unfold compareActivitiesValue, sortKey. intros [= H1 H2].
  destruct (decide (_ ≠ _)); lia.
Qed.

Lemma compareActivitiesValue_total a b : cmpAct a b ≤ 0 ∨ cmpAct b a ≤ 0.
Proof. rewrite !compareActivitiesValue_le. unfold keyLe. lia. Qed.

Lemma compareActivitiesValue_trans a b c : cmpAct a b ≤ 0 → cmpAct b c ≤ 0 → cmpAct a c ≤ 0.
Proof. rewrite !compareActivitiesValue_le. unfold keyLe. lia. Qed.

Lemma compareActivitiesValue_antisym a b : cmpAct a b < 0 → cmpAct b a > 0.
Proof.
  intros H. apply compareActivitiesValue_lt in H.
  assert (¬ cmpAct b a ≤ 0); [|lia].
  rewrite compareActivitiesValue_le. unfold keyLe, keyLt in *. lia.
Qed.

(** A record whose category is missing from [categories] has category index
    [-1] and compares below every record whose category is listed. *)
Lemma compareActivitiesValue_unknown_category a b :
  category a ∉ categories → category b ∈ categories → cmpAct a b < 0.
Proof.
  intros Ha Hb. apply compareActivitiesValue_lt. left. unfold sortKey. simpl.
  rewrite (indexOf_absent _ _ Ha). apply indexOf_present in Hb. lia.
Qed.

(** Within one category, a record whose name is missing from the category's
    definition order compares below every record whose name is listed. *)
Lemma compareActivitiesValue_unknown_name a b :
  category a = category b →
  activityName a ∉ definedNames definedActivityNames (category a) →
  activityName b ∈ definedNames definedActivityNames (category b) →
  cmpAct a b < 0.
Proof.
  intros Hc Ha Hb. apply compareActivitiesValue_lt. right. unfold sortKey. simpl.
  rewrite Hc in *. split; [done|].
  rewrite (indexOf_absent _ _ Ha). apply indexOf_present in Hb. lia.
Qed.

Lemma sortActivities_sorted l :
  StronglySorted (λ a b, cmpAct a b ≤ 0) (jsSort cmpAct l).
Proof.
  apply jsSort_sorted; [apply compareActivitiesValue_total | apply compareActivitiesValue_trans].
Qed.

Lemma sortActivities_before l (i j : nat) a b :
  jsSort cmpAct l !! i = Some a → jsSort cmpAct l !! j = Some b →
  cmpAct a b < 0 → (i < j)%nat.
Proof.
  intros Hi Hj Hlt.
  eapply (sorted_lookup_lt cmpAct compareActivitiesValue_total); eauto using sortActivities_sorted.
  by apply compareActivitiesValue_antisym.
Qed.

Lemma sortActivities_stable k l :
  filter (λ a, keyOf a = k) (jsSort cmpAct l) = filter (λ a, keyOf a = k) l.
Proof.
  apply jsSort_stable. intros x y Hx Hy.
  rewrite compareActivitiesValue_same_key; [lia | congruence].
Qed.

End ComparatorFacts.

(** ** Properties of a walk *)

Section WalkFacts.

Variable categories : list string.
Variable definedActivityNames : gmap string (list string).
Variable activityMap : gmap string MaintenanceActivity.

Local Abbreviation deps := (sortedDependentsValue categories definedActivityNames activityMap).
Local Abbreviation add := (addActivityAndDependentsValue categories definedActivityNames activityMap).
Local Abbreviation visit := (Visit categories definedActivityNames activityMap).
Local Abbreviation visitAll := (VisitAll categories definedActivityNames activityMap).
Local Abbreviation claimedIn := (claimedWithin categories definedActivityNames activityMap).

(** A resolved dependent is the map's value at one of the listed ids. *)
Lemma elem_of_sortedDependentsValue x a :
  x ∈ deps a ↔
  ∃ depId, depId ∈ default [] (dependentActivities a) ∧ activityMap !! depId = Some x.
Proof.
  unfold sortedDependentsValue. rewrite elem_of_jsSort, list_elem_of_omap. naive_solver.
Qed.

(** What a walk appends is new and free of repetitions. *)
Lemma visit_fresh_mut :
  (∀ a dep P delta, visit a dep P delta →
     NoDup (displayId <$> delta) ∧ ∀ i, i ∈ idsOf delta → i ∉ P) ∧
  (∀ dep l P delta, visitAll dep l P delta →
     NoDup (displayId <$> delta) ∧ ∀ i, i ∈ idsOf delta → i ∉ P).
Proof.
  apply Visit_VisitAll_ind.
  - intros a dep P Hin. split; [constructor | set_solver].
  - intros a dep P delta Hnin _ [Hnd Hdisj]. split.
    + simpl. constructor; [|done].
      intros Hin. apply (Hdisj (id a)); [|set_solver].
      unfold idsOf. by apply elem_of_list_to_set.
    + intros i Hi. rewrite idsOf_cons in Hi. unfold displayId in Hi at 1. simpl in Hi.
      apply elem_of_union in Hi as [Hi|Hi]; [set_solver|].
      specialize (Hdisj i Hi). set_solver.
  - intros dep P. split; [constructor | set_solver].
  - intros dep x xs P d1 d2 _ [Hnd1 Hdisj1] _ [Hnd2 Hdisj2]. split.
    + rewrite fmap_app. apply NoDup_app. split; [done|]. split; [|done].
      intros i Hi1 Hi2. apply (Hdisj2 i); unfold idsOf; rewrite ?elem_of_union, ?elem_of_list_to_set; auto.
    + intros i Hi. rewrite idsOf_app in Hi.
      apply elem_of_union in Hi as [Hi|Hi]; [by apply Hdisj1|].
      specialize (Hdisj2 i Hi). set_solver.
Qed.

Lemma claimedWithin_mono d d' e :
  (∀ x, x ∈ d → x ∈ d') → claimedIn d e → claimedIn d' e.
Proof. intros Hsub (Hdep & e' & He' & Hin). split; [done|]. exists e'. auto. Qed.

Lemma visit_origin_mut :
  (∀ a dep P delta, visit a dep P delta →
     ∀ e, e ∈ delta → e = mkDisplay a dep ∨ claimedIn delta e) ∧
  (∀ dep l P delta, visitAll dep l P delta →
     ∀ e, e ∈ delta → (isDependent e = dep ∧ activity e ∈ l) ∨ claimedIn delta e).
Proof.
  apply Visit_VisitAll_ind.
  - intros a dep P _ e He. by apply elem_of_nil in He.
  - intros a dep P delta _ _ IH e He.
    apply elem_of_cons in He as [->|He]; [by left|]. right.
    destruct (IH e He) as [[Hdep Hin]|Hcl].
    + split; [done|]. exists (mkDisplay a dep). split; [by left | done].
    + eapply claimedWithin_mono; [|exact Hcl]. intros x Hx. by right.
  - intros dep P e He. by apply elem_of_nil in He.
  - intros dep x xs P d1 d2 _ IH1 _ IH2 e He.
    apply elem_of_app in He as [He|He].
    + destruct (IH1 e He) as [->|Hcl]; [left; split; [done | by left]|].
      right. eapply claimedWithin_mono; [|exact Hcl]. intros y Hy. apply elem_of_app; auto.
    + destruct (IH2 e He) as [[Hdep Hin]|Hcl]; [left; split; [done | by right]|].
      right. eapply claimedWithin_mono; [|exact Hcl]. intros y Hy. apply elem_of_app; auto.
Qed.

(** After a walk the visited record is processed, and every resolved
    dependent of every appended entry is processed too. *)
Lemma visit_closed_mut :
  (∀ a dep P delta, visit a dep P delta →
     id a ∈ P ∪ idsOf delta ∧
     ∀ e x, e ∈ delta → x ∈ deps (activity e) → id x ∈ P ∪ idsOf delta) ∧
  (∀ dep l P delta, visitAll dep l P delta →
     (∀ x, x ∈ l → id x ∈ P ∪ idsOf delta) ∧
     ∀ e x, e ∈ delta → x ∈ deps (activity e) → id x ∈ P ∪ idsOf delta).
Proof.
  apply Visit_VisitAll_ind.
  - intros a dep P Hin. split; [set_solver|]. intros e x He. by apply elem_of_nil in He.
  - intros a dep P delta _ _ [IHl IHe]. rewrite idsOf_cons.
    change (displayId (mkDisplay a dep)) with (id a).
    split; [set_solver|]. intros e x He Hx.
    apply elem_of_cons in He as [->|He].
    + simpl in Hx. specialize (IHl x Hx). set_solver.
    + specialize (IHe e x He Hx). set_solver.
  - intros dep P. split; [intros x Hx; by apply elem_of_nil in Hx|].
    intros e x He. by apply elem_of_nil in He.
  - intros dep x xs P d1 d2 _ [IHa IH1] _ [IHl IH2]. rewrite idsOf_app. split.
    + intros y Hy. apply elem_of_cons in Hy as [->|Hy]; [set_solver|].
      specialize (IHl y Hy). set_solver.
    + intros e y He Hy. apply elem_of_app in He as [He|He].
      * specialize (IH1 e y He Hy). set_solver.
      * specialize (IH2 e y He Hy). set_solver.
Qed.

(** A [forEach] over a list splits at any of its elements. *)
Lemma visitAll_app_inv dep l1 l2 P delta :
  visitAll dep (l1 ++ l2) P delta →
  ∃ d1 d2, delta = d1 ++ d2 ∧ visitAll dep l1 P d1 ∧ visitAll dep l2 (P ∪ idsOf d1) d2.
Proof.
  revert P delta. induction l1 as [|x l1 IH]; intros P delta Hv; simpl in Hv.
  - exists [], delta. split; [done|]. split; [constructor|].
    replace (P ∪ idsOf []) with P; [done|]. unfold idsOf. simpl. set_solver.
  - inversion Hv as [|? ? ? ? dx d2 Hx Hrest]; subst.
    destruct (IH _ _ Hrest) as (d1' & d2' & -> & H1 & H2).
    exists (dx ++ d1'), d2'. split; [by rewrite app_assoc|]. split.
    + by econstructor.
    + rewrite idsOf_app. by replace (P ∪ (idsOf dx ∪ idsOf d1')) with (P ∪ idsOf dx ∪ idsOf d1') by set_solver.
Qed.

(** A fresh record is appended first, directly followed by its first
    resolved dependent when that one is fresh as well. *)
Lemma visit_head a dep P delta :
  visit a dep P delta → id a ∉ P → ∃ rest, delta = mkDisplay a dep :: rest.
Proof. intros Hv Hnin. inversion Hv; subst; [done | eauto]. Qed.

Lemma visit_first_dependent a dep P delta y ys :
  visit a dep P delta → id a ∉ P → deps a = y :: ys → id y ∉ P → id y ≠ id a →
  ∃ rest, delta = mkDisplay a dep :: mkDisplay y true :: rest.
Proof.
  intros Hv Hnin Hdeps Hy Hne. inversion Hv as [|? ? ? d Hn Hall]; subst; [done|].
  rewrite Hdeps in Hall. inversion Hall as [|? ? ? ? d1 d2 Hvy Hrest]; subst.
  apply visit_head in Hvy as [rest ->]; [|set_solver].
  eexists. reflexivity.
Qed.

End WalkFacts.

(** ** The locals built before the walk *)

Lemma buildActivityMap_snoc l a :
  buildActivityMap (l ++ [a]) = <[id a := a]> (buildActivityMap l).
Proof. unfold buildActivityMap. by rewrite foldl_app. Qed.

Lemma buildActivityMap_lookup l k a :
  buildActivityMap l !! k = Some a → a ∈ l ∧ id a = k.
Proof.
  induction l as [|b l IH] using rev_ind;
    [unfold buildActivityMap; simpl; by rewrite lookup_empty|].
  rewrite buildActivityMap_snoc. intros Hl.
  destruct (decide (id b = k)) as [<-|Hne].
  - rewrite lookup_insert_eq in Hl. inversion Hl; subst. split; [set_solver | done].
  - rewrite lookup_insert_ne in Hl by done. destruct (IH Hl). split; [set_solver | done].
Qed.

Lemma buildActivityMap_dom l a : a ∈ l → id a ∈ dom (buildActivityMap l).
Proof.
  induction l as [|b l IH] using rev_ind; [by intros ?%elem_of_nil|].
  rewrite buildActivityMap_snoc, dom_insert_L. intros [Hin| ->%list_elem_of_singleton]%elem_of_app.
  - specialize (IH Hin). set_solver.
  - set_solver.
Qed.

Lemma NoDup_fmap_eq {A B} (f : A → B) (l : list A) a b :
  NoDup (f <$> l) → a ∈ l → b ∈ l → f a = f b → a = b.
Proof.
  induction l as [|c l IH]; [by intros _ ?%elem_of_nil|].
  rewrite fmap_cons, NoDup_cons. intros [Hnin Hnd] Ha Hb Heq.
  apply elem_of_cons in Ha as [->|Ha]; apply elem_of_cons in Hb as [->|Hb]; auto.
  - exfalso. apply Hnin. rewrite Heq. by apply list_elem_of_fmap_2.
  - exfalso. apply Hnin. rewrite <- Heq. by apply list_elem_of_fmap_2.
Qed.

Lemma buildActivityMap_unique l a :
  NoDup (id <$> l) → a ∈ l → buildActivityMap l !! id a = Some a.
Proof.
  intros Hnd Hin. pose proof (buildActivityMap_dom l a Hin) as Hdom.
  apply elem_of_dom in Hdom as [b Hb]. rewrite Hb. f_equal.
  apply buildActivityMap_lookup in Hb as [Hbl Hid].
  by eapply (NoDup_fmap_eq id l).
Qed.

Lemma buildActivityMap_size l : (size (dom (buildActivityMap l)) ≤ length l)%nat.
Proof.
  induction l as [|b l IH] using rev_ind;
    [unfold buildActivityMap; simpl; by rewrite dom_empty_L, size_empty|].
  rewrite buildActivityMap_snoc, dom_insert_L, length_app. simpl.
  rewrite size_union_alt, size_singleton.
  assert (size (dom (buildActivityMap l) ∖ {[id b]}) ≤ size (dom (buildActivityMap l)))%nat.
  { apply subseteq_size. set_solver. }
  lia.
Qed.

Lemma allDependentIds_inner (s : gset string) (l : list string) i :
  i ∈ foldl (λ s' depId, {[depId]} ∪ s') s l ↔ i ∈ s ∨ i ∈ l.
Proof.
  revert s. induction l as [|d l IH]; intros s; simpl; [set_solver|].
  rewrite IH. set_solver.
Qed.

Lemma elem_of_allDependentIds l i :
  i ∈ allDependentIds l ↔ ∃ a, a ∈ l ∧ i ∈ default [] (dependentActivities a).
Proof.
  unfold allDependentIds.
  induction l as [|b l IH] using rev_ind; [set_solver|].
  rewrite foldl_app. simpl. rewrite allDependentIds_inner, IH. split.
  - intros [(a & Ha & Hi)|Hi]; [exists a | exists b]; set_solver.
  - intros (a & [Ha| ->%list_elem_of_singleton]%elem_of_app & Hi); [left; eauto | by right].
Qed.

Lemma elem_of_sudsActivitiesOf sudsId all a :
  a ∈ sudsActivitiesOf sudsId all ↔ a ∈ all ∧ sudsTypeId a = sudsId ∧ applies a = true.
Proof. unfold sudsActivitiesOf. rewrite list_elem_of_filter. naive_solver. Qed.

Lemma sudsActivitiesOf_length sudsId all :
  (length (sudsActivitiesOf sudsId all) ≤ length all)%nat.
Proof. apply length_filter. Qed.

Lemma NoDup_fmap_filter {A B} (f : A → B) (P : A → Prop) `{∀ x, Decision (P x)} (l : list A) :
  NoDup (f <$> l) → NoDup (f <$> filter P l).
Proof.
  induction l as [|a l IH]; [done|].
  rewrite fmap_cons, NoDup_cons. intros [Hnin Hnd]. rewrite filter_cons.
  destruct (decide (P a)); [|by apply IH].
  rewrite fmap_cons, NoDup_cons. split; [|by apply IH].
  intros (b & Hid & Hb%list_elem_of_filter)%list_elem_of_fmap. apply Hnin.
  apply list_elem_of_fmap. exists b. tauto.
Qed.

Lemma sudsActivitiesOf_NoDup sudsId all :
  NoDup (id <$> all) → NoDup (id <$> sudsActivitiesOf sudsId all).
Proof. apply NoDup_fmap_filter. Qed.

Section TopLevelFacts.

Variable categories : list string.
Variable definedActivityNames : gmap string (list string).

Local Abbreviation roots := (topLevelActivitiesValue categories definedActivityNames).

Lemma elem_of_topLevelActivitiesValue l a :
  a ∈ roots l ↔ a ∈ l ∧ id a ∉ allDependentIds l.
Proof. unfold topLevelActivitiesValue. rewrite elem_of_jsSort, list_elem_of_filter. tauto. Qed.

Lemma topLevelActivitiesValue_NoDup l : NoDup (id <$> l) → NoDup (id <$> roots l).
Proof.
  intros Hnd. unfold topLevelActivitiesValue. rewrite jsSort_Permutation.
  by apply NoDup_fmap_filter.
Qed.

End TopLevelFacts.

(** ** Termination of the walk

    Every call that pushes a record removes its id from the ids of
    [activityMap] that are still unprocessed; a recursion bound above the
    number of those ids is never reached. *)

Section Termination.

Variable categories : list string.
Variable definedActivityNames : gmap string (list string).
Variable activityMap : gmap string MaintenanceActivity.

Hypothesis activityMap_keys : ∀ k a, activityMap !! k = Some a → id a = k.

Local Abbreviation deps := (sortedDependentsValue categories definedActivityNames activityMap).
Local Abbreviation add := (addActivityAndDependentsValue categories definedActivityNames activityMap).
Local Abbreviation pending := (unprocessed activityMap).

Lemma sortedDependentsValue_dom a x : x ∈ deps a → id x ∈ dom activityMap.
Proof.
  intros (depId & _ & Hl)%elem_of_sortedDependentsValue.
  apply elem_of_dom. rewrite (activityMap_keys _ _ Hl). eauto.
Qed.

Lemma unprocessed_extend st delta :
  (pending (extendState st delta) ≤ pending st)%nat.
Proof. unfold unprocessed, extendState. simpl. apply subseteq_size. set_solver. Qed.

Lemma unprocessed_push a dep st :
  id a ∈ dom activityMap → id a ∉ processedActivityIds st →
  (pending (pushActivity a dep st) < pending st)%nat.
Proof.
  intros Hdom Hnin. unfold unprocessed, pushActivity. simpl.
  apply subset_size. split; [set_solver|].
  intros Hsub. specialize (Hsub (id a)). set_solver.
Qed.

Lemma forEachM_total (f : MaintenanceActivity → ResolverState → option ResolverState)
    (bound : nat) dep l :
  (∀ a st, id a ∈ dom activityMap → (pending st < bound)%nat →
     ∃ delta, f a st = Some (extendState st delta) ∧
              Visit categories definedActivityNames activityMap a dep
                (processedActivityIds st) delta) →
  ∀ st, (∀ x, x ∈ l → id x ∈ dom activityMap) → (pending st < bound)%nat →
    ∃ delta, forEachM f l st = Some (extendState st delta) ∧
             VisitAll categories definedActivityNames activityMap dep l
               (processedActivityIds st) delta.
Proof.
  intros Hf. induction l as [|x xs IH]; intros st Hdom Hlt.
  - exists []. simpl. rewrite extendState_nil. split; [done | constructor].
  - destruct (Hf x st) as (d1 & Hx & Hv1); [apply Hdom; by left | done |].
    destruct (IH (extendState st d1)) as (d2 & Hxs & Hv2).
    + intros y Hy. apply Hdom. by right.
    + pose proof (unprocessed_extend st d1). lia.
    + exists (d1 ++ d2). simpl. rewrite Hx, Hxs, extendState_app.
      split; [done | by econstructor].
Qed.

Lemma addActivityAndDependentsValue_total fuel :
  ∀ a dep st, id a ∈ dom activityMap → (pending st < fuel)%nat →
    ∃ delta, add fuel a dep st = Some (extendState st delta) ∧
             Visit categories definedActivityNames activityMap a dep
               (processedActivityIds st) delta.
Proof.
  induction fuel as [|fuel IH]; intros a dep st Hdom Hlt; [lia|].
  simpl. destruct (decide (id a ∈ processedActivityIds st)) as [Hin|Hnin].
  - exists []. rewrite extendState_nil. split; [done | by constructor].
  - pose proof (unprocessed_push a dep st Hdom Hnin) as Hpush.
    destruct (forEachM_total (λ x, add fuel x true) fuel true (deps a)
                (λ x st', IH x true st') (pushActivity a dep st)) as (delta & Hrun & Hv).
    + intros x Hx. by eapply sortedDependentsValue_dom.
    + lia.
    + exists (mkDisplay a dep :: delta). rewrite Hrun, pushActivity_extend.
      split; [done | by constructor].
Qed.

End Termination.

(** ** The walk over the sorted top-level records *)

Section DisplayFacts.

Variable categories : list string.
Variable definedActivityNames : gmap string (list string).
Variable sudsId : string.
Variable allMaintenanceActivities : list MaintenanceActivity.

Local Abbreviation sudsActs := (sudsActivitiesOf sudsId allMaintenanceActivities).
Local Abbreviation actMap := (buildActivityMap sudsActs).
Local Abbreviation roots := (topLevelActivitiesValue categories definedActivityNames sudsActs).
Local Abbreviation deps := (sortedDependentsValue categories definedActivityNames actMap).
Local Abbreviation result :=
  (getDisplayActivitiesValue categories definedActivityNames sudsId allMaintenanceActivities).

Lemma actMap_keys k a : actMap !! k = Some a → id a = k.
Proof. intros H. by apply buildActivityMap_lookup in H as [_ ?]. Qed.

(** With a bound above the number of records the walk returns, and what it
    returns is the walk over the sorted roots from the empty state. *)
Lemma getDisplayActivitiesFuelValue_total fuel :
  (length allMaintenanceActivities < fuel)%nat →
  ∃ out,
    getDisplayActivitiesFuelValue categories definedActivityNames fuel sudsId
      allMaintenanceActivities = Some out ∧
    VisitAll categories definedActivityNames actMap false roots ∅ out.
Proof.
  intros Hfuel. unfold getDisplayActivitiesFuelValue.
  destruct (forEachM_total categories definedActivityNames actMap actMap_keys
              (λ act, addActivityAndDependentsValue categories definedActivityNames actMap fuel act false)
              fuel false roots) with (st := initialState) as (delta & Hrun & Hv).
  - intros a st Hdom Hlt.
    by apply addActivityAndDependentsValue_total; [apply actMap_keys | |].
  - intros x [Hx _]%elem_of_topLevelActivitiesValue. by apply buildActivityMap_dom.
  - unfold unprocessed. simpl.
    pose proof (buildActivityMap_size sudsActs).
    pose proof (sudsActivitiesOf_length sudsId allMaintenanceActivities).
    assert (size (dom actMap ∖ ∅) ≤ size (dom actMap))%nat by (apply subseteq_size; set_solver).
    lia.
  - exists delta. rewrite Hrun. simpl. split; [done|]. exact Hv.
Qed.

Lemma getDisplayActivitiesValue_walk :
  VisitAll categories definedActivityNames actMap false roots ∅ result.
Proof.
  unfold getDisplayActivitiesValue.
  destruct (getDisplayActivitiesFuelValue_total (S (length allMaintenanceActivities)))
    as (out & -> & Hv); [lia | done].
Qed.

End DisplayFacts.

(** ** Determinism of the walk *)

Section WalkDeterminism.

Variable categories : list string.
Variable definedActivityNames : gmap string (list string).
Variable activityMap : gmap string MaintenanceActivity.

Local Abbreviation visit := (Visit categories definedActivityNames activityMap).
Local Abbreviation visitAll := (VisitAll categories definedActivityNames activityMap).

Lemma visit_functional_mut :
  (∀ a dep P delta, visit a dep P delta → ∀ delta', visit a dep P delta' → delta = delta') ∧
  (∀ dep l P delta, visitAll dep l P delta → ∀ delta', visitAll dep l P delta' → delta = delta').
Proof.
  apply Visit_VisitAll_ind.
  - intros a dep P Hin delta' Hv. by inversion Hv.
  - intros a dep P delta Hnin _ IH delta' Hv. inversion Hv; subst; [done|].
    f_equal. by apply IH.
  - intros dep P delta' Hv. by inversion Hv.
  - intros dep x xs P d1 d2 _ IH1 _ IH2 delta' Hv.
    inversion Hv as [|? ? ? ? d1' d2' Hx Hxs]; subst.
    apply IH1 in Hx as <-. by apply IH2 in Hxs as <-.
Qed.

End WalkDeterminism.

Section DisplayResults.

Variable categories : list string.
Variable definedActivityNames : gmap string (list string).
Variable sudsId : string.
Variable allMaintenanceActivities : list MaintenanceActivity.

Local Abbreviation sudsActs := (sudsActivitiesOf sudsId allMaintenanceActivities).
Local Abbreviation actMap := (buildActivityMap sudsActs).
Local Abbreviation roots := (topLevelActivitiesValue categories definedActivityNames sudsActs).
Local Abbreviation deps := (sortedDependentsValue categories definedActivityNames actMap).
Local Abbreviation visitAll := (VisitAll categories definedActivityNames actMap).
Local Abbreviation result :=
  (getDisplayActivitiesValue categories definedActivityNames sudsId allMaintenanceActivities).

(** Any bound above the number of records gives the same answer. *)
Lemma getDisplayActivitiesFuelValue_result fuel :
  (length allMaintenanceActivities < fuel)%nat →
  getDisplayActivitiesFuelValue categories definedActivityNames fuel sudsId
    allMaintenanceActivities = Some result.
Proof.
  intros Hfuel.
  destruct (getDisplayActivitiesFuelValue_total categories definedActivityNames sudsId
              allMaintenanceActivities fuel Hfuel) as (out & -> & Hv).
  f_equal.
  eapply (proj2 (visit_functional_mut categories definedActivityNames actMap)); eauto.
  apply getDisplayActivitiesValue_walk.
Qed.

Lemma result_NoDup : NoDup (displayId <$> result).
Proof.
  eapply (proj2 (visit_fresh_mut categories definedActivityNames actMap)).
  apply getDisplayActivitiesValue_walk.
Qed.

Lemma sortedDependentsValue_claims x a :
  x ∈ deps a → x ∈ sudsActs ∧ id x ∈ default [] (dependentActivities a).
Proof.
  intros (depId & Hin & Hl)%elem_of_sortedDependentsValue.
  apply buildActivityMap_lookup in Hl as [Hx <-]. done.
Qed.

Lemma sortedDependentsValue_resolves x a :
  NoDup (id <$> sudsActs) → x ∈ sudsActs → id x ∈ default [] (dependentActivities a) →
  x ∈ deps a.
Proof.
  intros Hnd Hx Hin. apply elem_of_sortedDependentsValue.
  exists (id x). split; [done|]. by apply buildActivityMap_unique.
Qed.

(** Entries appended by a walk over records of [sudsActivities] are records
    of [sudsActivities]. *)
Lemma walk_in_suds dep l P delta :
  visitAll dep l P delta → (∀ x, x ∈ l → x ∈ sudsActs) →
  ∀ e, e ∈ delta → activity e ∈ sudsActs.
Proof.
  intros Hv Hl e He.
  destruct (proj2 (visit_origin_mut categories definedActivityNames actMap) _ _ _ _ Hv e He)
    as [[_ Hin]|(_ & e' & _ & Hin)]; [by apply Hl|].
  by apply sortedDependentsValue_claims in Hin as [? _].
Qed.

(** An entry with the dependent flag is listed by a record of
    [sudsActivities] that the walk appended as well. *)
Lemma walk_dependent_claimed dep l P delta e :
  visitAll dep l P delta → (∀ x, x ∈ l → x ∈ sudsActs) →
  e ∈ delta → (isDependent e = dep ∧ activity e ∈ l) ∨
  (isDependent e = true ∧
   ∃ e', e' ∈ delta ∧ activity e' ∈ sudsActs ∧
         displayId e ∈ default [] (dependentActivities (activity e'))).
Proof.
  intros Hv Hl He.
  destruct (proj2 (visit_origin_mut categories definedActivityNames actMap) _ _ _ _ Hv e He)
    as [?|(Hdep & e' & He' & Hin)]; [by left|]. right. split; [done|].
  exists e'. split; [done|]. split; [by eapply walk_in_suds|].
  by apply sortedDependentsValue_claims in Hin as [_ ?].
Qed.

Lemma roots_in_suds x : x ∈ roots → x ∈ sudsActs.
Proof. by intros [? _]%elem_of_topLevelActivitiesValue. Qed.

Lemma result_in_suds e : e ∈ result → activity e ∈ sudsActs.
Proof.
  eapply walk_in_suds; [apply getDisplayActivitiesValue_walk | apply roots_in_suds].
Qed.


Lemma result_closed_roots x : x ∈ roots → id x ∈ idsOf result.
Proof.
  intros Hx.
  pose proof (proj1 (proj2 (visit_closed_mut categories definedActivityNames actMap)
                       _ _ _ _ (getDisplayActivitiesValue_walk _ _ _ _)) x Hx).
  set_solver.
Qed.

Lemma result_closed_deps e x : e ∈ result → x ∈ deps (activity e) → id x ∈ idsOf result.
Proof.
  intros He Hx.
  pose proof (proj2 (proj2 (visit_closed_mut categories definedActivityNames actMap)
                       _ _ _ _ (getDisplayActivitiesValue_walk _ _ _ _)) e x He Hx).
  set_solver.
Qed.

End DisplayResults.

(** ** Counting displayed records *)

Lemma filter_none {A} (P : A → Prop) `{∀ x, Decision (P x)} (l : list A) :
  (∀ x, x ∈ l → ¬ P x) → filter P l = [].
Proof.
  induction l as [|x l IH]; intros Hl; [done|].
  rewrite filter_cons. destruct (decide (P x)) as [Hx|Hx].
  - exfalso. apply (Hl x); [by left | done].
  - apply IH. intros y Hy. apply Hl. by right.
Qed.

Lemma timesDisplayed_once r out e :
  NoDup (displayId <$> out) → e ∈ out → activity e = r → timesDisplayed r out = 1%nat.
Proof.
  unfold timesDisplayed. induction out as [|e' out IH]; [by intros _ ?%elem_of_nil|].
  rewrite fmap_cons, NoDup_cons. intros [Hnin Hnd] He Hr. rewrite filter_cons.
  destruct (decide (activity e' = r)) as [Hr'|Hr'].
  - simpl. rewrite filter_none; [done|].
    intros x Hx Hxr. apply Hnin. apply list_elem_of_fmap. exists x.
    split; [|done]. unfold displayId. congruence.
  - apply elem_of_cons in He as [->|He]; [done | by apply IH].
Qed.

Section DisplayedRecords.

Variable categories : list string.
Variable definedActivityNames : gmap string (list string).
Variable sudsId : string.
Variable allMaintenanceActivities : list MaintenanceActivity.

Local Abbreviation sudsActs := (sudsActivitiesOf sudsId allMaintenanceActivities).
Local Abbreviation actMap := (buildActivityMap sudsActs).
Local Abbreviation roots := (topLevelActivitiesValue categories definedActivityNames sudsActs).
Local Abbreviation deps := (sortedDependentsValue categories definedActivityNames actMap).
Local Abbreviation result :=
  (getDisplayActivitiesValue categories definedActivityNames sudsId allMaintenanceActivities).

Lemma Reachable_in_suds r : Reachable sudsActs r → r ∈ sudsActs.
Proof. by destruct 1. Qed.

(** Everything a walk from reachable records appends is reachable. *)
Lemma walk_reachable_mut :
  (∀ a dep P delta, Visit categories definedActivityNames actMap a dep P delta →
     Reachable sudsActs a → ∀ e, e ∈ delta → Reachable sudsActs (activity e)) ∧
  (∀ dep l P delta, VisitAll categories definedActivityNames actMap dep l P delta →
     (∀ x, x ∈ l → Reachable sudsActs x) → ∀ e, e ∈ delta → Reachable sudsActs (activity e)).
Proof.
  apply Visit_VisitAll_ind.
  - intros a dep P _ _ e He. by apply elem_of_nil in He.
  - intros a dep P delta _ _ IH Ha e He.
    apply elem_of_cons in He as [->|He]; [done|]. apply IH; [|done].
    intros x Hx. apply sortedDependentsValue_claims in Hx as [Hx Hin].
    by eapply reach_dependent.
  - intros dep P _ e He. by apply elem_of_nil in He.
  - intros dep x xs P d1 d2 _ IH1 _ IH2 Hl e He.
    apply elem_of_app in He as [He|He].
    + apply IH1; [apply Hl; by left | done].
    + apply IH2; [|done]. intros y Hy. apply Hl. by right.
Qed.

Lemma result_reachable e : e ∈ result → Reachable sudsActs (activity e).
Proof.
  apply (proj2 walk_reachable_mut _ _ _ _ (getDisplayActivitiesValue_walk _ _ _ _)).
  intros x [Hx Hroot]%elem_of_topLevelActivitiesValue. by constructor.
Qed.

Hypothesis ids_unique : NoDup (id <$> allMaintenanceActivities).

Lemma suds_ids_unique : NoDup (id <$> sudsActs).
Proof. by apply sudsActivitiesOf_NoDup. Qed.

(** With unique ids, an entry that carries the id of a record of
    [sudsActivities] displays that very record. *)
Lemma result_entry_for_id r :
  r ∈ sudsActs → id r ∈ idsOf result → ∃ e, e ∈ result ∧ activity e = r.
Proof.
  intros Hr (e & He & Hid)%elem_of_idsOf. exists e. split; [done|].
  eapply (NoDup_fmap_eq id sudsActs); eauto using suds_ids_unique, result_in_suds.
Qed.

Lemma reachable_displayed r : Reachable sudsActs r → ∃ e, e ∈ result ∧ activity e = r.
Proof.
  induction 1 as [r Hr Hroot|r r' Hreach (e & He & <-) Hr' Hin].
  - apply result_entry_for_id; [done|].
    apply result_closed_roots. by apply elem_of_topLevelActivitiesValue.
  - apply result_entry_for_id; [done|].
    apply (result_closed_deps _ _ _ _ e r' He).
    apply sortedDependentsValue_resolves; auto using suds_ids_unique.
Qed.

End DisplayedRecords.

(** ** The resolver of the source and the resolver where every comparison answers

    Whatever the functions of the source return is what their exception-free
    counterparts compute, they throw only where a lookup answers an inherited
    member, and they run out of fuel only together. *)

Lemma namesFor_Some definedActivityNames c names :
  namesFor definedActivityNames c = Some names → names = definedNames definedActivityNames c.
Proof.
  unfold namesFor, definedNames. destruct (definedActivityNames !! c); simpl.
  - by intros [= ->].
  - destruct (decide _); [done | by intros [= <-]].
Qed.

Lemma namesFor_None definedActivityNames c :
  namesFor definedActivityNames c = None ↔
  c ∈ objectPrototypeNames ∧ definedActivityNames !! c = None.
Proof.
  unfold namesFor. destruct (definedActivityNames !! c); [naive_solver|].
  destruct (decide _); naive_solver.
Qed.

Lemma namesFor_array definedActivityNames c :
  LooksUpArray definedActivityNames c →
  namesFor definedActivityNames c = Some (definedNames definedActivityNames c).
Proof. intros [names Hnames]. by rewrite Hnames, (namesFor_Some _ _ _ Hnames). Qed.

Lemma sortInsertThrowing_Normal {A} (cmp : A → A → Completion Z) (f : A → A → Z) x l r :
  (∀ a b z, cmp a b = Normal z → z = f a b) →
  sortInsertThrowing cmp x l = Normal r → r = sortInsert f x l.
Proof.
  intros Hcmp. revert r. induction l as [|y l IH]; intros r; simpl.
  - by intros [= <-].
  - destruct (cmp x y) as [z|] eqn:Hz; simpl; [|done].
    rewrite <- (Hcmp _ _ _ Hz). destruct (decide (z ≤ 0)); [by intros [= <-]|].
    destruct (sortInsertThrowing cmp x l) as [r'|]; simpl; [|done].
    intros [= <-]. by rewrite (IH r').
Qed.

Lemma jsSortThrowing_Normal {A} (cmp : A → A → Completion Z) (f : A → A → Z) l r :
  (∀ a b z, cmp a b = Normal z → z = f a b) →
  jsSortThrowing cmp l = Normal r → r = jsSort f l.
Proof.
  intros Hcmp. revert r. induction l as [|x l IH]; intros r; simpl.
  - by intros [= <-].
  - destruct (jsSortThrowing cmp l) as [sorted|]; simpl; [|done].
    intros Hr. rewrite <- (IH sorted eq_refl). by eapply sortInsertThrowing_Normal.
Qed.

Lemma sortInsertThrowing_answers {A} (cmp : A → A → Completion Z) (f : A → A → Z) x l :
  (∀ y, y ∈ l → cmp x y = Normal (f x y)) →
  sortInsertThrowing cmp x l = Normal (sortInsert f x l).
Proof.
  induction l as [|y l IH]; intros Hcmp; simpl; [done|].
  rewrite (Hcmp y) by (by left). simpl. destruct (decide _); [done|].
  rewrite IH; [done|]. intros y' Hy'. apply Hcmp. by right.
Qed.

Lemma jsSortThrowing_answers {A} (cmp : A → A → Completion Z) (f : A → A → Z) l :
  (∀ x y, x ∈ l → y ∈ l → cmp x y = Normal (f x y)) →
  jsSortThrowing cmp l = Normal (jsSort f l).
Proof.
  induction l as [|x l IH]; intros Hcmp; simpl; [done|].
  rewrite IH by (intros y z Hy Hz; apply Hcmp; by right). simpl.
  apply sortInsertThrowing_answers. intros y Hy%elem_of_jsSort.
  apply Hcmp; [by left | by right].
Qed.

(** An array of fewer than two elements is not compared. *)
Lemma jsSortThrowing_short {A} (cmp : A → A → Completion Z) l :
  (length l ≤ 1)%nat → jsSortThrowing cmp l = Normal l.
Proof. destruct l as [|x [|y l]]; simpl; [done | done | lia]. Qed.

Section ResolverAndValue.

Variable categories : list string.
Variable definedActivityNames : gmap string (list string).

Local Abbreviation compare := (compareActivities categories definedActivityNames).
Local Abbreviation compareValue := (compareActivitiesValue categories definedActivityNames).

Lemma compareActivities_TypeError a b :
  compare a b = TypeError ↔
  indexOf categories (category a) = indexOf categories (category b) ∧
  (namesFor definedActivityNames (category a) = None ∨
   namesFor definedActivityNames (category b) = None).
Proof.
  unfold compareActivities. destruct (decide _) as [Hne|Heq%dec_stable]; [naive_solver|].
  destruct (namesFor definedActivityNames (category a)),
    (namesFor definedActivityNames (category b)); simpl; naive_solver.
Qed.

Lemma compareActivities_Normal a b z :
  compare a b = Normal z → z = compareValue a b.
Proof.
  unfold compareActivities, compareActivitiesValue.
  destruct (decide _); [by intros [= <-]|].
  destruct (namesFor definedActivityNames (category a)) as [namesA|] eqn:HA; simpl; [|done].
  destruct (namesFor definedActivityNames (category b)) as [namesB|] eqn:HB; simpl; [|done].
  intros [= <-]. by rewrite (namesFor_Some _ _ _ HA), (namesFor_Some _ _ _ HB).
Qed.

Lemma compareActivities_answers a b :
  LooksUpArray definedActivityNames (category a) →
  LooksUpArray definedActivityNames (category b) →
  compare a b = Normal (compareValue a b).
Proof.
  intros HA%namesFor_array HB%namesFor_array.
  unfold compareActivities, compareActivitiesValue.
  destruct (decide _); [done|]. by rewrite HA, HB.
Qed.

Lemma sortActivitiesThrowing_Normal l sorted :
  jsSortThrowing compare l = Normal sorted → sorted = jsSort compareValue l.
Proof. apply jsSortThrowing_Normal, compareActivities_Normal. Qed.

Lemma sortActivitiesThrowing_answers l :
  CategoriesLookUpArrays definedActivityNames l →
  jsSortThrowing compare l = Normal (jsSort compareValue l).
Proof.
  intros Hl. apply jsSortThrowing_answers. intros x y Hx Hy.
  apply compareActivities_answers; by apply Hl.
Qed.

(** The sort throws exactly when two of the records make the comparator
    throw. *)
Lemma ComparisonThrows_cons x l :
  ComparisonThrows categories definedActivityNames l →
  ComparisonThrows categories definedActivityNames (x :: l).
Proof.
  intros (a & Ha & Hinh & Hlen). exists a. split; [by right|]. split; [done|].
  rewrite filter_cons. destruct (decide _); simpl; lia.
Qed.

Lemma ComparisonThrows_Permutation l l' :
  l ≡ₚ l' →
  ComparisonThrows categories definedActivityNames l →
  ComparisonThrows categories definedActivityNames l'.
Proof.
  intros Hperm (a & Ha & Hinh & Hlen). exists a.
  split; [by rewrite <- Hperm|]. split; [done|]. by rewrite <- Hperm.
Qed.

Lemma length_filter_elem {A} (P : A → Prop) `{∀ x, Decision (P x)} (l : list A) y :
  y ∈ l → P y → (1 ≤ length (filter P l))%nat.
Proof.
  intros Hy HP. assert (y ∈ filter P l) as Hin by (by apply list_elem_of_filter).
  destruct (filter P l); [by apply elem_of_nil in Hin | simpl; lia].
Qed.

Lemma length_filter_witness {A} (P : A → Prop) `{∀ x, Decision (P x)} (l : list A) :
  (1 ≤ length (filter P l))%nat → ∃ y, y ∈ l ∧ P y.
Proof.
  destruct (filter P l) as [|y l'] eqn:Hf; simpl; [lia|]. intros _.
  assert (y ∈ filter P l) as Hin by (rewrite Hf; by left).
  apply list_elem_of_filter in Hin as [? ?]. eauto.
Qed.

Lemma ComparisonThrows_pair x y l :
  y ∈ l → compare x y = TypeError →
  ComparisonThrows categories definedActivityNames (x :: l).
Proof.
  intros Hy [Hidx Hinh]%compareActivities_TypeError.
  assert (∀ a, indexOf categories (category a) = indexOf categories (category x) →
               (2 ≤ length (filter (λ b, indexOf categories (category b)
                                         = indexOf categories (category a)) (x :: l)))%nat)
    as Hlen.
  { intros a Ha. rewrite filter_cons, decide_True by done. simpl.
    pose proof (length_filter_elem
                  (λ b, indexOf categories (category b) = indexOf categories (category a))
                  l y Hy ltac:(congruence)). lia. }
  destruct Hinh as [Hx|Hy'].
  - exists x. split; [by left|]. split; [done|]. by apply Hlen.
  - exists y. split; [by right|]. split; [done|]. by apply Hlen.
Qed.

Lemma sortInsertThrowing_TypeError_inv {A} (cmp : A → A → Completion Z) x l :
  sortInsertThrowing cmp x l = TypeError → ∃ y, y ∈ l ∧ cmp x y = TypeError.
Proof.
  induction l as [|y l IH]; simpl; [done|].
  destruct (cmp x y) as [c|] eqn:Hc; simpl.
  - destruct (decide _); [done|].
    destruct (sortInsertThrowing cmp x l); simpl; [done|]. intros _.
    destruct (IH eq_refl) as (z & Hz & Hxz). exists z. split; [by right | done].
  - intros _. exists y. split; [by left | done].
Qed.

Lemma sortInsertThrowing_throws x b sorted :
  StronglySorted (λ a b, compareValue a b ≤ 0) sorted →
  ¬ ComparisonThrows categories definedActivityNames sorted →
  b ∈ sorted → compare x b = TypeError →
  sortInsertThrowing compare x sorted = TypeError.
Proof.
  intros Hsorted. induction Hsorted as [|y sorted Hsorted IH Hall]; intros Hgood Hb Hxb.
  - by apply elem_of_nil in Hb.
  - simpl. destruct (compare x y) as [c|] eqn:Hc; simpl; [|done].
    assert (b ≠ y) as Hne by (intros ->; congruence).
    apply elem_of_cons in Hb as [?|Hb]; [done|].
    pose proof (compareActivities_Normal _ _ _ Hc) as ->.
    destruct (decide _) as [Hle|_].
    + exfalso. rewrite Forall_forall in Hall. pose proof (Hall b Hb) as Hyb.
      apply compareActivitiesValue_le in Hle, Hyb.
      apply compareActivities_TypeError in Hxb as [Hidx Hinh].
      assert (indexOf categories (category y) = indexOf categories (category x)) as Hy.
      { unfold keyLe, sortKey in Hle, Hyb. simpl in Hle, Hyb. lia. }
      destruct Hinh as [Hx|Hb'].
      * assert (compare x y = TypeError) as Habs
          by (apply compareActivities_TypeError; auto).
        congruence.
      * apply Hgood. apply (ComparisonThrows_pair y b); [done|].
        apply compareActivities_TypeError. split; [congruence | by right].
    + rewrite IH; [done | | done | done].
      intros Hbad. by apply Hgood, ComparisonThrows_cons.
Qed.

Lemma sortActivitiesThrowing_TypeError l :
  jsSortThrowing compare l = TypeError ↔
  ComparisonThrows categories definedActivityNames l.
Proof.
  induction l as [|x l IH]; simpl.
  - split; [done|]. by intros (a & ?%elem_of_nil & _).
  - destruct (jsSortThrowing compare l) as [sorted|] eqn:Hsorted; simpl.
    + pose proof (sortActivitiesThrowing_Normal _ _ Hsorted) as ->.
      assert (¬ ComparisonThrows categories definedActivityNames l) as Hgood
        by (intros Hbad; by apply IH in Hbad).
      split.
      * intros (y & Hy%elem_of_jsSort & Hxy)%sortInsertThrowing_TypeError_inv.
        by eapply ComparisonThrows_pair.
      * intros (a & Ha & Hinh & Hlen).
        rewrite filter_cons in Hlen.
        destruct (decide (indexOf categories (category x)
                          = indexOf categories (category a))) as [Hidx|Hidx].
        -- simpl in Hlen.
           assert (∃ b, b ∈ l ∧ compare x b = TypeError) as (b & Hb & Hxb).
           { apply elem_of_cons in Ha as [->|Ha].
             - destruct (length_filter_witness
                           (λ b, indexOf categories (category b)
                                 = indexOf categories (category x)) l ltac:(lia))
                 as (b & Hb & Hbx).
               exists b. split; [done|]. apply compareActivities_TypeError. auto.
             - exists a. split; [done|]. apply compareActivities_TypeError. auto. }
           apply (sortInsertThrowing_throws x b); [apply sortActivities_sorted | |
             by apply elem_of_jsSort | done].
           intros Hbad. apply Hgood.
           eapply ComparisonThrows_Permutation; [|exact Hbad]. apply jsSort_Permutation.
        -- exfalso. apply Hgood. exists a.
           apply elem_of_cons in Ha as [->|Ha]; [by destruct Hidx|]. auto.
    + split; [|done]. intros _. by apply ComparisonThrows_cons, IH.
Qed.

Lemma topLevelActivities_Normal l roots :
  topLevelActivities categories definedActivityNames l = Normal roots →
  roots = topLevelActivitiesValue categories definedActivityNames l.
Proof. apply sortActivitiesThrowing_Normal. Qed.

Lemma topLevelActivities_answers l :
  CategoriesLookUpArrays definedActivityNames l →
  topLevelActivities categories definedActivityNames l
  = Normal (topLevelActivitiesValue categories definedActivityNames l).
Proof.
  intros Hl. apply sortActivitiesThrowing_answers.
  intros r [_ Hr]%list_elem_of_filter. by apply Hl.
Qed.

Section WalkAndValue.

Variable activityMap : gmap string MaintenanceActivity.

Local Abbreviation deps := (sortedDependents categories definedActivityNames activityMap).
Local Abbreviation depsValue :=
  (sortedDependentsValue categories definedActivityNames activityMap).
Local Abbreviation add :=
  (addActivityAndDependents categories definedActivityNames activityMap).
Local Abbreviation addValue :=
  (addActivityAndDependentsValue categories definedActivityNames activityMap).

Lemma sortedDependents_Normal a dependents :
  deps a = Normal dependents → dependents = depsValue a.
Proof. apply sortActivitiesThrowing_Normal. Qed.

Lemma sortedDependents_answers a :
  (∀ k r, activityMap !! k = Some r → LooksUpArray definedActivityNames (category r)) →
  deps a = Normal (depsValue a).
Proof.
  intros Hmap. apply sortActivitiesThrowing_answers.
  intros r (depId & _ & Hr)%list_elem_of_omap. by eapply Hmap.
Qed.

Lemma forEachThrowing_value (f : MaintenanceActivity → ResolverState → option (Completion ResolverState))
    (g : MaintenanceActivity → ResolverState → option ResolverState) l :
  (∀ x st, Corresponds (f x st) (g x st)) →
  ∀ st, Corresponds (forEachThrowing f l st) (forEachM g l st).
Proof.
  intros Hfg. induction l as [|x l IH]; intros st; simpl; [done|].
  specialize (Hfg x st). destruct (f x st) as [[st'|]|]; simpl in *.
  - rewrite Hfg. apply IH.
  - done.
  - by rewrite Hfg.
Qed.

Lemma addActivityAndDependents_value fuel :
  ∀ a dep st, Corresponds (add fuel a dep st) (addValue fuel a dep st).
Proof.
  induction fuel as [|fuel IH]; intros a dep st; simpl; [done|].
  destruct (decide _); [done|].
  destruct (deps a) as [dependents|] eqn:Hdeps; [|done].
  rewrite <- (sortedDependents_Normal _ _ Hdeps).
  apply forEachThrowing_value. intros x st'. apply IH.
Qed.

Lemma forEachThrowing_more_fuel
    (f f' : MaintenanceActivity → ResolverState → option (Completion ResolverState)) l :
  (∀ x st c, f x st = Some c → f' x st = Some c) →
  ∀ st c, forEachThrowing f l st = Some c → forEachThrowing f' l st = Some c.
Proof.
  intros Hff'. induction l as [|x l IH]; intros st c; simpl; [done|].
  destruct (f x st) as [[st'|]|] eqn:Hx; [| |done].
  - rewrite (Hff' _ _ _ Hx). apply IH.
  - by rewrite (Hff' _ _ _ Hx).
Qed.

Lemma addActivityAndDependents_more_fuel fuel extra :
  ∀ a dep st c, add fuel a dep st = Some c → add (fuel + extra) a dep st = Some c.
Proof.
  induction fuel as [|fuel IH]; intros a dep st c; simpl; [done|].
  destruct (decide _); [done|]. destruct (deps a); [|done].
  apply forEachThrowing_more_fuel. intros x st' c'. apply IH.
Qed.

(** No call throws when the sort of the dependents throws for no record that
    the walk can meet. *)
Section NoThrow.

Variable known : MaintenanceActivity → Prop.
Hypothesis known_map : ∀ k r, activityMap !! k = Some r → known r.
Hypothesis known_sorted : ∀ r, known r → deps r ≠ TypeError.

Lemma forEachThrowing_no_throw
    (f : MaintenanceActivity → ResolverState → option (Completion ResolverState)) l :
  (∀ x st, known x → f x st ≠ Some TypeError) →
  (∀ x, x ∈ l → known x) →
  ∀ st, forEachThrowing f l st ≠ Some TypeError.
Proof.
  intros Hf. induction l as [|x l IH]; intros Hl st; simpl; [done|].
  pose proof (Hf x st (Hl x ltac:(by left))) as Hx.
  destruct (f x st) as [[st'|]|]; [|done|done].
  apply IH. intros y Hy. apply Hl. by right.
Qed.

Lemma addActivityAndDependents_no_throw fuel :
  ∀ a dep st, known a → add fuel a dep st ≠ Some TypeError.
Proof.
  induction fuel as [|fuel IH]; intros a dep st Ha; simpl; [done|].
  destruct (decide _); [done|].
  pose proof (known_sorted a Ha) as Hsorted.
  destruct (deps a) as [dependents|] eqn:Hdeps; [|done].
  apply forEachThrowing_no_throw; [intros x st'; apply IH|].
  intros x Hx. rewrite (sortedDependents_Normal _ _ Hdeps) in Hx.
  apply elem_of_sortedDependentsValue in Hx as (depId & _ & Hx). by eapply known_map.
Qed.

End NoThrow.

End WalkAndValue.

Variable sudsId : string.
Variable allMaintenanceActivities : list MaintenanceActivity.

Local Abbreviation sudsActs := (sudsActivitiesOf sudsId allMaintenanceActivities).
Local Abbreviation actMap := (buildActivityMap sudsActs).
Local Abbreviation completionFuel := (getDisplayActivitiesFuel categories definedActivityNames).
Local Abbreviation completion :=
  (getDisplayActivities categories definedActivityNames sudsId allMaintenanceActivities).
Local Abbreviation value :=
  (getDisplayActivitiesValue categories definedActivityNames sudsId allMaintenanceActivities).

Lemma getDisplayActivitiesFuel_value fuel :
  match completionFuel fuel sudsId allMaintenanceActivities with
  | None =>
      getDisplayActivitiesFuelValue categories definedActivityNames fuel sudsId
        allMaintenanceActivities = None
  | Some (Normal out) =>
      getDisplayActivitiesFuelValue categories definedActivityNames fuel sudsId
        allMaintenanceActivities = Some out
  | Some TypeError => True
  end.
Proof.
  unfold getDisplayActivitiesFuel, getDisplayActivitiesFuelValue.
  destruct (topLevelActivities _ _ sudsActs) as [roots|] eqn:Hroots; [|done].
  rewrite <- (topLevelActivities_Normal _ _ Hroots).
  pose proof (forEachThrowing_value
                (λ act, addActivityAndDependents categories definedActivityNames actMap fuel act false)
                (λ act, addActivityAndDependentsValue categories definedActivityNames actMap fuel act false)
                roots (λ x st, addActivityAndDependents_value actMap fuel x false st)
                initialState) as Hrun.
  destruct (forEachThrowing _ roots initialState) as [[st|]|]; simpl in *; by rewrite ?Hrun.
Qed.

Lemma getDisplayActivitiesFuel_more_fuel fuel extra c :
  completionFuel fuel sudsId allMaintenanceActivities = Some c →
  completionFuel (fuel + extra) sudsId allMaintenanceActivities = Some c.
Proof.
  unfold getDisplayActivitiesFuel.
  destruct (topLevelActivities _ _ sudsActs) as [roots|]; [|done].
  destruct (forEachThrowing _ roots initialState) as [c'|] eqn:Hrun; [|done].
  intros [= <-].
  erewrite (forEachThrowing_more_fuel _ _ roots); [done| |exact Hrun].
  intros x st c''. apply addActivityAndDependents_more_fuel.
Qed.

(** The bound of [getDisplayActivities], and every larger one, is never
    reached. *)
Lemma getDisplayActivitiesFuel_result extra :
  completionFuel (S (length allMaintenanceActivities) + extra) sudsId allMaintenanceActivities
  = Some completion.
Proof.
  pose proof (getDisplayActivitiesFuel_value (S (length allMaintenanceActivities))) as Hv.
  rewrite getDisplayActivitiesFuelValue_result in Hv by lia.
  unfold getDisplayActivities.
  destruct (completionFuel (S (length allMaintenanceActivities)) sudsId allMaintenanceActivities)
    as [c|] eqn:Hrun; [|done].
  by apply getDisplayActivitiesFuel_more_fuel.
Qed.

Lemma getDisplayActivities_Normal shown : completion = Normal shown → shown = value.
Proof.
  pose proof (getDisplayActivitiesFuel_value (S (length allMaintenanceActivities))) as Hv.
  rewrite getDisplayActivitiesFuelValue_result in Hv by lia.
  unfold getDisplayActivities.
  destruct (completionFuel (S (length allMaintenanceActivities)) sudsId allMaintenanceActivities)
    as [[out|]|]; simpl; [|done|done].
  intros [= <-]. by injection Hv.
Qed.

(** The call returns when neither the sort of the top-level records nor the
    sort of the dependents of a record of the installation type throws. *)
Lemma getDisplayActivities_no_throw :
  topLevelActivities categories definedActivityNames sudsActs ≠ TypeError →
  (∀ r, r ∈ sudsActs → sortedDependents categories definedActivityNames actMap r ≠ TypeError) →
  completion = Normal value.
Proof.
  intros Hroots Hdeps.
  pose proof (getDisplayActivitiesFuel_result 0) as Hrun.
  pose proof (getDisplayActivities_Normal) as Hvalue.
  destruct completion as [shown|] eqn:Hshown; [by rewrite (Hvalue shown)|].
  exfalso. revert Hrun. unfold getDisplayActivitiesFuel.
  destruct (topLevelActivities _ _ sudsActs) as [roots|] eqn:Hsorted; [|done].
  pose proof (forEachThrowing_no_throw (λ r, r ∈ sudsActs)
                (λ act, addActivityAndDependents categories definedActivityNames actMap
                          (S (length allMaintenanceActivities) + 0) act false)
                roots) as Hno.
  destruct (forEachThrowing _ roots initialState) as [[st|]|] eqn:Hfor; simpl; [done| |done].
  intros _. eapply Hno; [| |exact Hfor].
  - intros x st Hx. by apply (addActivityAndDependents_no_throw actMap (λ r, r ∈ sudsActs)
                                 (λ k r Hr, proj1 (buildActivityMap_lookup _ _ _ Hr)) Hdeps).
  - intros x Hx. rewrite (topLevelActivities_Normal _ _ Hsorted) in Hx.
    by apply elem_of_topLevelActivitiesValue in Hx as [? _].
Qed.



Lemma getDisplayActivities_answers :
  CategoriesLookUpArrays definedActivityNames sudsActs → completion = Normal value.
Proof.
  intros Hsafe. apply getDisplayActivities_no_throw.
  - by rewrite topLevelActivities_answers.
  - intros r _. rewrite sortedDependents_answers; [done|].
    intros k r' [Hr' _]%buildActivityMap_lookup. by apply Hsafe.
Qed.

End ResolverAndValue.

(** ** The resolver on the sample data *)

Local Abbreviation sampleDisplay :=
  (getDisplayActivities sampleCategories sampleDefinedActivityNames).

(** The ordering example of the specification. *)
Example display_ordering_example :
  sampleDisplay "s1" [pruneAlone; sweepAlone; inspectAlone]
  = Normal [mkDisplay sweepAlone false; mkDisplay inspectAlone false;
            mkDisplay pruneAlone false].
Proof. vm_compute. reflexivity. Qed.

(** A two-record cycle leaves no top-level record: nothing is displayed. *)
Example display_cycle_example :
  sampleDisplay "s1" [sweepInCycle; inspectInCycle] = Normal [].
Proof. vm_compute. reflexivity. Qed.

(** Below a top-level record the cycle is walked once around. *)
Example display_cycle_below_root_example :
  sampleDisplay "s1" [sweepInCycle; inspectInCycle; pruneAboveCycle]
  = Normal [mkDisplay pruneAboveCycle false; mkDisplay sweepInCycle true;
            mkDisplay inspectInCycle true].
Proof. vm_compute. reflexivity. Qed.

(** Two records of a category that is not in the category order and names a
    member of [Object.prototype]: their comparison throws. *)
Example display_throws_example :
  sampleDisplay "s1" [constructorSweep; constructorInspect] = TypeError.
Proof. vm_compute. reflexivity. Qed.

(** Membership in a list of samples and the like. *)
Ltac decide_by_computation := apply (bool_decide_unpack _); vm_compute; exact I.

(** Case analysis on membership in an explicit list. *)
Ltac list_cases H :=
  repeat (apply elem_of_cons in H as [->|H]); [..|by apply elem_of_nil in H].

(** ** The resolver's claims *)

(** C1, counterexample: with two applicable records that list each other the
    result is empty, so neither applicable record is displayed; and with two
    applicable records whose category names an inherited member of
    [Object.prototype] the call throws, so nothing is displayed either. *)
Lemma display_completeness_fails_on_cycle :
  sampleDisplay "s1" [sweepInCycle; inspectInCycle] = Normal [] ∧
  ¬ DisplaysEveryApplicableOnce sampleCategories sampleDefinedActivityNames "s1"
      [sweepInCycle; inspectInCycle] ∧
  sampleDisplay "s1" [constructorSweep; constructorInspect] = TypeError ∧
  ¬ DisplaysEveryApplicableOnce sampleCategories sampleDefinedActivityNames "s1"
      [constructorSweep; constructorInspect].
Proof.
  split; [exact display_cycle_example|]. split; [|split; [exact display_throws_example|]].
  - intros (shown & Hshown & Hall & _).
    rewrite display_cycle_example in Hshown. injection Hshown as <-.
    specialize (Hall sweepInCycle).
    assert (sweepInCycle ∈ [sweepInCycle; inspectInCycle]) as Hin by (by left).
    specialize (Hall Hin eq_refl eq_refl). discriminate.
  - intros (shown & Hshown & _). by rewrite display_throws_example in Hshown.
Qed.

(** C1, as amended: let the record ids be unique.  The call returns when the
    lookup of the category of every record of the installation type with
    [applies = true] answers an array (no comparison throws then).  Whenever
    it returns, every reachable record (a top-level record, or a record of the
    installation type with [applies = true] listed by a reachable record) is
    displayed exactly once, and every displayed record is a record of the input
    that belongs to the installation type and has [applies = true]. *)
Theorem display_reachable_exactly_once (categories : list string)
    (definedActivityNames : gmap string (list string)) (sudsId : string)
    (allMaintenanceActivities : list MaintenanceActivity) :
  NoDup (id <$> allMaintenanceActivities) →
  (CategoriesLookUpArrays definedActivityNames
     (sudsActivitiesOf sudsId allMaintenanceActivities) →
   ∃ shown,
     getDisplayActivities categories definedActivityNames sudsId allMaintenanceActivities
     = Normal shown) ∧
  (∀ shown,
     getDisplayActivities categories definedActivityNames sudsId allMaintenanceActivities
     = Normal shown →
     (∀ r, Reachable (sudsActivitiesOf sudsId allMaintenanceActivities) r →
           timesDisplayed r shown = 1%nat) ∧
     (∀ e, e ∈ shown →
           activity e ∈ allMaintenanceActivities ∧
           sudsTypeId (activity e) = sudsId ∧ applies (activity e) = true)).
Proof.
  intros Hnd. split.
  - intros Hsafe. eexists. by apply getDisplayActivities_answers.
  - intros shown ->%getDisplayActivities_Normal. split.
    + intros r Hr.
      destruct (reachable_displayed categories definedActivityNames sudsId
                  allMaintenanceActivities Hnd r Hr) as (e & He & Her).
      eapply timesDisplayed_once; eauto using result_NoDup.
    + intros e He. apply elem_of_sudsActivitiesOf. by eapply result_in_suds.
Qed.

Lemma sample_ids_unique : NoDup (id <$> [sweepWithInspect; inspectAlone; pruneAlone]).
Proof. apply (bool_decide_unpack _). vm_compute. exact I. Defined.

Lemma display_reachable_exactly_once_witness :
  (CategoriesLookUpArrays sampleDefinedActivityNames
     (sudsActivitiesOf "s1" [sweepWithInspect; inspectAlone; pruneAlone]) →
   ∃ shown, sampleDisplay "s1" [sweepWithInspect; inspectAlone; pruneAlone] = Normal shown) ∧
  (∀ shown,
     sampleDisplay "s1" [sweepWithInspect; inspectAlone; pruneAlone] = Normal shown →
     (∀ r, Reachable (sudsActivitiesOf "s1" [sweepWithInspect; inspectAlone; pruneAlone]) r →
           timesDisplayed r shown = 1%nat) ∧
     (∀ e, e ∈ shown →
           activity e ∈ [sweepWithInspect; inspectAlone; pruneAlone] ∧
           sudsTypeId (activity e) = "s1"%string ∧ applies (activity e) = true)).
Proof.
  exact (display_reachable_exactly_once sampleCategories sampleDefinedActivityNames "s1"
           [sweepWithInspect; inspectAlone; pruneAlone] sample_ids_unique).
Defined.

(** C2: the call completes for every input, whatever the
    [dependentActivities] edges are: the recursion bound of
    [getDisplayActivities], and every larger one, is never reached, so the call
    returns or ends with the exception of a comparison.  When it returns, no id
    occurs twice in the result. *)
Theorem display_terminates_without_duplicates (categories : list string)
    (definedActivityNames : gmap string (list string)) (sudsId : string)
    (allMaintenanceActivities : list MaintenanceActivity) (extra : nat) :
  getDisplayActivitiesFuel categories definedActivityNames
    (S (length allMaintenanceActivities) + extra) sudsId allMaintenanceActivities
  = Some (getDisplayActivities categories definedActivityNames sudsId allMaintenanceActivities) ∧
  (∀ shown,
     getDisplayActivities categories definedActivityNames sudsId allMaintenanceActivities
     = Normal shown →
     NoDup (displayId <$> shown)).
Proof.
  split; [apply getDisplayActivitiesFuel_result|].
  intros shown ->%getDisplayActivities_Normal. apply result_NoDup.
Qed.

Section RootsAndDependents.

Variable categories : list string.
Variable definedActivityNames : gmap string (list string).
Variable sudsId : string.
Variable allMaintenanceActivities : list MaintenanceActivity.

Local Abbreviation sudsActs := (sudsActivitiesOf sudsId allMaintenanceActivities).
Local Abbreviation actMap := (buildActivityMap sudsActs).
Local Abbreviation roots := (topLevelActivitiesValue categories definedActivityNames sudsActs).
Local Abbreviation deps := (sortedDependentsValue categories definedActivityNames actMap).
Local Abbreviation result :=
  (getDisplayActivitiesValue categories definedActivityNames sudsId allMaintenanceActivities).

Hypothesis ids_unique : NoDup (id <$> allMaintenanceActivities).

(** While the roots in front of [X] are walked, [X] itself is not appended. *)
Lemma root_fresh_after_prefix X pre post d1 :
  roots = pre ++ X :: post →
  VisitAll categories definedActivityNames actMap false pre ∅ d1 →
  id X ∉ idsOf d1.
Proof.
  intros Hsplit Hv1 (e & He & Hid)%elem_of_idsOf.
  assert (∀ x, x ∈ pre → x ∈ sudsActs) as Hpre.
  { intros x Hx. apply (roots_in_suds categories definedActivityNames).
    rewrite Hsplit. apply elem_of_app. by left. }
  assert (id X ∉ allDependentIds sudsActs) as Hroot.
  { assert (X ∈ roots) as HX by (rewrite Hsplit; set_solver).
    by apply elem_of_topLevelActivitiesValue in HX as [_ ?]. }
  destruct (walk_dependent_claimed categories definedActivityNames sudsId
              allMaintenanceActivities false pre ∅ d1 e Hv1 Hpre He)
    as [[_ Hin]|(_ & e' & _ & He' & Hlist)].
  - pose proof (topLevelActivitiesValue_NoDup categories definedActivityNames sudsActs
                  (sudsActivitiesOf_NoDup sudsId _ ids_unique)) as Hnd.
    rewrite Hsplit, fmap_app, fmap_cons in Hnd.
    apply NoDup_app in Hnd as (_ & Hdisj & _).
    apply (Hdisj (id X)); [|by left].
    rewrite <- Hid. by apply (list_elem_of_fmap_2 id).
  - apply Hroot, elem_of_allDependentIds. exists (activity e'). by rewrite <- Hid.
Qed.

Lemma dependent_directly_after_root X Y ys :
  X ∈ sudsActs → id X ∉ allDependentIds sudsActs →
  (∀ r, r ∈ sudsActs → id Y ∈ default [] (dependentActivities r) → r = X) →
  deps X = Y :: ys →
  DisplayedAdjacent result X Y.
Proof.
  intros HX Hroot Honly Hdeps.
  assert (Y ∈ deps X) as HYdep by (rewrite Hdeps; by left).
  apply sortedDependentsValue_claims in HYdep as [HY HYlisted].
  assert (id Y ∈ allDependentIds sudsActs) as HYclaimed.
  { apply elem_of_allDependentIds. eauto. }
  assert (X ∈ roots) as HXroot by (by apply elem_of_topLevelActivitiesValue).
  apply list_elem_of_split in HXroot as (pre & post & Hsplit).
  pose proof (getDisplayActivitiesValue_walk categories definedActivityNames sudsId
                allMaintenanceActivities) as Hwalk.
  rewrite Hsplit in Hwalk.
  apply visitAll_app_inv in Hwalk as (d1 & d2 & Hout & Hv1 & Hv2).
  inversion Hv2 as [|? ? ? ? dx d3 HvX Hrest]; subst.
  pose proof (root_fresh_after_prefix X pre post d1 Hsplit Hv1) as HXfresh.
  assert (id Y ∉ idsOf d1) as HYfresh.
  { intros (e & He & Hid)%elem_of_idsOf.
    assert (∀ x, x ∈ pre → x ∈ sudsActs) as Hpre.
    { intros x Hx. apply (roots_in_suds categories definedActivityNames).
      rewrite Hsplit. apply elem_of_app. by left. }
    destruct (walk_dependent_claimed categories definedActivityNames sudsId
                allMaintenanceActivities false pre ∅ d1 e Hv1 Hpre He)
      as [[_ Hin]|(_ & e' & He' & He's & Hlist)].
    - assert (activity e ∈ roots) as Hr by (rewrite Hsplit; apply elem_of_app; by left).
      apply elem_of_topLevelActivitiesValue in Hr as [_ Hr]. apply Hr.
      by rewrite <- Hid in HYclaimed.
    - rewrite Hid in Hlist. apply Honly in Hlist; [|done].
      apply HXfresh, elem_of_idsOf. exists e'. by rewrite <- Hlist. }
  apply visit_first_dependent with (y := Y) (ys := ys) in HvX as [rest ->];
    [|set_solver|done|set_solver|congruence].
  exists (length d1). rewrite Hout. split.
  - rewrite lookup_app_r by lia. by replace (length d1 - length d1)%nat with 0%nat by lia.
  - rewrite lookup_app_r by lia. by replace (S (length d1) - length d1)%nat with 1%nat by lia.
Qed.

(** The specification's own case: [Y] is the only id that [X] lists. *)
Lemma only_dependent_directly_after_root X Y :
  X ∈ sudsActs → id X ∉ allDependentIds sudsActs → Y ∈ sudsActs →
  dependentActivities X = Some [id Y] →
  (∀ r, r ∈ sudsActs → id Y ∈ default [] (dependentActivities r) → r = X) →
  DisplayedAdjacent result X Y.
Proof.
  intros HX Hroot HY Hlist Honly.
  apply (dependent_directly_after_root X Y []); [done..|].
  unfold sortedDependentsValue. rewrite Hlist. simpl.
  by rewrite (buildActivityMap_unique sudsActs Y
                (sudsActivitiesOf_NoDup sudsId _ ids_unique) HY).
Qed.


End RootsAndDependents.








(** ** The comparator's claim *)

Lemma StronglySorted_weaken {A} (R R' : A → A → Prop) (l : list A) :
  (∀ x y, R x y → R' x y) → StronglySorted R l → StronglySorted R' l.
Proof.
  intros HR. induction 1 as [|x l Hs IH Hall]; constructor; [done|].
  eapply Forall_impl; [exact Hall|]. intros y. apply HR.
Qed.

(** C3, counterexample: a record whose category is not in the category order
    is sorted in front of a record whose category is, not behind it. *)
Lemma unlisted_category_sorts_first :
  topLevelActivities sampleCategories sampleDefinedActivityNames [sweepAlone; unlistedCategory]
  = Normal [unlistedCategory; sweepAlone] ∧
  ¬ UnlistedCategoriesSortLast sampleCategories sampleDefinedActivityNames
      [sweepAlone; unlistedCategory].
Proof.
  split; [vm_compute; reflexivity|].
  intros (sorted & Hsorted & Hlast).
  assert (sorted = [unlistedCategory; sweepAlone]) as ->.
  { vm_compute in Hsorted. by injection Hsorted. }
  assert (1 < 0)%nat; [|lia].
  apply (Hlast 0%nat 1%nat unlistedCategory sweepAlone).
  - reflexivity.
  - reflexivity.
  - decide_by_computation.
  - decide_by_computation.
Qed.

(** The same for a name that is not in the definition order of its category. *)
Example unlisted_name_sorts_first :
  topLevelActivities sampleCategories sampleDefinedActivityNames [sweepAlone; unlistedName]
  = Normal [unlistedName; sweepAlone].
Proof. vm_compute. reflexivity. Qed.

(** C3, as amended.  The comparator throws exactly when the two categories
    have the same index in the category order and the lookup of one of them
    answers an inherited member of [Object.prototype]; otherwise it compares
    the pair (index of the category in the category order, index of the name in
    the definition order of the record's category) lexicographically, where a
    category or name that is not listed has index [-1].  Sorting with it
    throws exactly when a record whose category looks up an inherited member
    has the category index of another record of the array, and so returns when
    every lookup answers an array; whenever it returns, the result is a sorted
    permutation in which records with equal pairs keep their
    encounter order, a record with an unlisted category stands in front of
    every record with a listed one, and, within one category, a record with an
    unlisted name stands in front of every record with a listed one.  The
    top-level records and the resolved dependents of a record are sorted with
    this one comparator. *)
Theorem comparator_orders_by_index_pairs (categories : list string)
    (definedActivityNames : gmap string (list string)) :
  (∀ a b,
     (compareActivities categories definedActivityNames a b = TypeError ↔
      indexOf categories (category a) = indexOf categories (category b) ∧
      (namesFor definedActivityNames (category a) = None ∨
       namesFor definedActivityNames (category b) = None)) ∧
     (∀ z, compareActivities categories definedActivityNames a b = Normal z →
        (z < 0 ↔
         keyLt (sortKey categories definedActivityNames a)
           (sortKey categories definedActivityNames b)) ∧
        (z ≤ 0 ↔
         keyLe (sortKey categories definedActivityNames a)
           (sortKey categories definedActivityNames b)))) ∧
  (∀ a,
     (category a ∉ categories → (sortKey categories definedActivityNames a).1 = -1) ∧
     (category a ∈ categories → 0 ≤ (sortKey categories definedActivityNames a).1) ∧
     (activityName a ∉ definedNames definedActivityNames (category a) →
      (sortKey categories definedActivityNames a).2 = -1) ∧
     (activityName a ∈ definedNames definedActivityNames (category a) →
      0 ≤ (sortKey categories definedActivityNames a).2)) ∧
  (∀ l,
     (jsSortThrowing (compareActivities categories definedActivityNames) l = TypeError ↔
      ComparisonThrows categories definedActivityNames l) ∧
     (CategoriesLookUpArrays definedActivityNames l →
      ∃ sorted,
        jsSortThrowing (compareActivities categories definedActivityNames) l = Normal sorted) ∧
     (∀ sorted,
        jsSortThrowing (compareActivities categories definedActivityNames) l = Normal sorted →
        sorted ≡ₚ l ∧
        StronglySorted
          (λ a b, keyLe (sortKey categories definedActivityNames a)
                    (sortKey categories definedActivityNames b))
          sorted ∧
        (∀ k, filter (λ a, sortKey categories definedActivityNames a = k) sorted
              = filter (λ a, sortKey categories definedActivityNames a = k) l) ∧
        (∀ (i j : nat) a b,
           sorted !! i = Some a → sorted !! j = Some b →
           ((category a ∉ categories) ∧ category b ∈ categories) ∨
           (category a = category b ∧
            (activityName a ∉ definedNames definedActivityNames (category a)) ∧
            activityName b ∈ definedNames definedActivityNames (category b)) →
           (i < j)%nat))) ∧
  (∀ sudsActivities,
     topLevelActivities categories definedActivityNames sudsActivities
     = jsSortThrowing (compareActivities categories definedActivityNames)
         (filter (λ act, id act ∉ allDependentIds sudsActivities) sudsActivities)) ∧
  (∀ activityMap act,
     sortedDependents categories definedActivityNames activityMap act
     = jsSortThrowing (compareActivities categories definedActivityNames)
         (omap (λ depId, activityMap !! depId) (default [] (dependentActivities act)))).
Proof.
  split; [|split; [|split; [|split]]].
  - intros a b. split; [apply compareActivities_TypeError|].
    intros z ->%compareActivities_Normal.
    split; [apply compareActivitiesValue_lt | apply compareActivitiesValue_le].
  - intros a. unfold sortKey. simpl. split; [apply indexOf_absent|].
    split; [intros H; apply indexOf_present in H; lia|].
    split; [apply indexOf_absent|]. intros H; apply indexOf_present in H; lia.
  - intros l. split; [apply sortActivitiesThrowing_TypeError|]. split.
    + intros Hsafe. eexists. by apply sortActivitiesThrowing_answers.
    + intros sorted ->%sortActivitiesThrowing_Normal.
      split; [apply jsSort_Permutation|].
      split; [|split; [intros k; apply sortActivities_stable|]].
      * eapply StronglySorted_weaken; [|apply sortActivities_sorted].
        intros x y. apply compareActivitiesValue_le.
      * intros i j a b Hi Hj Hcase.
        eapply sortActivities_before; eauto.
        destruct Hcase as [[Ha Hb]|(Hc & Ha & Hb)].
        -- by apply compareActivitiesValue_unknown_category.
        -- by apply compareActivitiesValue_unknown_name.
  - reflexivity.
  - reflexivity.
Qed.

(** ** Facts about the reorder handlers *)

Lemma findIndexFrom_skip init l sudsId i :
  sudsId ∉ (SudsType.id <$> init) →
  findIndexFrom (init ++ l) sudsId i = findIndexFrom l sudsId (i + Z.of_nat (length init)).
Proof.
  revert i. induction init as [|s init IH]; intros i Hnin; simpl.
  - f_equal. lia.
  - rewrite fmap_cons in Hnin. apply not_elem_of_cons in Hnin as [Hne Hnin].
    destruct (decide (SudsType.id s = sudsId)); [congruence|].
    rewrite IH by done. f_equal. lia.
Qed.

Lemma findIndex_absent l sudsId : sudsId ∉ (SudsType.id <$> l) → findIndex l sudsId = -1.
Proof.
  intros Hnin. unfold findIndex.
  rewrite <- (app_nil_r l), findIndexFrom_skip by done. reflexivity.
Qed.

Lemma findIndex_first s rest : findIndex (s :: rest) (SudsType.id s) = 0.
Proof. unfold findIndex. simpl. by destruct (decide _). Qed.

Lemma findIndex_last init s :
  SudsType.id s ∉ (SudsType.id <$> init) →
  findIndex (init ++ [s]) (SudsType.id s) = Z.of_nat (length init).
Proof.
  intros Hnin. unfold findIndex. rewrite findIndexFrom_skip by done.
  simpl. by destruct (decide _).
Qed.

Lemma moveSudsTypeBatch_absent sudsId direction currentSudsTypes :
  sudsId ∉ (SudsType.id <$> currentSudsTypes) →
  moveSudsTypeBatch sudsId direction currentSudsTypes = NoWrite.
Proof.
  intros Hnin. unfold moveSudsTypeBatch, newSudsTypesOrder.
  rewrite findIndex_absent by done. by destruct (decide _).
Qed.

Lemma moveSudsTypeBatch_up_first s rest :
  moveSudsTypeBatch (SudsType.id s) "up" (s :: rest) = NoWrite.
Proof.
  unfold moveSudsTypeBatch, newSudsTypesOrder. rewrite findIndex_first.
  destruct (decide (0 = -1)); [done|].
  destruct (decide (_ ∧ 0 > 0)) as [[_ ?]|_]; [lia|].
  destruct (decide ("up"%string = "down"%string ∧ _)) as [[? _]|_]; done.
Qed.

Lemma moveSudsTypeBatch_down_last init s :
  SudsType.id s ∉ (SudsType.id <$> init) →
  moveSudsTypeBatch (SudsType.id s) "down" (init ++ [s]) = NoWrite.
Proof.
  intros Hnin. unfold moveSudsTypeBatch, newSudsTypesOrder.
  rewrite findIndex_last by done.
  destruct (decide (_ = -1)); [done|].
  destruct (decide ("down"%string = "up"%string ∧ _)) as [[? _]|_]; [done|].
  destruct (decide (_ ∧ _)) as [[_ Hlt]|_]; [|done].
  rewrite length_fmap, length_app in Hlt. simpl in Hlt. lia.
Qed.

Lemma handleMoveSudsType_NoWrite Store commit sudsId direction currentSudsTypes
    (w : World Store) :
  moveSudsTypeBatch sudsId direction currentSudsTypes = NoWrite →
  handleMoveSudsType Store commit sudsId direction currentSudsTypes w = w ∧
  ∀ userRole,
    handleMoveSudsTypeGated Store commit userRole sudsId direction currentSudsTypes w = w.
Proof.
  intros Hplan.
  unfold handleMoveSudsTypeGated, handleMoveSudsType, handleMoveSudsTypeScript.
  rewrite Hplan. split; [done|]. intros userRole. by destruct (decide _).
Qed.

(** Moving the middle of three up. *)
Lemma newSudsTypesOrder_middle_up A B C :
  SudsType.id A ≠ SudsType.id B →
  newSudsTypesOrder (SudsType.id B) "up" [A; B; C] = Some [Some B; Some A; Some C].
Proof.
  intros Hne. unfold newSudsTypesOrder, findIndex. simpl.
  destruct (decide (SudsType.id A = SudsType.id B)); [done|].
  destruct (decide (SudsType.id B = SudsType.id B)); [|done].
  reflexivity.
Qed.

Lemma moveSudsTypeBatch_middle_up A B C :
  SudsType.id A ≠ SudsType.id B →
  SudsType.order A = Some 0 → SudsType.order B = Some 1 → SudsType.order C = Some 2 →
  moveSudsTypeBatch (SudsType.id B) "up" [A; B; C]
  = Issue [mkOrderUpdate (SudsType.id B) 0; mkOrderUpdate (SudsType.id A) 1].
Proof.
  intros Hne HA HB HC. unfold moveSudsTypeBatch.
  rewrite newSudsTypesOrder_middle_up by done. simpl. rewrite HA, HB, HC. reflexivity.
Qed.

(** An absent name gives index [-1]; moving it towards the end passes the
    bounds test of any non-empty list, and the swap then stores [undefined] at
    position [0]. *)
Lemma swapEntries_minus_one {A} (x : option A) (arr : list (option A)) :
  swapEntries (x :: arr) (-1 + 1) (-1) = None :: arr.
Proof. reflexivity. Qed.

Lemma moveCategoryWrite_absent_up categories categoryToMove :
  categoryToMove ∉ categories → moveCategoryWrite categories categoryToMove "up" = NoWrite.
Proof.
  intros Hnin. unfold moveCategoryWrite. rewrite indexOf_absent by done.
  destruct (decide (_ ∧ -1 > 0)) as [[_ ?]|_]; [lia|].
  destruct (decide ("up"%string = "down"%string ∧ _)) as [[? _]|_]; done.
Qed.

Lemma moveCategoryWrite_absent_down c categories categoryToMove :
  categoryToMove ∉ c :: categories →
  moveCategoryWrite (c :: categories) categoryToMove "down"
  = Issue (None :: (Some <$> categories)).
Proof.
  intros Hnin. unfold moveCategoryWrite. rewrite indexOf_absent by done.
  destruct (decide ("down"%string = "up"%string ∧ _)) as [[? _]|_]; [done|].
  destruct (decide (_ ∧ _)) as [_|Hno].
  - by rewrite fmap_cons, swapEntries_minus_one.
  - exfalso. apply Hno. split; [done|]. rewrite length_fmap. simpl. lia.
Qed.

Lemma moveActivityColumnWrite_absent_right category n names activityName
    (currentDefinedActivityNames : gmap string (list string)) :
  currentDefinedActivityNames !! category = Some (n :: names) →
  activityName ∉ n :: names →
  moveActivityColumnWrite category activityName "right" currentDefinedActivityNames
  = Issue (<[category := None :: (Some <$> names)]>
             ((λ l : list string, Some <$> l) <$> currentDefinedActivityNames)).
Proof.
  intros Hl Hnin. unfold moveActivityColumnWrite, namesFor. rewrite Hl. simpl.
  rewrite indexOf_absent by done.
  destruct (decide (_ ∧ _)) as [_|Hno].
  - by rewrite swapEntries_minus_one.
  - exfalso. apply Hno. split; [done|]. lia.
Qed.





(** ** The reorder handlers' claims *)

(** Moving the middle type up against the simulated store leaves the orders
    B:0, A:1, C:2 behind and shows nothing. *)
Example move_middle_up_stored :
  handleMoveSudsType Documents (simulatedCommit sampleNewDocId) "b" "up" [typeA; typeB; typeC]
    sampleWorld
  = mkWorld
      (mkDocuments
         (<["a"%string := SudsType.mk "a" "A" (Some 1)]>
            (<["b"%string := SudsType.mk "b" "B" (Some 0)]> (<["c"%string := typeC]> ∅)))
         sampleCategories sampleDefinedActivityNames ∅)
      sampleMemory [].
Proof. vm_compute. reflexivity. Qed.

(** C6: [handleMoveSudsType] with direction up on the first element, or with
    direction down on the last element (its id occurring nowhere before it),
    reaches no write and leaves the world as it was.  For [A; B; C] with stored
    orders 0, 1, 2 (and [B]'s id different from [A]'s), moving [B] up computes
    the order [B; A; C], and the handler hands the persistence layer the batch
    that sets [B] to 0 and [A] to 1, with no update for [C]: the world
    afterwards is what the commit of that batch leaves (with the error message
    added when it is rejected).  The second version does the same for every
    role but the reader's. *)
Theorem move_suds_type_boundaries_and_middle (Store : Type)
    (commit : WriteRequest → Store → Reply Store) (w : World Store) (userRole : string)
    (first last A B C : SudsType.t) (rest init : list SudsType.t) :
  SudsType.id last ∉ (SudsType.id <$> init) →
  SudsType.id A ≠ SudsType.id B →
  SudsType.order A = Some 0 → SudsType.order B = Some 1 → SudsType.order C = Some 2 →
  (moveSudsTypeBatch (SudsType.id first) "up" (first :: rest) = NoWrite ∧
   handleMoveSudsType Store commit (SudsType.id first) "up" (first :: rest) w = w ∧
   handleMoveSudsTypeGated Store commit userRole (SudsType.id first) "up" (first :: rest) w = w) ∧
  (moveSudsTypeBatch (SudsType.id last) "down" (init ++ [last]) = NoWrite ∧
   handleMoveSudsType Store commit (SudsType.id last) "down" (init ++ [last]) w = w ∧
   handleMoveSudsTypeGated Store commit userRole (SudsType.id last) "down" (init ++ [last]) w = w) ∧
  (newSudsTypesOrder (SudsType.id B) "up" [A; B; C] = Some [Some B; Some A; Some C] ∧
   moveSudsTypeBatch (SudsType.id B) "up" [A; B; C]
   = Issue [mkOrderUpdate (SudsType.id B) 0; mkOrderUpdate (SudsType.id A) 1] ∧
   handleMoveSudsTypeScript (SudsType.id B) "up" [A; B; C]
   = Await (SudsTypeBatch [mkOrderUpdate (SudsType.id B) 0; mkOrderUpdate (SudsType.id A) 1])
       Return
       (λ message, ShowCustomModal ("Error al mover el tipo de SUDS: " +:+ message) Return) ∧
   handleMoveSudsType Store commit (SudsType.id B) "up" [A; B; C] w
   = match commit
             (SudsTypeBatch [mkOrderUpdate (SudsType.id B) 0; mkOrderUpdate (SudsType.id A) 1])
             (persisted w) with
     | Acknowledged store => mkWorld store (memory w) (modalMessages w)
     | Rejected message store =>
         mkWorld store (memory w)
           (modalMessages w ++ ["Error al mover el tipo de SUDS: " +:+ message])
     end ∧
   (userRole ≠ ROLES_READER →
    handleMoveSudsTypeGated Store commit userRole (SudsType.id B) "up" [A; B; C] w
    = handleMoveSudsType Store commit (SudsType.id B) "up" [A; B; C] w)).
Proof.
  intros Hlast Hne HA HB HC. split; [|split].
  - pose proof (moveSudsTypeBatch_up_first first rest) as Hplan.
    destruct (handleMoveSudsType_NoWrite Store commit _ _ _ w Hplan) as [H1 H2]. auto.
  - pose proof (moveSudsTypeBatch_down_last init last Hlast) as Hplan.
    destruct (handleMoveSudsType_NoWrite Store commit _ _ _ w Hplan) as [H1 H2]. auto.
  - pose proof (moveSudsTypeBatch_middle_up A B C Hne HA HB HC) as Hplan.
    split; [by apply newSudsTypesOrder_middle_up|]. split; [done|].
    split; [|split].
    + unfold handleMoveSudsTypeScript. by rewrite Hplan.
    + unfold handleMoveSudsType, handleMoveSudsTypeScript. rewrite Hplan. simpl.
      by destruct (commit _ _).
    + intros Hrole. unfold handleMoveSudsTypeGated. by destruct (decide _).
Qed.

Lemma typeC_not_before : SudsType.id typeC ∉ (SudsType.id <$> [typeA; typeB]).
Proof. decide_by_computation. Defined.

Lemma move_suds_type_boundaries_and_middle_witness :
  (moveSudsTypeBatch "a" "up" [typeA; typeB; typeC] = NoWrite ∧
   handleMoveSudsType Documents (simulatedCommit sampleNewDocId) "a" "up"
     [typeA; typeB; typeC] sampleWorld = sampleWorld ∧
   handleMoveSudsTypeGated Documents (simulatedCommit sampleNewDocId) ROLES_MASTER "a" "up"
     [typeA; typeB; typeC] sampleWorld = sampleWorld) ∧
  (moveSudsTypeBatch "c" "down" [typeA; typeB; typeC] = NoWrite ∧
   handleMoveSudsType Documents (simulatedCommit sampleNewDocId) "c" "down"
     [typeA; typeB; typeC] sampleWorld = sampleWorld ∧
   handleMoveSudsTypeGated Documents (simulatedCommit sampleNewDocId) ROLES_MASTER "c" "down"
     [typeA; typeB; typeC] sampleWorld = sampleWorld) ∧
  (newSudsTypesOrder "b" "up" [typeA; typeB; typeC] = Some [Some typeB; Some typeA; Some typeC] ∧
   moveSudsTypeBatch "b" "up" [typeA; typeB; typeC]
   = Issue [mkOrderUpdate "b" 0; mkOrderUpdate "a" 1] ∧
   handleMoveSudsTypeScript "b" "up" [typeA; typeB; typeC]
   = Await (SudsTypeBatch [mkOrderUpdate "b" 0; mkOrderUpdate "a" 1]) Return
       (λ message, ShowCustomModal ("Error al mover el tipo de SUDS: " +:+ message) Return) ∧
   handleMoveSudsType Documents (simulatedCommit sampleNewDocId) "b" "up"
     [typeA; typeB; typeC] sampleWorld
   = match simulatedCommit sampleNewDocId
             (SudsTypeBatch [mkOrderUpdate "b" 0; mkOrderUpdate "a" 1])
             (persisted sampleWorld) with
     | Acknowledged store => mkWorld store (memory sampleWorld) (modalMessages sampleWorld)
     | Rejected message store =>
         mkWorld store (memory sampleWorld)
           (modalMessages sampleWorld ++ ["Error al mover el tipo de SUDS: " +:+ message])
     end ∧
   (ROLES_MASTER ≠ ROLES_READER →
    handleMoveSudsTypeGated Documents (simulatedCommit sampleNewDocId) ROLES_MASTER "b" "up"
      [typeA; typeB; typeC] sampleWorld
    = handleMoveSudsType Documents (simulatedCommit sampleNewDocId) "b" "up"
        [typeA; typeB; typeC] sampleWorld)).
Proof.
  exact (move_suds_type_boundaries_and_middle Documents (simulatedCommit sampleNewDocId)
           sampleWorld ROLES_MASTER typeA typeC typeA typeB typeC [typeB; typeC] [typeA; typeB]
           typeC_not_before ltac:(discriminate) eq_refl eq_refl eq_refl).
Defined.

(** C10: with an id that no element of the sequence carries,
    [handleMoveSudsType] returns at its first test whatever the direction: no
    swap, no batch, and the stored documents, the component state and the
    shown messages are what they were. *)
Theorem move_suds_type_absent_id (Store : Type)
    (commit : WriteRequest → Store → Reply Store) (w : World Store) (userRole : string)
    (sudsId direction : string) (currentSudsTypes : list SudsType.t) :
  sudsId ∉ (SudsType.id <$> currentSudsTypes) →
  findIndex currentSudsTypes sudsId = -1 ∧
  newSudsTypesOrder sudsId direction currentSudsTypes = None ∧
  moveSudsTypeBatch sudsId direction currentSudsTypes = NoWrite ∧
  handleMoveSudsType Store commit sudsId direction currentSudsTypes w = w ∧
  handleMoveSudsTypeGated Store commit userRole sudsId direction currentSudsTypes w = w.
Proof.
  intros Hnin.
  pose proof (moveSudsTypeBatch_absent sudsId direction currentSudsTypes Hnin) as Hplan.
  destruct (handleMoveSudsType_NoWrite Store commit _ _ _ w Hplan) as [H1 H2].
  split; [by apply findIndex_absent|]. split; [|auto].
  unfold newSudsTypesOrder. rewrite findIndex_absent by done. by destruct (decide _).
Qed.

Lemma unknown_id_absent : "zz"%string ∉ (SudsType.id <$> [typeA; typeB; typeC]).
Proof. decide_by_computation. Defined.

Lemma move_suds_type_absent_id_witness :
  findIndex [typeA; typeB; typeC] "zz" = -1 ∧
  newSudsTypesOrder "zz" "down" [typeA; typeB; typeC] = None ∧
  moveSudsTypeBatch "zz" "down" [typeA; typeB; typeC] = NoWrite ∧
  handleMoveSudsType Documents (simulatedCommit sampleNewDocId) "zz" "down"
    [typeA; typeB; typeC] sampleWorld = sampleWorld ∧
  handleMoveSudsTypeGated Documents (simulatedCommit sampleNewDocId) ROLES_MASTER "zz" "down"
    [typeA; typeB; typeC] sampleWorld = sampleWorld.
Proof.
  exact (move_suds_type_absent_id Documents (simulatedCommit sampleNewDocId) sampleWorld
           ROLES_MASTER "zz" "down" [typeA; typeB; typeC] unknown_id_absent).
Defined.





(** ** The dependency save's claim *)

Example save_dependencies_three_parts :
  saveDependenciesBatch (DependencyTarget.mk "s1" "Sweep" "Cleaning" (Some "sweep"%string))
    ["s1-Cleaning-Inspect"%string] [sweepAlone]
  = [UpdateDependentActivities "sweep" ["s1-Cleaning-Inspect"%string];
     CreateActivity "s1" "Cleaning" "Inspect" []].
Proof. vm_compute. reflexivity. Qed.

Example save_dependencies_switched_off :
  saveDependenciesBatch (DependencyTarget.mk "s1" "Sweep" "Cleaning" (Some "sweep"%string))
    ["inspect"%string] [sweepAlone; inspectSwitchedOff]
  = [UpdateDependentActivities "sweep" ["inspect"%string]; UpdateApplies "inspect"].
Proof. vm_compute. reflexivity. Qed.

(** C9: evaluation at the failing input.  The batch holds the update of the
    primary record and nothing for the ticked id; the commit is acknowledged;
    afterwards the stored Sweep record lists an id under which nothing is
    stored, and Sweep is the only stored record. *)
Theorem save_dependencies_leaves_dangling_id
    (newDocId : gmap string MaintenanceActivity → string) :
  saveDependenciesBatch (DependencyTarget.mk "s1" "Sweep" "Cleaning" (Some "sweep"%string))
    ["s1-Pre-treatment-Rake"%string] [sweepAlone]
  = [UpdateDependentActivities "sweep" ["s1-Pre-treatment-Rake"%string]] ∧
  modalMessages (handleSaveDependencies Documents (simulatedCommit newDocId) danglingWorld)
  = ["Dependencias de actividad guardadas con éxito."%string] ∧
  maintenanceActivitiesDocs
    (persisted (handleSaveDependencies Documents (simulatedCommit newDocId) danglingWorld))
  = <["sweep"%string :=
        mkActivity "sweep" "s1" "Cleaning" "Sweep" true (Some ["s1-Pre-treatment-Rake"%string])]> ∅ ∧
  ¬ DependentsAllApply
      (maintenanceActivitiesDocs
         (persisted (handleSaveDependencies Documents (simulatedCommit newDocId) danglingWorld)))
      "sweep".
Proof.
  assert (maintenanceActivitiesDocs
            (persisted (handleSaveDependencies Documents (simulatedCommit newDocId) danglingWorld))
          = <["sweep"%string :=
                mkActivity "sweep" "s1" "Cleaning" "Sweep" true
                  (Some ["s1-Pre-treatment-Rake"%string])]> ∅) as Hdocs
    by (vm_compute; reflexivity).
  split; [vm_compute; reflexivity|]. split; [vm_compute; reflexivity|].
  split; [exact Hdocs|].
  rewrite Hdocs. intros Hall.
  destruct (Hall _ _ "s1-Pre-treatment-Rake"%string (lookup_insert_eq _ _ _) eq_refl)
    as (act & Hact & _); [by left|].
  rewrite lookup_insert_ne in Hact by done. by rewrite lookup_empty in Hact.
Qed.

(** * Further properties of the code *)

(** ** Catalogue ids and their split *)

Lemma hyphens_app a b : hyphens (a +:+ b) = (hyphens a + hyphens b)%nat.
Proof. induction a as [|c a IH]; simpl; [done|]. rewrite IH. lia. Qed.

Lemma split_nonempty separator s : split separator s ≠ [].
Proof. destruct s as [|c s]; simpl; [done|]. destruct (decide _); [done|]. by destruct (split _ _). Qed.

Lemma length_split_hyphens s : length (split "-" s) = S (hyphens s).
Proof.
  induction s as [|c s IH]; simpl; [done|].
  destruct (decide (c = "-"%char)); simpl; [by rewrite IH|].
  destruct (split "-" s) eqn:Hs; [by apply split_nonempty in Hs|]. simpl in *. lia.
Qed.

Lemma split_hyphen_free s : hyphens s = 0%nat → split "-" s = [s].
Proof.
  induction s as [|c s IH]; simpl; [done|].
  destruct (decide (c = "-"%char)); [done|]. intros Hs. by rewrite IH.
Qed.

Lemma split_app_hyphen a b :
  hyphens a = 0%nat → split "-" (a +:+ "-" +:+ b) = a :: split "-" b.
Proof.
  induction a as [|c a IH]; simpl; [done|].
  destruct (decide (c = "-"%char)); [done|]. intros Ha. by rewrite IH.
Qed.

Lemma split_catalogueId sudsId category' activityName' :
  hyphens sudsId = 0%nat → hyphens category' = 0%nat →
  split "-" (catalogueId sudsId category' activityName')
  = sudsId :: category' :: split "-" activityName'.
Proof.
  intros Hs Hc. unfold catalogueId.
  rewrite split_app_hyphen by done. by rewrite split_app_hyphen.
Qed.

Lemma hyphens_catalogueId sudsId category' activityName' :
  hyphens (catalogueId sudsId category' activityName')
  = (2 + hyphens sudsId + hyphens category' + hyphens activityName')%nat.
Proof. unfold catalogueId. rewrite !hyphens_app. simpl. lia. Qed.

Lemma append_cancel_l a x y : a +:+ x = a +:+ y → x = y.
Proof. induction a as [|c a IH]; simpl; [done|]. intros [= H]. by apply IH. Qed.

(** X1: for a ticked cell without a record, the loop of
    [handleSaveDependencies] creates the record of exactly that cell when none
    of the three components of its catalogue id holds a hyphen, and adds no
    write at all when one of them does. *)
Theorem dependent_created_iff_hyphen_free (maintenanceActivities : list MaintenanceActivity)
    (sudsId category' activityName' : string) :
  findActivity maintenanceActivities (catalogueId sudsId category' activityName') = None →
  dependentWrites maintenanceActivities (catalogueId sudsId category' activityName')
  = if decide (hyphens sudsId + hyphens category' + hyphens activityName' = 0)%nat
    then [CreateActivity sudsId category' activityName' []]
    else [].
Proof.
  intros Hfind. unfold dependentWrites. rewrite Hfind.
  destruct (decide _) as [Hfree|Hhyphen].
  - rewrite split_catalogueId, split_hyphen_free by lia. reflexivity.
  - pose proof (length_split_hyphens (catalogueId sudsId category' activityName')) as Hlen.
    rewrite hyphens_catalogueId in Hlen.
    destruct (split _ _) as [|p1 [|p2 [|p3 [|p4 ps]]]]; simpl in Hlen; try done. lia.
Qed.

Lemma dependent_created_iff_hyphen_free_witness :
  dependentWrites [sweepAlone] (catalogueId "s1" "Cleaning" "Inspect")
  = if decide (hyphens "s1" + hyphens "Cleaning" + hyphens "Inspect" = 0)%nat
    then [CreateActivity "s1" "Cleaning" "Inspect" []]
    else [].
Proof.
  apply (dependent_created_iff_hyphen_free [sweepAlone] "s1" "Cleaning" "Inspect").
  vm_compute. reflexivity.
Defined.

(** X2: two cells whose installation-type ids and categories hold no hyphen
    have the same catalogue id only if they are the same cell. *)
Theorem catalogueId_injective (s1 c1 n1 s2 c2 n2 : string) :
  hyphens s1 = 0%nat → hyphens c1 = 0%nat → hyphens s2 = 0%nat → hyphens c2 = 0%nat →
  catalogueId s1 c1 n1 = catalogueId s2 c2 n2 →
  s1 = s2 ∧ c1 = c2 ∧ n1 = n2.
Proof.
  intros Hs1 Hc1 Hs2 Hc2 Heq.
  pose proof (f_equal (split "-") Heq) as Hsplit.
  rewrite !split_catalogueId in Hsplit by done.
  injection Hsplit as -> -> _. split; [done|]. split; [done|].
  unfold catalogueId in Heq.
  by do 4 apply append_cancel_l in Heq.
Qed.

Lemma catalogueId_injective_witness :
  ("s1" : string) = "s1" ∧ ("Cleaning" : string) = "Cleaning" ∧ ("Pre-rinse" : string) = "Pre-rinse".
Proof.
  exact (catalogueId_injective "s1" "Cleaning" "Pre-rinse" "s1" "Cleaning" "Pre-rinse"
           eq_refl eq_refl eq_refl eq_refl eq_refl).
Defined.

(** With a hyphen in a component two different cells can share an id. *)
Example catalogueId_collision :
  catalogueId "s1" "Pre-treatment" "Rake" = catalogueId "s1-Pre" "treatment" "Rake".
Proof. reflexivity. Qed.

(** ** The catalogue *)

Lemma elem_of_generateAllActivitiesFlatValue (sudsTypes : list SudsType.t) (categories : list string)
    (definedActivityNames : gmap string (list string)) (cell : FlatActivity.t) :
  cell ∈ generateAllActivitiesFlatValue sudsTypes categories definedActivityNames ↔
  ∃ suds, suds ∈ sudsTypes ∧
    FlatActivity.category cell ∈ categories ∧
    FlatActivity.activityName cell ∈ definedNames definedActivityNames (FlatActivity.category cell) ∧
    cell = FlatActivity.mk
             (catalogueId (SudsType.id suds) (FlatActivity.category cell)
                (FlatActivity.activityName cell))
             (SudsType.id suds) (SudsType.name suds) (FlatActivity.category cell)
             (FlatActivity.activityName cell).
Proof.
  unfold generateAllActivitiesFlatValue, definedNames. rewrite list_elem_of_bind. split.
  - intros (suds & (c & (n & -> & Hn)%list_elem_of_fmap & Hc)%list_elem_of_bind & Hs).
    exists suds. simpl. auto.
  - intros (suds & Hs & Hc & Hn & Hcell). exists suds. split; [|done].
    apply list_elem_of_bind. exists (FlatActivity.category cell). split; [|done].
    apply list_elem_of_fmap. exists (FlatActivity.activityName cell). by split.
Qed.

Lemma length_generateAllActivitiesFlatValue (sudsTypes : list SudsType.t) (categories : list string)
    (definedActivityNames : gmap string (list string)) :
  length (generateAllActivitiesFlatValue sudsTypes categories definedActivityNames)
  = (length sudsTypes
     * sum_list_with (λ c, length (definedNames definedActivityNames c)) categories)%nat.
Proof.
  unfold generateAllActivitiesFlatValue, definedNames.
  induction sudsTypes as [|suds sudsTypes IH]; [done|].
  rewrite bind_cons, length_app, IH. simpl. f_equal. clear IH.
  induction categories as [|c categories IHc]; [done|].
  rewrite bind_cons, length_app, IHc, length_fmap. reflexivity.
Qed.

Lemma forEachPush_TypeError {A B} (f : A → Completion (list B)) (l : list A) :
  forEachPush f l = TypeError ↔ ∃ x, x ∈ l ∧ f x = TypeError.
Proof.
  induction l as [|x l IH]; simpl.
  - split; [done | by intros (? & ?%elem_of_nil & _)].
  - destruct (f x) as [pushed|] eqn:Hx; simpl.
    + destruct (forEachPush f l) as [rest|]; simpl.
      * split; [done|]. intros (y & [->|Hy]%elem_of_cons & Hfy); [congruence|].
        assert (Normal rest = TypeError) as Habs by (apply IH; eauto). done.
      * split; [|done]. intros _. destruct (proj1 IH eq_refl) as (y & Hy & Hfy).
        exists y. split; [by right | done].
    + split; [|done]. intros _. exists x. split; [by left | done].
Qed.

Lemma forEachPush_Normal {A B} (f : A → Completion (list B)) (g : A → list B) (l : list A)
    (pushed : list B) :
  (∀ x r, x ∈ l → f x = Normal r → r = g x) →
  forEachPush f l = Normal pushed → pushed = l ≫= g.
Proof.
  revert pushed. induction l as [|x l IH]; intros pushed Hfg.
  - by intros [= <-].
  - rewrite bind_cons. cbn [forEachPush].
    destruct (f x) as [r|] eqn:Hx; [|done].
    destruct (forEachPush f l) as [rest|]; [|done].
    intros [= <-]. rewrite <- (Hfg x r) by (done || by left).
    f_equal. apply IH; [|done]. intros y r' Hy. apply Hfg. by right.
Qed.

Lemma generateAllActivitiesFlat_TypeError (sudsTypes : list SudsType.t)
    (categories : list string) (definedActivityNames : gmap string (list string)) :
  generateAllActivitiesFlat sudsTypes categories definedActivityNames = TypeError ↔
  sudsTypes ≠ [] ∧ ∃ c, c ∈ categories ∧ namesFor definedActivityNames c = None.
Proof.
  unfold generateAllActivitiesFlat. rewrite forEachPush_TypeError. split.
  - intros (suds & Hsuds & (c & Hc & Hthrow)%forEachPush_TypeError).
    split; [by intros ->; apply elem_of_nil in Hsuds|]. exists c. split; [done|].
    by destruct (namesFor definedActivityNames c).
  - intros [Hne (c & Hc & Hnone)]. destruct sudsTypes as [|suds sudsTypes]; [done|].
    exists suds. split; [by left|]. apply forEachPush_TypeError.
    exists c. split; [done|]. by rewrite Hnone.
Qed.

Lemma generateAllActivitiesFlat_Normal (sudsTypes : list SudsType.t)
    (categories : list string) (definedActivityNames : gmap string (list string))
    (cells : list FlatActivity.t) :
  generateAllActivitiesFlat sudsTypes categories definedActivityNames = Normal cells →
  cells = generateAllActivitiesFlatValue sudsTypes categories definedActivityNames.
Proof.
  apply forEachPush_Normal. intros suds r _. apply forEachPush_Normal.
  intros c r' _. destruct (namesFor definedActivityNames c) as [names|] eqn:Hnames; [|done].
  intros [= <-]. by rewrite (namesFor_Some _ _ _ Hnames).
Qed.

(** X3: the catalogue throws exactly when there is an installation type and
    the lookup of a category of the category list answers an inherited member
    of [Object.prototype].  Whenever it returns, it holds exactly one element
    for every installation type of the sequence, category of the category list
    and activity name defined for that category, under the cell's catalogue id;
    names defined for a category that is not in the category list are left
    out, and so is every category without defined names. *)
Theorem catalogue_is_the_cross_product (sudsTypes : list SudsType.t) (categories : list string)
    (definedActivityNames : gmap string (list string)) :
  (generateAllActivitiesFlat sudsTypes categories definedActivityNames = TypeError ↔
   sudsTypes ≠ [] ∧ ∃ c, c ∈ categories ∧ namesFor definedActivityNames c = None) ∧
  (∀ cells,
     generateAllActivitiesFlat sudsTypes categories definedActivityNames = Normal cells →
     (∀ cell,
        cell ∈ cells ↔
        ∃ suds, suds ∈ sudsTypes ∧
          FlatActivity.category cell ∈ categories ∧
          FlatActivity.activityName cell
            ∈ default [] (definedActivityNames !! FlatActivity.category cell) ∧
          cell = FlatActivity.mk
                   (catalogueId (SudsType.id suds) (FlatActivity.category cell)
                      (FlatActivity.activityName cell))
                   (SudsType.id suds) (SudsType.name suds) (FlatActivity.category cell)
                   (FlatActivity.activityName cell)) ∧
     length cells
     = (length sudsTypes
        * sum_list_with (λ c, length (default [] (definedActivityNames !! c))) categories)%nat).
Proof.
  split; [apply generateAllActivitiesFlat_TypeError|].
  intros cells ->%generateAllActivitiesFlat_Normal.
  split; [apply elem_of_generateAllActivitiesFlatValue | apply length_generateAllActivitiesFlatValue].
Qed.

Lemma NoDup_fmap_on {A B} (f : A → B) (l : list A) :
  (∀ x y, x ∈ l → y ∈ l → f x = f y → x = y) → NoDup l → NoDup (f <$> l).
Proof.
  intros Hinj. induction 1 as [|x l Hx Hnd IH]; [constructor|].
  rewrite fmap_cons. constructor.
  - intros (y & Heq & Hy)%list_elem_of_fmap. apply Hx.
    rewrite (Hinj x y); [done|by left|by right|done].
  - apply IH. intros y z Hy Hz. apply Hinj; by right.
Qed.

Lemma NoDup_of_fmap {A B} (f : A → B) (l : list A) : NoDup (f <$> l) → NoDup l.
Proof.
  induction l as [|x l IH]; [constructor|].
  rewrite fmap_cons, !NoDup_cons. intros [Hx Hnd]. split; [|by apply IH].
  intros Hin. apply Hx. by apply list_elem_of_fmap_2.
Qed.

Lemma generateAllActivitiesFlatValue_NoDup (sudsTypes : list SudsType.t) (categories : list string)
    (definedActivityNames : gmap string (list string)) :
  NoDup (SudsType.id <$> sudsTypes) → NoDup categories →
  (∀ c names, definedActivityNames !! c = Some names → NoDup names) →
  NoDup (generateAllActivitiesFlatValue sudsTypes categories definedActivityNames).
Proof.
  intros Hsuds Hcats Hnames. unfold generateAllActivitiesFlatValue.
  apply NoDup_bind; [| |by eapply NoDup_of_fmap].
  - intros s1 s2 cell Hs1 Hs2
      (c1 & (n1 & -> & _)%list_elem_of_fmap & _)%list_elem_of_bind
      (c2 & (n2 & Heq & _)%list_elem_of_fmap & _)%list_elem_of_bind.
    apply (f_equal FlatActivity.sudsId) in Heq. simpl in Heq.
    by eapply (NoDup_fmap_eq SudsType.id sudsTypes).
  - intros suds _. apply NoDup_bind; [| |done].
    + intros c1 c2 cell _ _ (n1 & -> & _)%list_elem_of_fmap (n2 & Heq & _)%list_elem_of_fmap.
      by apply (f_equal FlatActivity.category) in Heq.
    + intros c _. apply NoDup_fmap_on.
      * intros n1 n2 _ _ Heq. by apply (f_equal FlatActivity.activityName) in Heq.
      * destruct (definedActivityNames !! c) as [names|] eqn:Hc; simpl; [eauto|constructor].
Qed.

(** X4: when the installation types' ids are pairwise distinct and free of
    hyphens, the categories are pairwise distinct and free of hyphens, and no
    category defines a name twice, no two elements of a returned catalogue
    share an id. *)
Theorem catalogue_ids_distinct (sudsTypes : list SudsType.t) (categories : list string)
    (definedActivityNames : gmap string (list string)) :
  NoDup (SudsType.id <$> sudsTypes) → NoDup categories →
  (∀ c names, definedActivityNames !! c = Some names → NoDup names) →
  (∀ suds, suds ∈ sudsTypes → hyphens (SudsType.id suds) = 0%nat) →
  (∀ c, c ∈ categories → hyphens c = 0%nat) →
  ∀ cells,
    generateAllActivitiesFlat sudsTypes categories definedActivityNames = Normal cells →
    NoDup (FlatActivity.id <$> cells).
Proof.
  intros Hsuds Hcats Hnames Hhs Hhc cells ->%generateAllActivitiesFlat_Normal.
  apply NoDup_fmap_on; [|by apply generateAllActivitiesFlatValue_NoDup].
  intros x y (sx & Hsx & Hcx & _ & ->)%elem_of_generateAllActivitiesFlatValue
    (sy & Hsy & Hcy & _ & ->)%elem_of_generateAllActivitiesFlatValue Hid.
  simpl in *.
  apply catalogueId_injective in Hid as (Hs & Hc & Hn); auto.
  assert (sx = sy) as -> by (by eapply (NoDup_fmap_eq SudsType.id sudsTypes)).
  by rewrite Hc, Hn.
Qed.

Lemma sample_types_distinct : NoDup (SudsType.id <$> [typeA; typeB; typeC]).
Proof. decide_by_computation. Defined.

Lemma sample_categories_distinct : NoDup sampleCategories.
Proof. decide_by_computation. Defined.

Lemma sample_names_distinct c names :
  sampleDefinedActivityNames !! c = Some names → NoDup names.
Proof.
  unfold sampleDefinedActivityNames. intros H.
  destruct (decide (c = "Cleaning"%string)) as [->|Hne1].
  - rewrite lookup_insert_eq in H. injection H as <-. decide_by_computation.
  - rewrite lookup_insert_ne in H by done.
    destruct (decide (c = "Vegetation"%string)) as [->|Hne2].
    + rewrite lookup_insert_eq in H. injection H as <-. decide_by_computation.
    + rewrite lookup_insert_ne in H by done. by rewrite lookup_empty in H.
Qed.

Lemma catalogue_ids_distinct_witness :
  NoDup (FlatActivity.id <$>
           generateAllActivitiesFlatValue [typeA; typeB; typeC] sampleCategories
             sampleDefinedActivityNames).
Proof.
  apply (catalogue_ids_distinct [typeA; typeB; typeC] sampleCategories
           sampleDefinedActivityNames sample_types_distinct sample_categories_distinct
           sample_names_distinct).
  - intros suds Hs. list_cases Hs; reflexivity.
  - intros c Hc. unfold sampleCategories in Hc. list_cases Hc; reflexivity.
  - vm_compute. reflexivity.
Defined.

(** ** Ticking and unticking a dependency *)

Lemma elem_of_toggleDependency (x y : string) (prev : list string) :
  y ∈ toggleDependency x prev ↔ if decide (y = x) then x ∉ prev else y ∈ prev.
Proof.
  unfold toggleDependency.
  destruct (decide (x ∈ prev)) as [Hin|Hnin]; destruct (decide (y = x)) as [->|Hne].
  - rewrite list_elem_of_filter. tauto.
  - rewrite list_elem_of_filter. tauto.
  - rewrite elem_of_app, list_elem_of_singleton. tauto.
  - rewrite elem_of_app, list_elem_of_singleton. tauto.
Qed.

Lemma canEdit_true userRole :
  canEdit userRole = true ↔ userRole = ROLES_MASTER ∨ userRole = ROLES_SUDS_SPECIALIST.
Proof.
  unfold canEdit. rewrite orb_true_iff, !bool_decide_eq_true. done.
Qed.

(** X5: [handleToggleDependency] flips whether the id is selected, leaves every
    other id selected or unselected as it was, and introduces no repetition
    into a selection that has none.  The handler of the second version does
    the same for the roles Master and Especialista en SUDS, and nothing for
    any other role. *)
Theorem toggle_flips_one_membership (dependentActivityId : string) (m : Memory) :
  (dependentActivityId ∈ selectedDependencies (handleToggleDependency dependentActivityId m) ↔
   dependentActivityId ∉ selectedDependencies m) ∧
  (∀ other, other ≠ dependentActivityId →
     (other ∈ selectedDependencies (handleToggleDependency dependentActivityId m) ↔
      other ∈ selectedDependencies m)) ∧
  (NoDup (selectedDependencies m) →
   NoDup (selectedDependencies (handleToggleDependency dependentActivityId m))) ∧
  (∀ userRole,
     (userRole = ROLES_MASTER ∨ userRole = ROLES_SUDS_SPECIALIST →
      handleToggleDependencyGated userRole dependentActivityId m
      = handleToggleDependency dependentActivityId m) ∧
     (userRole ≠ ROLES_MASTER → userRole ≠ ROLES_SUDS_SPECIALIST →
      handleToggleDependencyGated userRole dependentActivityId m = m)).
Proof.
  simpl. split; [|split; [|split]].
  - rewrite elem_of_toggleDependency. by destruct (decide _).
  - intros other Hne. rewrite elem_of_toggleDependency. by destruct (decide _).
  - intros Hnd. unfold toggleDependency. destruct (decide _) as [Hin|Hnin].
    + by apply NoDup_filter.
    + apply NoDup_app. split; [done|]. split; [|apply NoDup_singleton].
      intros y Hy ->%list_elem_of_singleton. done.
  - intros userRole. unfold handleToggleDependencyGated. split.
    + intros Hrole%canEdit_true. by rewrite Hrole.
    + intros H1 H2. destruct (canEdit userRole) eqn:Hrole; [|done].
      apply canEdit_true in Hrole as [?|?]; done.
Qed.

Lemma filter_all {A} (P : A → Prop) `{∀ x, Decision (P x)} (l : list A) :
  (∀ x, x ∈ l → P x) → filter P l = l.
Proof.
  induction l as [|x l IH]; intros Hl; [done|].
  rewrite filter_cons. destruct (decide (P x)) as [Hx|Hx].
  - f_equal. apply IH. intros y Hy. apply Hl. by right.
  - exfalso. apply Hx, Hl. by left.
Qed.

(** X6: ticking an unselected id and unticking it again gives back the
    selection; unticking a selected id and ticking it again puts the id behind
    all the others (and keeps one copy of it). *)
Theorem toggle_twice (dependentActivityId : string) (prev : list string) :
  toggleDependency dependentActivityId (toggleDependency dependentActivityId prev)
  = if decide (dependentActivityId ∈ prev)
    then filter (λ id', id' ≠ dependentActivityId) prev ++ [dependentActivityId]
    else prev.
Proof.
  unfold toggleDependency at 2. destruct (decide (dependentActivityId ∈ prev)) as [Hin|Hnin].
  - unfold toggleDependency. destruct (decide _) as [Hin'|_]; [|done].
    apply list_elem_of_filter in Hin' as [Hne _]. done.
  - unfold toggleDependency. destruct (decide _) as [_|Hnin'].
    + rewrite filter_app, filter_cons. simpl.
      destruct (decide (dependentActivityId ≠ dependentActivityId)); [done|].
      rewrite filter_nil, app_nil_r. apply filter_all. intros y Hy ->. done.
    + exfalso. apply Hnin'. apply elem_of_app. right. by left.
Qed.

(** ** The order of the displayed entries *)


Section WalkOrder.

Variable categories : list string.
Variable definedActivityNames : gmap string (list string).
Variable activityMap : gmap string MaintenanceActivity.

Local Abbreviation deps := (sortedDependentsValue categories definedActivityNames activityMap).
Local Abbreviation visit := (Visit categories definedActivityNames activityMap).
Local Abbreviation visitAll := (VisitAll categories definedActivityNames activityMap).




End WalkOrder.

Section DisplayOrder.

Variable categories : list string.
Variable definedActivityNames : gmap string (list string).
Variable sudsId : string.
Variable allMaintenanceActivities : list MaintenanceActivity.

Local Abbreviation sudsActs := (sudsActivitiesOf sudsId allMaintenanceActivities).
Local Abbreviation actMap := (buildActivityMap sudsActs).
Local Abbreviation roots := (topLevelActivitiesValue categories definedActivityNames sudsActs).
Local Abbreviation result :=
  (getDisplayActivitiesValue categories definedActivityNames sudsId allMaintenanceActivities).


Hypothesis ids_unique : NoDup (id <$> allMaintenanceActivities).



End DisplayOrder.












(** X11: the completion of the call depends on the input only through its
    records of the installation type with [applies = true]: two inputs with
    the same such records, in the same order, give the same result or both
    throw, whatever other records they hold and whatever those list. *)
Theorem display_depends_on_applicable_records_only (categories : list string)
    (definedActivityNames : gmap string (list string)) (sudsId : string)
    (all1 all2 : list MaintenanceActivity) :
  sudsActivitiesOf sudsId all1 = sudsActivitiesOf sudsId all2 →
  getDisplayActivities categories definedActivityNames sudsId all1
  = getDisplayActivities categories definedActivityNames sudsId all2.
Proof.
  intros Heq.
  pose proof (getDisplayActivitiesFuel_result categories definedActivityNames sudsId all1
                (length all2)) as H1.
  pose proof (getDisplayActivitiesFuel_result categories definedActivityNames sudsId all2
                (length all1)) as H2.
  replace (S (length all2) + length all1)%nat with (S (length all1) + length all2)%nat
    in H2 by lia.
  unfold getDisplayActivitiesFuel in H1, H2. rewrite Heq, H2 in H1. by injection H1.
Qed.

Lemma display_depends_on_applicable_records_only_witness :
  sampleDisplay "s1" [sweepSwitchedOff; inspectAlone; foreignSweep; pruneAlone]
  = sampleDisplay "s1" [inspectAlone; pruneAlone].
Proof.
  apply (display_depends_on_applicable_records_only sampleCategories
           sampleDefinedActivityNames "s1"
           [sweepSwitchedOff; inspectAlone; foreignSweep; pruneAlone]
           [inspectAlone; pruneAlone]).
  vm_compute. reflexivity.
Defined.

(** ** The swap of the reorder handlers *)

Lemma jsGet_fmap {A} (l : list A) (i : Z) :
  0 ≤ i → jsGet (Some <$> l) i = l !! Z.to_nat i.
Proof.
  intros Hi. unfold jsGet. destruct (decide (0 ≤ i)); [|lia].
  rewrite list_lookup_fmap. by destruct (l !! Z.to_nat i).
Qed.

Lemma jsSet_fmap {A} (l : list A) (i : Z) (v : A) :
  0 ≤ i < Z.of_nat (length l) →
  jsSet (Some <$> l) i (Some v) = Some <$> <[Z.to_nat i := v]> l.
Proof.
  intros Hi. unfold jsSet. rewrite length_fmap.
  destruct (decide (i < 0)); [lia|].
  destruct (decide (i < Z.of_nat (length l))); [|lia].
  by rewrite list_fmap_insert.
Qed.

Lemma insert_adjacent {A} (pre post : list A) (a b : A) :
  <[S (length pre) := a]> (<[length pre := b]> (pre ++ a :: b :: post)) = pre ++ b :: a :: post.
Proof. induction pre as [|x pre IH]; simpl; [done|]. by rewrite IH. Qed.

Lemma insert_adjacent_rev {A} (pre post : list A) (a b : A) :
  <[length pre := b]> (<[S (length pre) := a]> (pre ++ a :: b :: post)) = pre ++ b :: a :: post.
Proof. induction pre as [|x pre IH]; simpl; [done|]. by rewrite IH. Qed.

Lemma lookup_adjacent {A} (pre post : list A) (a b : A) :
  (pre ++ a :: b :: post) !! length pre = Some a ∧
  (pre ++ a :: b :: post) !! S (length pre) = Some b.
Proof. induction pre as [|x pre IH]; simpl; [done|]. exact IH. Qed.

(** The swap of an element with its successor, written either way round. *)
Lemma swapEntries_adjacent {A} (pre post : list A) (a b : A) :
  swapEntries (Some <$> (pre ++ a :: b :: post))
    (Z.of_nat (length pre)) (Z.of_nat (length pre) + 1)
  = Some <$> (pre ++ b :: a :: post) ∧
  swapEntries (Some <$> (pre ++ a :: b :: post))
    (Z.of_nat (length pre) + 1) (Z.of_nat (length pre))
  = Some <$> (pre ++ b :: a :: post).
Proof.
  destruct (lookup_adjacent pre post a b) as [Ha Hb].
  assert (length (pre ++ a :: b :: post) = S (S (length pre + length post))) as Hlen
    by (rewrite length_app; simpl; lia).
  unfold swapEntries. rewrite !jsGet_fmap by lia.
  replace (Z.to_nat (Z.of_nat (length pre) + 1)) with (S (length pre)) by lia.
  rewrite Nat2Z.id, Ha, Hb. split.
  - rewrite jsSet_fmap by (rewrite Hlen; lia).
    rewrite jsSet_fmap by (rewrite length_insert, Hlen; lia).
    replace (Z.to_nat (Z.of_nat (length pre) + 1)) with (S (length pre)) by lia.
    by rewrite Nat2Z.id, insert_adjacent.
  - rewrite jsSet_fmap by (rewrite Hlen; lia).
    rewrite jsSet_fmap by (rewrite length_insert, Hlen; lia).
    replace (Z.to_nat (Z.of_nat (length pre) + 1)) with (S (length pre)) by lia.
    by rewrite Nat2Z.id, insert_adjacent_rev.
Qed.

(** A list splits around an index and its successor. *)
Lemma split_at_adjacent {A} (l : list A) (n : nat) :
  (S n < length l)%nat →
  ∃ pre a b post, l = pre ++ a :: b :: post ∧ length pre = n.
Proof.
  revert n. induction l as [|x l IH]; intros n Hn; simpl in Hn; [lia|].
  destruct n as [|n].
  - destruct l as [|y l]; simpl in Hn; [lia|]. by exists [], x, y, l.
  - destruct (IH n) as (pre & a & b & post & -> & Hlen); [lia|].
    exists (x :: pre), a, b, post. simpl. by rewrite Hlen.
Qed.

(** Where [indexOf] and [findIndex] point. *)
Lemma indexOfFrom_first_occurrence (l : list string) (x : string) (i : Z) :
  x ∈ l →
  ∃ pre post, l = pre ++ x :: post ∧ (x ∉ pre) ∧
              indexOfFrom l x i = i + Z.of_nat (length pre).
Proof.
  revert i. induction l as [|y l IH]; intros i Hx; [by apply elem_of_nil in Hx|].
  simpl. destruct (decide (y = x)) as [->|Hne].
  - exists [], l. split; [done|]. split; [apply not_elem_of_nil|]. simpl. lia.
  - apply elem_of_cons in Hx as [->|Hx]; [done|].
    destruct (IH (i + 1) Hx) as (pre & post & -> & Hnin & Hidx).
    exists (y :: pre), post. split; [done|]. split.
    + apply not_elem_of_cons. split; [congruence | done].
    + rewrite Hidx. simpl. lia.
Qed.

Lemma indexOf_first_occurrence (l : list string) (x : string) :
  x ∈ l →
  ∃ pre post, l = pre ++ x :: post ∧ (x ∉ pre) ∧ indexOf l x = Z.of_nat (length pre).
Proof.
  intros Hx. destruct (indexOfFrom_first_occurrence l x 0 Hx) as (pre & post & ? & ? & Hidx).
  exists pre, post. unfold indexOf. rewrite Hidx. split; [done|]. split; [done|]. lia.
Qed.

Lemma findIndexFrom_first_occurrence (l : list SudsType.t) (sudsId : string) (i : Z) :
  findIndexFrom l sudsId i = -1 ∨
  ∃ pre x post, l = pre ++ x :: post ∧ SudsType.id x = sudsId ∧
                (sudsId ∉ (SudsType.id <$> pre)) ∧
                findIndexFrom l sudsId i = i + Z.of_nat (length pre).
Proof.
  revert i. induction l as [|y l IH]; intros i; simpl; [by left|].
  destruct (decide (SudsType.id y = sudsId)) as [Heq|Hne].
  - right. exists [], y, l. split; [done|]. split; [done|].
    split; [apply not_elem_of_nil|]. simpl. lia.
  - destruct (IH (i + 1)) as [Hnone|(pre & x & post & -> & Hid & Hnin & Hidx)]; [by left|].
    right. exists (y :: pre), x, post. split; [done|]. split; [done|]. split.
    + rewrite fmap_cons. apply not_elem_of_cons. split; [congruence | done].
    + rewrite Hidx. simpl. lia.
Qed.

Lemma findIndex_first_occurrence (l : list SudsType.t) (sudsId : string) :
  findIndex l sudsId = -1 ∨
  ∃ pre x post, l = pre ++ x :: post ∧ SudsType.id x = sudsId ∧
                (sudsId ∉ (SudsType.id <$> pre)) ∧
                findIndex l sudsId = Z.of_nat (length pre).
Proof.
  destruct (findIndexFrom_first_occurrence l sudsId 0)
    as [?|(pre & x & post & ? & ? & ? & Hidx)]; [by left|].
  right. exists pre, x, post. unfold findIndex. rewrite Hidx.
  split; [done|]. split; [done|]. split; [done|]. lia.
Qed.

Lemma snoc_destruct {A} (l : list A) : l = [] ∨ ∃ init x, l = init ++ [x].
Proof. destruct l as [|x l] using rev_ind; [by left | right; eauto]. Qed.

(** ** Moves of installation types *)

Lemma id_not_in_snoc (pre : list SudsType.t) (a : SudsType.t) (sudsId : string) :
  sudsId ∉ (SudsType.id <$> (pre ++ [a])) ↔
  (sudsId ∉ (SudsType.id <$> pre)) ∧ SudsType.id a ≠ sudsId.
Proof.
  rewrite fmap_app, elem_of_app. simpl. rewrite list_elem_of_singleton.
  split; [intros H; split; [tauto | intros Heq; apply H; right; done] | intros [? ?] [?|?]; auto].
Qed.

Lemma findIndex_at (pre post : list SudsType.t) (x : SudsType.t) :
  SudsType.id x ∉ (SudsType.id <$> pre) →
  findIndex (pre ++ x :: post) (SudsType.id x) = Z.of_nat (length pre).
Proof.
  intros Hnin. unfold findIndex. rewrite findIndexFrom_skip by done.
  simpl. by destruct (decide _).
Qed.

Lemma newSudsTypesOrder_up_at (pre post : list SudsType.t) (a b : SudsType.t) :
  SudsType.id b ∉ (SudsType.id <$> (pre ++ [a])) →
  newSudsTypesOrder (SudsType.id b) "up" (pre ++ a :: b :: post)
  = Some (Some <$> (pre ++ b :: a :: post)).
Proof.
  intros Hnin.
  assert (findIndex (pre ++ a :: b :: post) (SudsType.id b) = Z.of_nat (length pre) + 1)
    as Hidx.
  { replace (pre ++ a :: b :: post) with ((pre ++ [a]) ++ b :: post)
      by (by rewrite <- app_assoc).
    rewrite findIndex_at by done. rewrite length_app. simpl. lia. }
  unfold newSudsTypesOrder. rewrite Hidx.
  destruct (decide (_ = -1)); [lia|].
  destruct (decide (_ ∧ _)) as [_|Hno]; [|exfalso; apply Hno; split; [done | lia]].
  replace (Z.of_nat (length pre) + 1 - 1) with (Z.of_nat (length pre)) by lia.
  by rewrite (proj1 (swapEntries_adjacent pre post a b)).
Qed.

Lemma newSudsTypesOrder_down_at (pre post : list SudsType.t) (a b : SudsType.t) :
  SudsType.id a ∉ (SudsType.id <$> pre) →
  newSudsTypesOrder (SudsType.id a) "down" (pre ++ a :: b :: post)
  = Some (Some <$> (pre ++ b :: a :: post)).
Proof.
  intros Hnin. unfold newSudsTypesOrder. rewrite findIndex_at by done.
  destruct (decide (_ = -1)); [lia|].
  destruct (decide ("down"%string = "up"%string ∧ _)) as [[? _]|_]; [done|].
  destruct (decide (_ ∧ _)) as [_|Hno].
  - by rewrite (proj2 (swapEntries_adjacent pre post a b)).
  - exfalso. apply Hno. split; [done|]. rewrite length_fmap, length_app. simpl. lia.
Qed.

(** Every effective move exchanges the first element that carries the id with
    a neighbour. *)
Lemma newSudsTypesOrder_cases (sudsId direction : string) (l : list SudsType.t)
    (arr : list (option SudsType.t)) :
  newSudsTypesOrder sudsId direction l = Some arr →
  ∃ pre a b post,
    l = pre ++ a :: b :: post ∧ arr = Some <$> (pre ++ b :: a :: post) ∧
    ((direction = "up"%string ∧ SudsType.id b = sudsId ∧
      sudsId ∉ (SudsType.id <$> (pre ++ [a]))) ∨
     (direction = "down"%string ∧ SudsType.id a = sudsId ∧
      sudsId ∉ (SudsType.id <$> pre))).
Proof.
  intros Hnew.
  destruct (findIndex_first_occurrence l sudsId)
    as [Hnone|(pre0 & x & post0 & -> & Hid & Hnin & Hidx)].
  { unfold newSudsTypesOrder in Hnew. rewrite Hnone in Hnew. by destruct (decide _). }
  pose proof Hnew as Hnew'. unfold newSudsTypesOrder in Hnew'. rewrite Hidx in Hnew'.
  destruct (decide (_ = -1)); [lia|].
  destruct (decide (direction = "up"%string ∧ _)) as [[-> Hpos]|_].
  - destruct (snoc_destruct pre0) as [->|(init & a & ->)]; [simpl in Hpos; lia|].
    exists init, a, x, post0. rewrite <- app_assoc. simpl. split; [done|].
    subst sudsId. rewrite <- app_assoc in Hnew. simpl in Hnew.
    rewrite newSudsTypesOrder_up_at in Hnew by done. injection Hnew as <-.
    split; [done|]. left. done.
  - destruct (decide (direction = "down"%string ∧ _)) as [[-> Hlt]|_]; [|done].
    rewrite length_fmap, length_app in Hlt. simpl in Hlt.
    destruct post0 as [|b post]; [simpl in Hlt; lia|].
    exists pre0, x, b, post. split; [done|].
    subst sudsId. rewrite newSudsTypesOrder_down_at in Hnew by done. injection Hnew as <-.
    split; [done|]. right. done.
Qed.

Lemma orderUpdatesFrom_fmap (index : Z) (l : list SudsType.t) :
  orderUpdatesFrom index (Some <$> l) = Some (misplaced index l).
Proof.
  revert index. induction l as [|s l IH]; intros index; simpl; [done|].
  rewrite IH. by destruct (decide _).
Qed.

Lemma misplaced_app (index : Z) (l1 l2 : list SudsType.t) :
  misplaced index (l1 ++ l2)
  = misplaced index l1 ++ misplaced (index + Z.of_nat (length l1)) l2.
Proof.
  revert index. induction l1 as [|s l1 IH]; intros index; simpl.
  - f_equal. lia.
  - rewrite IH, <- app_assoc. do 3 f_equal. lia.
Qed.

Lemma misplaced_in_place (index : Z) (l : list SudsType.t) :
  (∀ (i : nat) s, l !! i = Some s → SudsType.order s = Some (index + Z.of_nat i)) →
  misplaced index l = [].
Proof.
  revert index. induction l as [|s l IH]; intros index Hl; simpl; [done|].
  rewrite IH.
  - pose proof (Hl 0%nat s eq_refl) as Hs.
    replace (index + Z.of_nat 0) with index in Hs by lia.
    destruct (decide _) as [[Hne|Hnone]|_]; [congruence | congruence | done].
  - intros i s' Hi. rewrite (Hl (S i) s' Hi). f_equal. lia.
Qed.

(** X12: filling the batch never reads an [undefined] element, so
    [handleMoveSudsType] never throws; and whenever it gets as far as the
    batch, the new sequence is the old one with the first element that carries
    the id exchanged with its predecessor (up) or successor (down), every other
    element staying where it was. *)
Theorem move_suds_type_exchanges_neighbours (sudsId direction : string)
    (currentSudsTypes : list SudsType.t) :
  moveSudsTypeBatch sudsId direction currentSudsTypes ≠ Throws ∧
  ∀ arr, newSudsTypesOrder sudsId direction currentSudsTypes = Some arr →
    ∃ pre a b post,
      currentSudsTypes = pre ++ a :: b :: post ∧
      arr = Some <$> (pre ++ b :: a :: post) ∧
      ((direction = "up"%string ∧ SudsType.id b = sudsId ∧
        sudsId ∉ (SudsType.id <$> (pre ++ [a]))) ∨
       (direction = "down"%string ∧ SudsType.id a = sudsId ∧
        sudsId ∉ (SudsType.id <$> pre))).
Proof.
  split; [|apply newSudsTypesOrder_cases].
  unfold moveSudsTypeBatch.
  destruct (newSudsTypesOrder _ _ _) as [arr|] eqn:Hnew; [|done].
  destruct (newSudsTypesOrder_cases _ _ _ _ Hnew) as (pre & a & b & post & _ & -> & _).
  by rewrite orderUpdatesFrom_fmap.
Qed.

(** X13: a move up that gets as far as the batch is undone by a move down of
    the same id on the new sequence. *)
Theorem move_up_then_down_restores (sudsId : string) (currentSudsTypes : list SudsType.t)
    (arr : list (option SudsType.t)) :
  newSudsTypesOrder sudsId "up" currentSudsTypes = Some arr →
  ∃ moved, arr = Some <$> moved ∧
           newSudsTypesOrder sudsId "down" moved = Some (Some <$> currentSudsTypes).
Proof.
  intros Hnew.
  destruct (newSudsTypesOrder_cases _ _ _ _ Hnew)
    as (pre & a & b & post & -> & -> & [(_ & Hid & Hnin)|([=] & _)]).
  exists (pre ++ b :: a :: post). split; [done|]. subst sudsId.
  apply newSudsTypesOrder_down_at. by apply id_not_in_snoc in Hnin as [? _].
Qed.

Lemma move_up_then_down_restores_witness :
  ∃ moved, Some <$> [typeB; typeA; typeC] = Some <$> moved ∧
           newSudsTypesOrder "b" "down" moved = Some (Some <$> [typeA; typeB; typeC]).
Proof.
  apply (move_up_then_down_restores "b" [typeA; typeB; typeC]).
  vm_compute. reflexivity.
Defined.

(** X14: when every element's [order] is its position, a move that gets as
    far as the batch issues exactly two updates: each of the two exchanged
    elements gets the position the other one had. *)
Theorem move_of_ordered_sequence_issues_two_updates (sudsId direction : string)
    (currentSudsTypes : list SudsType.t) (arr : list (option SudsType.t)) :
  (∀ (i : nat) s, currentSudsTypes !! i = Some s → SudsType.order s = Some (Z.of_nat i)) →
  newSudsTypesOrder sudsId direction currentSudsTypes = Some arr →
  ∃ pre a b post,
    currentSudsTypes = pre ++ a :: b :: post ∧
    arr = Some <$> (pre ++ b :: a :: post) ∧
    moveSudsTypeBatch sudsId direction currentSudsTypes
    = Issue [mkOrderUpdate (SudsType.id b) (Z.of_nat (length pre));
             mkOrderUpdate (SudsType.id a) (Z.of_nat (length pre) + 1)].
Proof.
  intros Hdense Hnew.
  destruct (newSudsTypesOrder_cases _ _ _ _ Hnew) as (pre & a & b & post & -> & -> & _).
  exists pre, a, b, post. split; [done|]. split; [done|].
  unfold moveSudsTypeBatch. rewrite Hnew, orderUpdatesFrom_fmap. f_equal.
  destruct (lookup_adjacent pre post a b) as [Ha Hb].
  apply Hdense in Ha. apply Hdense in Hb.
  rewrite misplaced_app. simpl.
  rewrite (misplaced_in_place 0 pre).
  2:{ intros i s Hi. rewrite (Hdense i s); [f_equal; lia|]. by apply lookup_app_l_Some. }
  rewrite (misplaced_in_place _ post).
  2:{ intros i s Hi. rewrite (Hdense (length pre + 2 + i)%nat s); [f_equal; lia|].
      rewrite lookup_app_r by lia.
      replace (length pre + 2 + i - length pre)%nat with (S (S i)) by lia. done. }
  rewrite Ha, Hb. simpl.
  destruct (decide _) as [_|Hno]; [|exfalso; apply Hno; left; intros [= ?]; lia].
  destruct (decide _) as [_|Hno]; [|exfalso; apply Hno; left; intros [= ?]; lia].
  simpl. do 2 f_equal.
Qed.

Lemma sample_types_ordered (i : nat) (s : SudsType.t) :
  [typeA; typeB; typeC] !! i = Some s → SudsType.order s = Some (Z.of_nat i).
Proof. destruct i as [|[|[|i]]]; simpl; intros [= <-]; reflexivity. Qed.

Lemma move_of_ordered_sequence_issues_two_updates_witness :
  ∃ pre a b post,
    [typeA; typeB; typeC] = pre ++ a :: b :: post ∧
    Some <$> [typeA; typeC; typeB] = Some <$> (pre ++ b :: a :: post) ∧
    moveSudsTypeBatch "b" "down" [typeA; typeB; typeC]
    = Issue [mkOrderUpdate (SudsType.id b) (Z.of_nat (length pre));
             mkOrderUpdate (SudsType.id a) (Z.of_nat (length pre) + 1)].
Proof.
  apply (move_of_ordered_sequence_issues_two_updates "b" "down" [typeA; typeB; typeC]).
  - exact sample_types_ordered.
  - vm_compute. reflexivity.
Defined.

(** ** Moves of categories and of activity columns *)

Lemma swap_up_present (l : list string) (x : string) :
  x ∈ l → indexOf l x > 0 →
  ∃ pre a post, l = pre ++ a :: x :: post ∧
    swapEntries (Some <$> l) (indexOf l x - 1) (indexOf l x)
    = Some <$> (pre ++ x :: a :: post).
Proof.
  intros Hx Hpos.
  destruct (indexOf_first_occurrence l x Hx) as (pre0 & post & -> & _ & Hidx).
  rewrite Hidx in *.
  destruct (snoc_destruct pre0) as [->|(pre & a & ->)]; [simpl in Hpos; lia|].
  exists pre, a, post. rewrite <- app_assoc. simpl. split; [done|].
  rewrite length_app. simpl.
  replace (Z.of_nat (length pre + 1) - 1) with (Z.of_nat (length pre)) by lia.
  replace (Z.of_nat (length pre + 1)) with (Z.of_nat (length pre) + 1) by lia.
  apply swapEntries_adjacent.
Qed.

Lemma swap_down_present (l : list string) (x : string) :
  x ∈ l → indexOf l x < Z.of_nat (length (Some <$> l)) - 1 →
  ∃ pre b post, l = pre ++ x :: b :: post ∧
    swapEntries (Some <$> l) (indexOf l x + 1) (indexOf l x)
    = Some <$> (pre ++ b :: x :: post).
Proof.
  intros Hx Hlt.
  destruct (indexOf_first_occurrence l x Hx) as (pre & post0 & -> & _ & Hidx).
  rewrite Hidx in *. rewrite length_fmap, length_app in Hlt. simpl in Hlt.
  destruct post0 as [|b post]; [simpl in Hlt; lia|].
  exists pre, b, post. split; [done|]. apply swapEntries_adjacent.
Qed.

(** X15: for a name that is in the category list, [handleMoveCategory] either
    reaches no write or writes the list with that name exchanged with one of
    its neighbours: an array without [undefined] that has the elements of the
    old list. *)
Theorem move_present_category_exchanges_neighbours (categories : list string)
    (categoryToMove direction : string) (arr : list (option string)) :
  categoryToMove ∈ categories →
  moveCategoryWrite categories categoryToMove direction = Issue arr →
  ∃ pre a b post,
    categories = pre ++ a :: b :: post ∧
    arr = Some <$> (pre ++ b :: a :: post) ∧
    ((direction = "up"%string ∧ categoryToMove = b) ∨
     (direction = "down"%string ∧ categoryToMove = a)).
Proof.
  intros Hin Hwrite. unfold moveCategoryWrite in Hwrite.
  destruct (decide (direction = "up"%string ∧ _)) as [[-> Hpos]|_].
  - destruct (swap_up_present categories categoryToMove Hin Hpos)
      as (pre & a & post & -> & Hswap).
    rewrite Hswap in Hwrite. injection Hwrite as <-.
    exists pre, a, categoryToMove, post. auto.
  - destruct (decide (direction = "down"%string ∧ _)) as [[-> Hlt]|_]; [|done].
    destruct (swap_down_present categories categoryToMove Hin Hlt)
      as (pre & b & post & -> & Hswap).
    rewrite Hswap in Hwrite. injection Hwrite as <-.
    exists pre, categoryToMove, b, post. auto.
Qed.

Lemma move_present_category_exchanges_neighbours_witness :
  ∃ pre a b post,
    sampleCategories = pre ++ a :: b :: post ∧
    [Some "Vegetation"%string; Some "Cleaning"%string] = Some <$> (pre ++ b :: a :: post) ∧
    (("down"%string = "up"%string ∧ "Cleaning"%string = b) ∨
     ("down"%string = "down"%string ∧ "Cleaning"%string = a)).
Proof.
  apply (move_present_category_exchanges_neighbours sampleCategories "Cleaning" "down").
  - decide_by_computation.
  - vm_compute. reflexivity.
Defined.

(** X16: the object that [handleMoveActivityColumn] writes holds, for every
    category but the moved one, the array that category had; and for a name
    that is defined in the moved category, that category's array with the name
    exchanged with one of its neighbours. *)
Theorem move_column_changes_one_category (category' activityName' direction : string)
    (currentDefinedActivityNames : gmap string (list string))
    (updated : gmap string (list (option string))) :
  moveActivityColumnWrite category' activityName' direction currentDefinedActivityNames
  = Issue updated →
  (∀ c, c ≠ category' →
     updated !! c = (λ names : list string, Some <$> names) <$> currentDefinedActivityNames !! c) ∧
  (activityName' ∈ definedNames currentDefinedActivityNames category' →
   ∃ pre a b post,
     definedNames currentDefinedActivityNames category' = pre ++ a :: b :: post ∧
     updated !! category' = Some (Some <$> (pre ++ b :: a :: post)) ∧
     ((direction = "left"%string ∧ activityName' = b) ∨
      (direction = "right"%string ∧ activityName' = a))).
Proof.
  intros Hwrite. unfold moveActivityColumnWrite in Hwrite.
  destruct (namesFor currentDefinedActivityNames category') as [names|] eqn:Hnames; [|done].
  rewrite (namesFor_Some _ _ _ Hnames) in Hwrite. cbv zeta in Hwrite.
  destruct (decide (direction = "left"%string ∧ _)) as [[-> Hpos]|_].
  - injection Hwrite as <-. split.
    + intros c Hne. by rewrite lookup_insert_ne, lookup_fmap.
    + intros Hin.
      destruct (swap_up_present _ activityName' Hin Hpos) as (pre & a & post & Hl & Hswap).
      exists pre, a, activityName', post. rewrite lookup_insert_eq, Hswap. auto.
  - destruct (decide (direction = "right"%string ∧ _)) as [[-> Hlt]|_]; [|done].
    injection Hwrite as <-. split.
    + intros c Hne. by rewrite lookup_insert_ne, lookup_fmap.
    + intros Hin.
      destruct (swap_down_present _ activityName' Hin Hlt) as (pre & b & post & Hl & Hswap).
      exists pre, activityName', b, post. rewrite lookup_insert_eq, Hswap. auto.
Qed.

Lemma move_column_changes_one_category_witness :
  (∀ c, c ≠ "Cleaning"%string →
     sweepMovedRight !! c
     = (λ names : list string, Some <$> names) <$> sampleDefinedActivityNames !! c) ∧
  ("Sweep"%string ∈ definedNames sampleDefinedActivityNames "Cleaning" →
   ∃ pre a b post,
     definedNames sampleDefinedActivityNames "Cleaning" = pre ++ a :: b :: post ∧
     sweepMovedRight !! "Cleaning"%string = Some (Some <$> (pre ++ b :: a :: post)) ∧
     (("right"%string = "left"%string ∧ "Sweep"%string = b) ∨
      ("right"%string = "right"%string ∧ "Sweep"%string = a))).
Proof.
  apply (move_column_changes_one_category "Cleaning" "Sweep" "right"
           sampleDefinedActivityNames sweepMovedRight).
  vm_compute. reflexivity.
Defined.

(** ** The installation types as the listener hands them on *)

Lemma assignOrdersFrom_ids (index : Z) (l : list SudsType.t) :
  SudsType.id <$> assignOrdersFrom index l = SudsType.id <$> l.
Proof.
  revert index. induction l as [|s l IH]; intros index; simpl; [done|].
  rewrite IH. by destruct (SudsType.order s).
Qed.

Lemma assignOrdersFrom_ordered (index : Z) (l : list SudsType.t) (s : SudsType.t) :
  s ∈ assignOrdersFrom index l → is_Some (SudsType.order s).
Proof.
  revert index. induction l as [|x l IH]; intros index Hs; simpl in Hs;
    [by apply elem_of_nil in Hs|].
  apply elem_of_cons in Hs as [->|Hs]; [|by eapply IH].
  destruct (SudsType.order x) eqn:Hx; simpl; [by rewrite Hx | done].
Qed.

Lemma assignOrdersFrom_lookup (index : Z) (l : list SudsType.t) (i : nat) (s : SudsType.t) :
  l !! i = Some s →
  assignOrdersFrom index l !! i
  = Some (match SudsType.order s with
          | None => SudsType.mk (SudsType.id s) (SudsType.name s) (Some (index + Z.of_nat i))
          | Some _ => s
          end).
Proof.
  revert index i. induction l as [|x l IH]; intros index i Hi; [by rewrite lookup_nil in Hi|].
  destruct i as [|i]; simpl in *.
  - injection Hi as ->. destruct (SudsType.order s); [done|]. do 3 f_equal. lia.
  - rewrite (IH (index + 1) i Hi). destruct (SudsType.order s); [done|]. do 3 f_equal. lia.
Qed.

Lemma compareOrder_le (a b : SudsType.t) :
  compareOrder a b ≤ 0 ↔ default 0 (SudsType.order a) ≤ default 0 (SudsType.order b).
Proof. unfold compareOrder. lia. Qed.

(** X17: the sequence that the snapshot callback hands to [setSudsTypes] holds
    every fetched installation type once (the same ids), each with an [order]:
    its stored one, or its position in the fetch when it had none; and the
    sequence is in ascending [order]. *)
Theorem snapshot_sequence_is_ordered (fetchedSudsTypes : list SudsType.t) :
  SudsType.id <$> sudsTypesFromSnapshot fetchedSudsTypes ≡ₚ SudsType.id <$> fetchedSudsTypes ∧
  (∀ s, s ∈ sudsTypesFromSnapshot fetchedSudsTypes → is_Some (SudsType.order s)) ∧
  StronglySorted (λ a b, default 0 (SudsType.order a) ≤ default 0 (SudsType.order b))
    (sudsTypesFromSnapshot fetchedSudsTypes) ∧
  (∀ (i : nat) s, fetchedSudsTypes !! i = Some s →
     match SudsType.order s with
     | None => SudsType.mk (SudsType.id s) (SudsType.name s) (Some (Z.of_nat i))
     | Some _ => s
     end ∈ sudsTypesFromSnapshot fetchedSudsTypes).
Proof.
  unfold sudsTypesFromSnapshot. split; [|split; [|split]].
  - by rewrite jsSort_Permutation, assignOrdersFrom_ids.
  - intros s Hs. apply elem_of_jsSort in Hs. by eapply assignOrdersFrom_ordered.
  - eapply StronglySorted_weaken; [|apply jsSort_sorted].
    + intros x y. apply compareOrder_le.
    + intros x y. rewrite !compareOrder_le. lia.
    + intros x y z. rewrite !compareOrder_le. lia.
  - intros i s Hi. apply elem_of_jsSort.
    pose proof (assignOrdersFrom_lookup 0 _ i s Hi) as Hl. simpl in Hl.
    by apply list_elem_of_lookup_2 in Hl.
Qed.

(** ** The batch of a dependency save *)

Lemma elem_of_flat_map {A B} (f : A → list B) (l : list A) (y : B) :
  y ∈ flat_map f l ↔ ∃ x, x ∈ l ∧ y ∈ f x.
Proof.
  induction l as [|x l IH]; simpl.
  - split; [by intros ?%elem_of_nil | by intros (? & ?%elem_of_nil & _)].
  - rewrite elem_of_app, IH. split.
    + intros [Hy|(z & Hz & Hy)]; [exists x | exists z]; split; auto; by constructor.
    + intros (z & [->|Hz]%elem_of_cons & Hy); [by left | right; eauto].
Qed.

Lemma elem_of_dependentWrites (maintenanceActivities : list MaintenanceActivity)
    (depId : string) (w : ActivityWrite) :
  w ∈ dependentWrites maintenanceActivities depId ↔
  (w = UpdateApplies depId ∧
   ∃ act, findActivity maintenanceActivities depId = Some act ∧ applies act = false) ∨
  (findActivity maintenanceActivities depId = None ∧
   ∃ s c n, split "-" depId = [s; c; n] ∧ w = CreateActivity s c n []).
Proof.
  unfold dependentWrites.
  destruct (findActivity maintenanceActivities depId) as [act|] eqn:Hfind.
  - destruct (applies act) eqn:Happ.
    + split; [by intros ?%elem_of_nil|].
      intros [(_ & a & [= <-] & Ha)|[[=] _]]. congruence.
    + rewrite list_elem_of_singleton. split.
      * intros ->. left. eauto.
      * by intros [[-> _]|[[=] _]].
  - destruct (split "-" depId) as [|p1 [|p2 [|p3 [|p4 ps]]]] eqn:Hsplit;
      try (split; [by intros ?%elem_of_nil | by intros [(_ & a & [=] & _)|(_ & s & c & n & [=] & _)]]).
    rewrite list_elem_of_singleton. split.
    + intros ->. right. split; [done|]. by exists p1, p2, p3.
    + intros [(_ & a & [=] & _)|(_ & s & c & n & [= <- <- <-] & ->)]. done.
Qed.

(** X18: the batch of [handleSaveDependencies] starts with the write of the
    edited cell: the new list on its record when the cell carries an id that
    is not the empty string, and otherwise a new record of the cell holding the
    list.  The batch switches on exactly the selected ids whose record in
    memory has [applies = false], and every other write creates, with no
    dependencies of its own, the cell of a selected id that has no record in
    memory and splits into three parts. *)
Theorem save_dependencies_batch_contents (target : DependencyTarget.t)
    (selected : list string) (maintenanceActivities : list MaintenanceActivity) :
  (∀ primaryId,
     DependencyTarget.id target = Some primaryId → primaryId ≠ ""%string →
     head (saveDependenciesBatch target selected maintenanceActivities)
     = Some (UpdateDependentActivities primaryId selected)) ∧
  (DependencyTarget.id target = None ∨ DependencyTarget.id target = Some ""%string →
   head (saveDependenciesBatch target selected maintenanceActivities)
   = Some (CreateActivity (DependencyTarget.sudsId target) (DependencyTarget.category target)
             (DependencyTarget.activityName target) selected)) ∧
  (∀ depId,
     UpdateApplies depId ∈ saveDependenciesBatch target selected maintenanceActivities ↔
     depId ∈ selected ∧
     ∃ act, findActivity maintenanceActivities depId = Some act ∧ applies act = false) ∧
  (∀ w, w ∈ tail (saveDependenciesBatch target selected maintenanceActivities) →
     (∃ depId, w = UpdateApplies depId) ∨
     (∃ depId s c n, depId ∈ selected ∧ findActivity maintenanceActivities depId = None ∧
                     split "-" depId = [s; c; n] ∧ w = CreateActivity s c n [])).
Proof.
  unfold saveDependenciesBatch, primaryActivityRef. simpl.
  split; [|split; [|split]].
  - intros primaryId -> Hne. by destruct (decide _).
  - by intros [-> | ->].
  - intros depId. rewrite elem_of_cons, elem_of_flat_map. split.
    + intros [Heq|(d & Hd & Hw)].
      { destruct (DependencyTarget.id target) as [i|]; [destruct (decide _)|]; done. }
      apply elem_of_dependentWrites in Hw as [([= <-] & Hact)|(_ & s & c & n & _ & [=])].
      done.
    + intros (Hd & Hact). right. exists depId. split; [done|].
      apply elem_of_dependentWrites. left. done.
  - intros w (d & Hd & Hw)%elem_of_flat_map.
    apply elem_of_dependentWrites in Hw as [(-> & _)|(Hnone & s & c & n & Hsplit & ->)].
    + left. by exists d.
    + right. by exists d, s, c, n.
Qed.

(** ** The cell that the dependency dialogue edits *)

Lemma head_filter_Some {A} (P : A → Prop) `{∀ x, Decision (P x)} (l : list A) (a : A) :
  head (filter P l) = Some a → a ∈ l ∧ P a.
Proof.
  intros Hhead. apply and_comm, (list_elem_of_filter P).
  destruct (filter P l) as [|x l'] eqn:Hf; [done|]. injection Hhead as ->. by left.
Qed.

Lemma head_filter_None {A} (P : A → Prop) `{∀ x, Decision (P x)} (l : list A) :
  head (filter P l) = None → ∀ a, a ∈ l → ¬ P a.
Proof.
  intros Hhead a Ha HP.
  assert (a ∈ filter P l) as Hin by (by apply list_elem_of_filter).
  destruct (filter P l); [by apply elem_of_nil in Hin | done].
Qed.

Lemma toggleAll_keeps_target (dependentActivityIds : list string) (m : Memory) :
  currentActivityForDependencies (toggleAll dependentActivityIds m)
  = currentActivityForDependencies m ∧
  maintenanceActivitiesState (toggleAll dependentActivityIds m) = maintenanceActivitiesState m ∧
  showDependenciesModal (toggleAll dependentActivityIds m) = showDependenciesModal m.
Proof.
  unfold toggleAll. revert m.
  induction dependentActivityIds as [|d ds IH]; intros m; simpl; [done|].
  destruct (IH (handleToggleDependency d m)) as (-> & -> & ->). done.
Qed.

Lemma toggleAllGated_editor userRole (dependentActivityIds : list string) (m : Memory) :
  canEdit userRole = true →
  toggleAllGated userRole dependentActivityIds m = toggleAll dependentActivityIds m.
Proof.
  intros Hrole. unfold toggleAllGated, toggleAll, handleToggleDependencyGated.
  by rewrite Hrole.
Qed.

Lemma toggleAllGated_other userRole (dependentActivityIds : list string) (m : Memory) :
  canEdit userRole = false → toggleAllGated userRole dependentActivityIds m = m.
Proof.
  intros Hrole. unfold toggleAllGated, handleToggleDependencyGated. rewrite Hrole.
  by induction dependentActivityIds.
Qed.

Lemma dialogue_open_after_toggles (sudsId activityName' category' : string)
    (dependentActivityIds : list string) (m : Memory) :
  DialogueOpenOn sudsId activityName' category' m
    (toggleAll dependentActivityIds
       (handleOpenDependenciesModal sudsId activityName' category' m)).
Proof.
  unfold DialogueOpenOn.
  destruct (toggleAll_keeps_target dependentActivityIds
              (handleOpenDependenciesModal sudsId activityName' category' m))
    as (-> & -> & ->).
  simpl. eexists. split; [done|]. simpl. do 5 (split; [done|]).
  unfold findCell.
  destruct (head (filter _ (maintenanceActivitiesState m))) as [act|] eqn:Hhead; simpl.
  - apply head_filter_Some in Hhead as (Hin & Hs & Hn & Hc). by exists act.
  - intros act Hact. by eapply head_filter_None in Hhead.
Qed.

(** X19: after [handleOpenDependenciesModal] for a cell, and any ticks and
    unticks that follow, the dialogue is open on that cell and the records in
    memory are untouched.  The edited cell carries an id exactly when memory
    holds a record of the cell, and the id is then that of such a record; it
    carries none exactly when memory holds no record with the cell's three
    fields.  In the second version this holds for the roles for which
    [canEdit] is true; for every other role both handlers return at once and
    the component state is what it was. *)
Theorem dialogue_edits_a_record_of_its_cell (sudsId activityName' category' : string)
    (dependentActivityIds : list string) (m : Memory) :
  DialogueOpenOn sudsId activityName' category' m
    (toggleAll dependentActivityIds
       (handleOpenDependenciesModal sudsId activityName' category' m)) ∧
  (∀ userRole,
     (canEdit userRole = true →
      DialogueOpenOn sudsId activityName' category' m
        (toggleAllGated userRole dependentActivityIds
           (handleOpenDependenciesModalGated userRole sudsId activityName' category' m))) ∧
     (canEdit userRole = false →
      toggleAllGated userRole dependentActivityIds
        (handleOpenDependenciesModalGated userRole sudsId activityName' category' m) = m)).
Proof.
  split; [apply dialogue_open_after_toggles|]. intros userRole. split; intros Hrole.
  - rewrite toggleAllGated_editor by done. unfold handleOpenDependenciesModalGated.
    rewrite Hrole. apply dialogue_open_after_toggles.
  - rewrite toggleAllGated_other by done. unfold handleOpenDependenciesModalGated.
    by rewrite Hrole.
Qed.
